(** * SlepcEigenSolver (linalg/slepc.cpp): a shallow embedding

    The class [mfem::SlepcEigenSolver] is a thin stateful layer over SLEPc's
    eigensolver context (EPS).  Its methods are embedded as computations in a
    state-and-abort monad over a [World]: the fields of the solver object, the
    file-scope [ierr], the objects created with [new], the caller's arrays, and
    the trace of the calls issued to PETSc/SLEPc and to the allocator.

    SLEPc itself is an external library.  It is a parameter of the whole
    development ([Slepc]): the error code it returns for each call and the
    values it reports, as functions of the calls that came before. *)

From Stdlib Require Import ZArith NArith List String Bool Lia Uint63 PrimFloat.
From stdpp Require Import gmap strings list fin_maps.

Local Open Scope string_scope.
Local Open Scope Z_scope.

(** ** Data *)

Definition handle := positive.
Definition PetscErrorCode := Z.
Definition MPI_Comm := Z.
Definition int := Z.
Definition double := float.

(** The dynamic class of the object behind a [const Operator &]: what the
    [dynamic_cast]s of [SetOperator] and [SetOperators] can tell apart. *)
Inductive OperatorClass :=
| PetscParMatrixClass
| HypreParMatrixClass
| OtherOperatorClass.

(** An object of (a subclass of) [Operator]: its address, its dynamic class and
    its local number of rows. *)
Record Operator := {
  op_this : handle;
  op_class : OperatorClass;
  Height : nat
}.

(** [Operator::Type] identifiers used by this file. *)
Inductive OperatorType := PETSC_MATSHELL | PETSC_MATAIJ.

(** SLEPc's [EPSWhich] and [STType] values named in this file. *)
Inductive EPSWhich :=
| EPS_LARGEST_MAGNITUDE | EPS_SMALLEST_MAGNITUDE
| EPS_LARGEST_REAL | EPS_SMALLEST_REAL
| EPS_LARGEST_IMAGINARY | EPS_SMALLEST_IMAGINARY
| EPS_TARGET_MAGNITUDE | EPS_TARGET_REAL.

Inductive STType := STSHIFT | STSINVERT.

(** An [mfem::Vector] handed in by the caller: [GetData] is the address of its
    array in [memory]. *)
Record Vector := { GetData : handle }.

(** The calls this layer issues, in the order it issues them. *)
Inductive Event :=
| E_EPSCreate (comm : MPI_Comm) (eps : handle)
| E_EPSSetOptionsPrefix (eps : option handle) (prefix : string)
| E_PetscObjectGetComm (eps : option handle)
| E_EPSDestroy (eps : option handle)
| E_EPSSetOperators (eps : option handle) (A : Operator) (B : option Operator)
| E_EPSSetTolerances (eps : option handle) (tol : double) (maxits : int)
| E_EPSSetDimensions (eps : option handle) (nev ncv mpd : int)
| E_EPSSetFromOptions (eps : option handle)
| E_EPSSolve (eps : option handle)
| E_EPSGetEigenvalue (eps : option handle) (i : N) (imag : bool)
| E_EPSGetOperators (eps : option handle)
| E_EPSGetEigenvector (eps : option handle) (i : N) (Vr : handle) (Vi : option handle)
| E_EPSGetConverged (eps : option handle)
| E_EPSSetWhichEigenpairs (eps : option handle) (which : EPSWhich)
| E_EPSSetTarget (eps : option handle) (target : double)
| E_EPSGetST (eps : option handle)
| E_STSetType (st : option handle) (type : STType)
| E_new_PetscParMatrix_hypre (p : handle) (hA : Operator) (tid : OperatorType)
| E_new_PetscParMatrix_op (p : handle) (comm : option MPI_Comm) (oA : Operator)
    (tid : OperatorType)
| E_delete_PetscParMatrix (p : handle)
| E_new_PetscParVector (v : handle) (A : Operator)
| E_delete_PetscParVector (v : handle)
| E_PlaceArray (v : handle) (array : handle)
| E_ResetArray (v : handle).

(** Calls that only read the engine or only concern a vector view: they leave
    the engine's answers as they were. *)
Definition is_query (e : Event) : bool :=
  match e with
  | E_PetscObjectGetComm _ | E_EPSGetEigenvalue _ _ _ | E_EPSGetOperators _
  | E_EPSGetEigenvector _ _ _ _ | E_EPSGetConverged _ | E_EPSGetST _
  | E_new_PetscParVector _ _ | E_delete_PetscParVector _
  | E_PlaceArray _ _ | E_ResetArray _ => true
  | _ => false
  end.

(** The engine's state, as far as this layer can tell: the calls so far that
    are not queries. *)
Definition engine_state (t : list Event) : list Event :=
  List.filter (fun e => negb (is_query e)) t.

(** The external library.  [PETSC_DEFAULT] and [PETSC_DECIDE] are constants of
    PETSc's headers; [answer s e] is the error code of call [e] made in engine
    state [s]; the other fields are what the engine reports. *)
Record Slepc := {
  PETSC_DEFAULT : int;
  PETSC_DECIDE : int;
  answer : list Event -> Event -> PetscErrorCode;
  converged : list Event -> int;
  eigenvalue : list Event -> N -> double * double;
  eigenvector : list Event -> N -> nat -> double * double
}.

(** Objects on the free store. *)
Inductive HeapObject :=
| EPSObj (comm : MPI_Comm)
| PetscParMatrixObj (height : nat)
| PetscParVectorObj (size : nat) (array : option handle).

(** The data members of [SlepcEigenSolver]. *)
Record SlepcEigenSolver := {
  eps : option handle;
  _tol : double;
  _max_its : int;
  _wrap : bool;
  clcustom : bool;
  VR : option handle;
  VC : option handle;
  operatorset : bool
}.

Record World := {
  self : SlepcEigenSolver;
  ierr : PetscErrorCode;
  heap : gmap handle HeapObject;
  memory : gmap handle (list double);
  trace : list Event
}.

(** ** The monad *)

Inductive Outcome (A : Type) :=
| Returned (a : A) (w : World)
| Aborted (msg : string) (w : World)
| Undefined.
Arguments Returned {A} a w.
Arguments Aborted {A} msg w.
Arguments Undefined {A}.

Definition M (A : Type) := World -> Outcome A.

Definition ret {A} (a : A) : M A := fun w => Returned a w.

Definition bind {A B} (m : M A) (f : A -> M B) : M B := fun w =>
  match m w with
  | Returned a w' => f a w'
  | Aborted msg w' => Aborted msg w'
  | Undefined => Undefined
  end.

Declare Scope M_scope.
Delimit Scope M_scope with M.
Bind Scope M_scope with M.
Notation "x ← y ; z" := (bind y (fun x => z)) : M_scope.
Notation "' x ← y ; z" := (bind y (fun x => z)) : M_scope.
Notation "y ;; z" := (bind y (fun _ => z)) : M_scope.
Local Open Scope M_scope.

Definition final {A} (o : Outcome A) : option World :=
  match o with
  | Returned _ w | Aborted _ w => Some w
  | Undefined => None
  end.

Definition gets {A} (f : World -> A) : M A := fun w => Returned (f w) w.
Definition modify (f : World -> World) : M unit := fun w => Returned tt (f w).
Definition undefined {A} : M A := fun _ => Undefined.

Definition set_self (s : SlepcEigenSolver) (w : World) : World :=
  {| self := s; ierr := ierr w; heap := heap w; memory := memory w; trace := trace w |}.
Definition set_ierr (c : PetscErrorCode) (w : World) : World :=
  {| self := self w; ierr := c; heap := heap w; memory := memory w; trace := trace w |}.
Definition set_heap (h : gmap handle HeapObject) (w : World) : World :=
  {| self := self w; ierr := ierr w; heap := h; memory := memory w; trace := trace w |}.
Definition set_memory (m : gmap handle (list double)) (w : World) : World :=
  {| self := self w; ierr := ierr w; heap := heap w; memory := m; trace := trace w |}.
Definition emit (e : Event) (w : World) : World :=
  {| self := self w; ierr := ierr w; heap := heap w; memory := memory w;
     trace := (trace w ++ [e])%list |}.

(** Reading and assigning the data members of [*this]. *)
Definition this {A} (f : SlepcEigenSolver -> A) : M A := gets (fun w => f (self w)).

Definition assign (f : SlepcEigenSolver -> SlepcEigenSolver) : M unit :=
  modify (fun w => set_self (f (self w)) w).

Definition with_eps (x : option handle) (s : SlepcEigenSolver) :=
  {| eps := x; _tol := _tol s; _max_its := _max_its s; _wrap := _wrap s;
     clcustom := clcustom s; VR := VR s; VC := VC s; operatorset := operatorset s |}.
Definition with_tol (x : double) (s : SlepcEigenSolver) :=
  {| eps := eps s; _tol := x; _max_its := _max_its s; _wrap := _wrap s;
     clcustom := clcustom s; VR := VR s; VC := VC s; operatorset := operatorset s |}.
Definition with_max_its (x : int) (s : SlepcEigenSolver) :=
  {| eps := eps s; _tol := _tol s; _max_its := x; _wrap := _wrap s;
     clcustom := clcustom s; VR := VR s; VC := VC s; operatorset := operatorset s |}.
Definition with_wrap (x : bool) (s : SlepcEigenSolver) :=
  {| eps := eps s; _tol := _tol s; _max_its := _max_its s; _wrap := x;
     clcustom := clcustom s; VR := VR s; VC := VC s; operatorset := operatorset s |}.
Definition with_clcustom (x : bool) (s : SlepcEigenSolver) :=
  {| eps := eps s; _tol := _tol s; _max_its := _max_its s; _wrap := _wrap s;
     clcustom := x; VR := VR s; VC := VC s; operatorset := operatorset s |}.
Definition with_VR (x : option handle) (s : SlepcEigenSolver) :=
  {| eps := eps s; _tol := _tol s; _max_its := _max_its s; _wrap := _wrap s;
     clcustom := clcustom s; VR := x; VC := VC s; operatorset := operatorset s |}.
Definition with_VC (x : option handle) (s : SlepcEigenSolver) :=
  {| eps := eps s; _tol := _tol s; _max_its := _max_its s; _wrap := _wrap s;
     clcustom := clcustom s; VR := VR s; VC := x; operatorset := operatorset s |}.
Definition with_operatorset (x : bool) (s : SlepcEigenSolver) :=
  {| eps := eps s; _tol := _tol s; _max_its := _max_its s; _wrap := _wrap s;
     clcustom := clcustom s; VR := VR s; VC := VC s; operatorset := x |}.

(** ** The macros of this file and of general/error.hpp *)

(** Modelled from the spec: [MFEM_ABORT] (general/error.hpp, absent) reports
    its message and terminates the process; nothing runs after it. *)
Definition MFEM_ABORT {A} (msg : string) : M A := fun w => Aborted msg w.

(** Modelled from the spec: [MFEM_VERIFY(x, msg)] (general/error.hpp, absent)
    aborts with [msg] when [x] does not hold. *)
Definition MFEM_VERIFY (x : bool) (msg : string) : M unit :=
  if x then ret tt else MFEM_ABORT msg.

(** [ierr = ...]: the file-scope error code. *)
Definition ierr_is (c : PetscErrorCode) : M unit := modify (set_ierr c).

(** [PCHKERRQ(obj,ierr)] and [CCHKERRQ(comm,ierr)]: a non-zero [ierr] prints
    the library's stack trace (not modelled) and aborts. *)
Definition PCHKERRQ (obj : option handle) : M unit :=
  err ← gets ierr;
  if negb (err =? 0) then MFEM_ABORT "Error in SLEPc. See stacktrace above."
  else ret tt.

Definition CCHKERRQ (comm : option MPI_Comm) : M unit :=
  err ← gets ierr;
  if negb (err =? 0) then MFEM_ABORT "Error in SLEPc. See stacktrace above."
  else ret tt.

(** An expression statement: the value is computed and dropped. *)
Definition expression_statement {A} (a : A) : M unit := ret tt.

(** [*p] for a pointer that may be null. *)
Definition deref {A} (p : option A) : M A :=
  match p with
  | Some a => ret a
  | None => undefined
  end.

Definition is_null {A} (p : option A) : bool :=
  match p with
  | Some _ => false
  | None => true
  end.

(** [dynamic_cast<const T *>(&op)] for the three target classes. The cast to
    [Operator] itself is a cast to the static type of [op]. *)
Definition dynamic_cast_PetscParMatrix (op : Operator) : option Operator :=
  match op_class op with
  | PetscParMatrixClass => Some op
  | _ => None
  end.

Definition dynamic_cast_HypreParMatrix (op : Operator) : option Operator :=
  match op_class op with
  | HypreParMatrixClass => Some op
  | _ => None
  end.

Definition dynamic_cast_Operator (op : Operator) : option Operator := Some op.

(** [int] to [double], as the assignment [_tol = PETSC_DEFAULT] converts. *)
Definition double_of_int (z : int) : double :=
  if z <? 0 then PrimFloat.opp (PrimFloat.of_uint63 (Uint63.of_Z (- z)))
  else PrimFloat.of_uint63 (Uint63.of_Z z).

(** The operator most recently registered with context [e]. *)
Definition registered (e : option handle) (t : list Event) : option Operator :=
  fold_left (fun acc ev =>
    match ev with
    | E_EPSSetOperators e' A _ => if decide (e' = e) then Some A else acc
    | _ => acc
    end) t None.

(** Overwrite the first [n] entries of the array at [a]. *)
Definition store (a : handle) (n : nat) (f : nat -> double)
    (m : gmap handle (list double)) : option (gmap handle (list double)) :=
  match m !! a with
  | Some old =>
      if (n <=? length old)%nat
      then Some (<[a := (map f (seq 0 n) ++ drop n old)%list]> m)
      else None
  | None => None
  end.

(** Copy into the array currently placed in view [v]. *)
Definition store_view (v : handle) (f : nat -> double) (w : World) : option World :=
  match heap w !! v with
  | Some (PetscParVectorObj n (Some a)) =>
      match store a n f (memory w) with
      | Some m => Some (set_memory m w)
      | None => None
      end
  | _ => None
  end.

(** Modelled from the spec: the enumeration [SlepcEigenSolver::Which] of
    linalg/slepc.hpp (absent): the eight selection criteria of section 4.2, in
    the order given there, numbered from 0 as C++ numbers enumerators.  An
    argument of the type is the integer it holds. *)
Definition LARGEST_MAGNITUDE : int := 0.
Definition SMALLEST_MAGNITUDE : int := 1.
Definition LARGEST_REAL : int := 2.
Definition SMALLEST_REAL : int := 3.
Definition LARGEST_IMAGINARY : int := 4.
Definition SMALLEST_IMAGINARY : int := 5.
Definition TARGET_MAGNITUDE : int := 6.
Definition TARGET_REAL : int := 7.

(** Modelled from the spec: the enumeration
    [SlepcEigenSolver::SpectralTransformation] of linalg/slepc.hpp (absent):
    shift and shift-invert, numbered from 0. *)
Definition SHIFT : int := 0.
Definition SHIFT_INVERT : int := 1.

Section WithSlepc.

Context (slepc : Slepc).

(** ** The library, as this layer calls it *)

(** A call with no output but its error code. *)
Definition library_call (e : Event) : M PetscErrorCode := fun w =>
  Returned (answer slepc (engine_state (trace w)) e) (emit e w).

(** [EPSCreate(comm,&eps)]: on success a new context, stored in [eps]. *)
Definition EPSCreate (comm : MPI_Comm) : M PetscErrorCode := fun w =>
  let h := fresh (dom (heap w)) in
  let e := E_EPSCreate comm h in
  let c := answer slepc (engine_state (trace w)) e in
  if c =? 0
  then Returned c (emit e (set_heap (<[h := EPSObj comm]> (heap w))
                            (set_self (with_eps (Some h) (self w)) w)))
  else Returned c (emit e w).

Definition EPSSetOptionsPrefix (e : option handle) (prefix : string) :=
  library_call (E_EPSSetOptionsPrefix e prefix).

(** [PetscObjectComm(obj)]: the communicator of a live context. *)
Definition PetscObjectComm (e : option handle) : M (option MPI_Comm) :=
  gets (fun w =>
    match e with
    | Some h => match heap w !! h with
                | Some (EPSObj comm) => Some comm
                | _ => None
                end
    | None => None
    end).

(** [PetscObjectGetComm(obj,&comm)]. *)
Definition PetscObjectGetComm (e : option handle) : M (PetscErrorCode * option MPI_Comm) :=
  c ← library_call (E_PetscObjectGetComm e);
  comm ← PetscObjectComm e;
  ret (c, comm).

(** [EPSDestroy(&eps)]: on success the context is gone and [eps] is null. *)
Definition EPSDestroy : M PetscErrorCode := fun w =>
  let e := E_EPSDestroy (eps (self w)) in
  let c := answer slepc (engine_state (trace w)) e in
  if c =? 0
  then Returned c (emit e
         (set_heap (match eps (self w) with
                    | Some h => delete h (heap w)
                    | None => heap w
                    end)
            (set_self (with_eps None (self w)) w)))
  else Returned c (emit e w).

(** [EPSSetOperators(eps,*pA,NULL)] and [EPSSetOperators(eps,*pA,*pB)]. *)
Definition EPSSetOperators (e : option handle) (A : Operator) (B : option Operator) :=
  library_call (E_EPSSetOperators e A B).

Definition EPSSetTolerances (e : option handle) (tol : double) (maxits : int) :=
  library_call (E_EPSSetTolerances e tol maxits).

Definition EPSSetDimensions (e : option handle) (nev ncv mpd : int) :=
  library_call (E_EPSSetDimensions e nev ncv mpd).

Definition EPSSetFromOptions (e : option handle) :=
  library_call (E_EPSSetFromOptions e).

Definition EPSSolve (e : option handle) := library_call (E_EPSSolve e).

(** [EPSGetEigenvalue(eps,i,&lr,NULL)] and [EPSGetEigenvalue(eps,i,&lr,&lc)]. *)
Definition EPSGetEigenvalue (e : option handle) (i : N) (imag : bool)
    : M (PetscErrorCode * (double * double)) :=
  s ← gets (fun w => engine_state (trace w));
  c ← library_call (E_EPSGetEigenvalue e i imag);
  ret (c, eigenvalue slepc s i).

(** [EPSGetOperators(eps,&pA,NULL)]: the matrix the engine retained, null when
    none was registered. *)
Definition EPSGetOperators (e : option handle) : M (PetscErrorCode * option Operator) :=
  A ← gets (fun w => registered e (trace w));
  c ← library_call (E_EPSGetOperators e);
  ret (c, A).

(** [EPSGetEigenvector(eps,i,Vr,Vi)]: on success the engine copies the local
    part of the [i]-th eigenvector into the array placed in [Vr] and, when [Vi]
    is given, its imaginary part into the array placed in [Vi].  A view with no
    array placed, or an array shorter than the view, has no defined outcome. *)
Definition EPSGetEigenvector (e : option handle) (i : N) (Vr : handle)
    (Vi : option handle) : M PetscErrorCode := fun w =>
  let ev := E_EPSGetEigenvector e i Vr Vi in
  let s := engine_state (trace w) in
  let c := answer slepc s ev in
  if c =? 0
  then match store_view Vr (fun k => fst (eigenvector slepc s i k)) w with
       | Some w1 =>
           match Vi with
           | None => Returned c (emit ev w1)
           | Some vi =>
               match store_view vi (fun k => snd (eigenvector slepc s i k)) w1 with
               | Some w2 => Returned c (emit ev w2)
               | None => Undefined
               end
           end
       | None => Undefined
       end
  else Returned c (emit ev w).

Definition EPSGetConverged (e : option handle) : M (PetscErrorCode * int) :=
  s ← gets (fun w => engine_state (trace w));
  c ← library_call (E_EPSGetConverged e);
  ret (c, converged slepc s).

Definition EPSSetWhichEigenpairs (e : option handle) (which : EPSWhich) :=
  library_call (E_EPSSetWhichEigenpairs e which).

Definition EPSSetTarget (e : option handle) (target : double) :=
  library_call (E_EPSSetTarget e target).

(** [EPSGetST(eps,&st)]: the spectral-transformation object of a context is
    named by the context. *)
Definition EPSGetST (e : option handle) : M (PetscErrorCode * option handle) :=
  c ← library_call (E_EPSGetST e);
  ret (c, e).

Definition STSetType (st : option handle) (type : STType) :=
  library_call (E_STSetType st type).

(** ** PetscParMatrix and PetscParVector (linalg/petsc.cpp, absent) *)

(** Modelled from the spec: [new PetscParMatrix(hA, tid)] and
    [new PetscParMatrix(comm, oA, tid)] (linalg/petsc.cpp, absent) construct a
    new canonical handle wrapping the given operator, with its row layout. *)
Definition alloc_PetscParMatrix (ev : handle -> Event) (op : Operator)
    : M (option Operator) := fun w =>
  let p := fresh (dom (heap w)) in
  Returned (Some {| op_this := p; op_class := PetscParMatrixClass; Height := Height op |})
           (emit (ev p) (set_heap (<[p := PetscParMatrixObj (Height op)]> (heap w)) w)).

Definition new_PetscParMatrix_hypre (hA : Operator) (tid : OperatorType) :=
  alloc_PetscParMatrix (fun p => E_new_PetscParMatrix_hypre p hA tid) hA.

Definition new_PetscParMatrix_op (comm : option MPI_Comm) (oA : Operator)
    (tid : OperatorType) :=
  alloc_PetscParMatrix (fun p => E_new_PetscParMatrix_op p comm oA tid) oA.

(** Modelled from the spec: [new PetscParVector(pA, true, false)]
    (linalg/petsc.cpp, absent) allocates a view sized to the row distribution of
    the operator, with no storage of its own.  The spec gives no outcome when no
    operator is registered. *)
Definition new_PetscParVector (pA : option Operator) : M (option handle) := fun w =>
  match pA with
  | Some A =>
      let v := fresh (dom (heap w)) in
      Returned (Some v)
               (emit (E_new_PetscParVector v A)
                  (set_heap (<[v := PetscParVectorObj (Height A) None]> (heap w)) w))
  | None => Undefined
  end.

(** [delete p] for a view: nothing for a null pointer; the object is released
    otherwise; deleting what is not a live view has no defined outcome. *)
Definition delete_PetscParVector (p : option handle) : M unit := fun w =>
  match p with
  | None => Returned tt w
  | Some v =>
      match heap w !! v with
      | Some (PetscParVectorObj _ _) =>
          Returned tt (emit (E_delete_PetscParVector v) (set_heap (delete v (heap w)) w))
      | _ => Undefined
      end
  end.

(** Modelled from the spec: [PetscParVector::PlaceArray] (linalg/petsc.cpp,
    absent) rebinds the view's backing storage to the caller's array. *)
Definition PlaceArray (p : option handle) (array : handle) : M unit := fun w =>
  match p with
  | Some v =>
      match heap w !! v with
      | Some (PetscParVectorObj n _) =>
          Returned tt (emit (E_PlaceArray v array)
                         (set_heap (<[v := PetscParVectorObj n (Some array)]> (heap w)) w))
      | _ => Undefined
      end
  | None => Undefined
  end.

(** Modelled from the spec: [PetscParVector::ResetArray] (linalg/petsc.cpp,
    absent) detaches the view from the array, restoring it to the unbound
    state. *)
Definition ResetArray (p : option handle) : M unit := fun w =>
  match p with
  | Some v =>
      match heap w !! v with
      | Some (PetscParVectorObj n _) =>
          Returned tt (emit (E_ResetArray v)
                         (set_heap (<[v := PetscParVectorObj n None]> (heap w)) w))
      | _ => Undefined
      end
  | None => Undefined
  end.

(** ** The methods of SlepcEigenSolver *)

(** [SlepcEigenSolver::SlepcEigenSolver(comm, prefix, wrap)]. *)
Definition SlepcEigenSolver_ctor (comm : MPI_Comm) (prefix : string) (wrap : bool)
    : M unit :=
  assign (with_clcustom false);;
  assign (with_tol (double_of_int (PETSC_DEFAULT slepc)));;
  assign (with_max_its (PETSC_DEFAULT slepc));;
  assign (with_wrap wrap);;
  assign (with_VR None);;
  assign (with_VC None);;
  assign (with_operatorset false);;
  c ← EPSCreate comm; ierr_is c;; CCHKERRQ (Some comm);;
  e ← this eps;
  c ← EPSSetOptionsPrefix e prefix; ierr_is c;; PCHKERRQ e.

(** [SlepcEigenSolver::~SlepcEigenSolver()]. *)
Definition SlepcEigenSolver_dtor : M unit :=
  e ← this eps;
  '(c, comm) ← PetscObjectGetComm e; ierr_is c;; PCHKERRQ e;;
  c ← EPSDestroy; ierr_is c;; CCHKERRQ comm.

(** The block that [SetOperator] runs on [op] (lines 96-117) and
    [SetOperators] runs on [op] and on [opB] (lines 134-159 and 136-175): the
    three casts, then the construction of a canonical matrix when [op] is not
    one.  It yields [pA] and [delete_pA]. *)
Definition AdaptOperator (op : Operator) : M (option Operator * bool) :=
  let pA := dynamic_cast_PetscParMatrix op in
  let hA := dynamic_cast_HypreParMatrix op in
  let oA := dynamic_cast_Operator op in
  let delete_pA := false in
  if is_null pA then
    match hA with
    | Some hA' =>
        wrap ← this _wrap;
        pA ← new_PetscParMatrix_hypre hA'
               (if wrap then PETSC_MATSHELL else PETSC_MATAIJ);
        ret (pA, true)
    | None =>
        match oA with
        | Some oA' =>
            e ← this eps;
            comm ← PetscObjectComm e;
            wrap ← this _wrap;
            pA ← new_PetscParMatrix_op comm oA'
                   (if wrap then PETSC_MATSHELL else PETSC_MATAIJ);
            ret (pA, true)
        | None => ret (pA, delete_pA)
        end
    end
  else ret (pA, delete_pA).

(** [if (operatorset) { delete VR; delete VC; VR = VC = NULL; }]. *)
Definition discard_views : M unit :=
  set ← this operatorset;
  if set then
    (p ← this VR; delete_PetscParVector p);;
    (p ← this VC; delete_PetscParVector p);;
    assign (with_VC None);;
    assign (with_VR None)
  else ret tt.

(** [SlepcEigenSolver::SetOperator(op)]. *)
Definition SetOperator (op : Operator) : M unit :=
  '(pA, delete_pA) ← AdaptOperator op;
  MFEM_VERIFY (negb (is_null pA)) "Unsupported operation!";;
  discard_views;;
  e ← this eps;
  A ← deref pA;
  c ← EPSSetOperators e A None; ierr_is c;; PCHKERRQ e;;
  assign (with_operatorset true);;
  if delete_pA then expression_statement delete_pA else ret tt.

(** [SlepcEigenSolver::SetOperators(op, opB)]. *)
Definition SetOperators (op opB : Operator) : M unit :=
  '(pA, delete_pA) ← AdaptOperator op;
  MFEM_VERIFY (negb (is_null pA)) "Unsupported Operation!";;
  '(pB, delete_pB) ← AdaptOperator opB;
  MFEM_VERIFY (negb (is_null pB)) "Unsupported Operation!";;
  discard_views;;
  assign (with_operatorset true);;
  e ← this eps;
  A ← deref pA;
  B ← deref pB;
  c ← EPSSetOperators e A (Some B); ierr_is c;; PCHKERRQ e;;
  (if delete_pA then expression_statement delete_pA else ret tt);;
  (if delete_pB then expression_statement delete_pB else ret tt).

(** [SlepcEigenSolver::SetTol(tol)]. *)
Definition SetTol (tol : double) : M unit :=
  assign (with_tol tol);;
  e ← this eps; t ← this _tol; n ← this _max_its;
  c ← EPSSetTolerances e t n; ierr_is c;; PCHKERRQ e.

(** [SlepcEigenSolver::SetMaxIter(max_its)]. *)
Definition SetMaxIter (max_its : int) : M unit :=
  assign (with_max_its max_its);;
  e ← this eps; t ← this _tol; n ← this _max_its;
  c ← EPSSetTolerances e t n; ierr_is c;; PCHKERRQ e.

(** [SlepcEigenSolver::SetNumModes(num_eigs)]. *)
Definition SetNumModes (num_eigs : int) : M unit :=
  e ← this eps;
  c ← EPSSetDimensions e num_eigs (PETSC_DECIDE slepc) (PETSC_DECIDE slepc);
  ierr_is c;; PCHKERRQ e.

(** [SlepcEigenSolver::Customize(customize)]. *)
Definition Customize (customize : bool) : M unit :=
  (if negb customize then assign (with_clcustom true) else ret tt);;
  cl ← this clcustom;
  (if negb cl then
     e ← this eps;
     c ← EPSSetFromOptions e; ierr_is c;; PCHKERRQ e
   else ret tt);;
  assign (with_clcustom true).

(** [SlepcEigenSolver::Solve()]; the argument of [Customize] defaults to
    [true]. *)
Definition Solve : M unit :=
  Customize true;;
  e ← this eps;
  c ← EPSSolve e; ierr_is c;; PCHKERRQ e.

(** [SlepcEigenSolver::GetEigenvalue(i, lr)]: [lr] is returned. *)
Definition GetEigenvalue (i : N) : M double :=
  e ← this eps;
  '(c, l) ← EPSGetEigenvalue e i false; ierr_is c;; PCHKERRQ e;;
  ret (fst l).

(** [SlepcEigenSolver::GetEigenvalue(i, lr, lc)]: [(lr, lc)] is returned. *)
Definition GetEigenvalue_rc (i : N) : M (double * double) :=
  e ← this eps;
  '(c, l) ← EPSGetEigenvalue e i true; ierr_is c;; PCHKERRQ e;;
  ret l.

(** [SlepcEigenSolver::GetEigenvector(i, vr)]. *)
Definition GetEigenvector (i : N) (vr : Vector) : M unit :=
  (p ← this VR;
   if is_null p then
     e ← this eps;
     '(c, pA) ← EPSGetOperators e; ierr_is c;; PCHKERRQ e;;
     v ← new_PetscParVector pA;
     assign (with_VR v)
   else ret tt);;
  (p ← this VR; PlaceArray p (GetData vr));;
  e ← this eps;
  Vr ← bind (this VR) deref;
  c ← EPSGetEigenvector e i Vr None; ierr_is c;; PCHKERRQ e;;
  (p ← this VR; ResetArray p).

(** [SlepcEigenSolver::GetEigenvector(i, vr, vc)]. *)
Definition GetEigenvector_rc (i : N) (vr vc : Vector) : M unit :=
  (p ← this VR; q ← this VC;
   if is_null p || is_null q then
     e ← this eps;
     '(c, pA) ← EPSGetOperators e; ierr_is c;; PCHKERRQ e;;
     (p ← this VR;
      if is_null p then v ← new_PetscParVector pA; assign (with_VR v) else ret tt);;
     (q ← this VC;
      if is_null q then v ← new_PetscParVector pA; assign (with_VC v) else ret tt)
   else ret tt);;
  (p ← this VR; PlaceArray p (GetData vr));;
  (q ← this VC; PlaceArray q (GetData vc));;
  e ← this eps;
  Vr ← bind (this VR) deref;
  Vi ← bind (this VC) deref;
  c ← EPSGetEigenvector e i Vr (Some Vi); ierr_is c;; PCHKERRQ e;;
  (p ← this VR; ResetArray p);;
  (q ← this VC; ResetArray q).

(** [SlepcEigenSolver::GetNumConverged()]. *)
Definition GetNumConverged : M int :=
  e ← this eps;
  '(c, num_conv) ← EPSGetConverged e; ierr_is c;; PCHKERRQ e;;
  ret num_conv.

(** [SlepcEigenSolver::SetWhichEigenpairs(which)]. *)
Definition SetWhichEigenpairs (which : int) : M unit :=
  e ← this eps;
  if which =? LARGEST_MAGNITUDE then
    c ← EPSSetWhichEigenpairs e EPS_LARGEST_MAGNITUDE; ierr_is c;; PCHKERRQ e
  else if which =? SMALLEST_MAGNITUDE then
    c ← EPSSetWhichEigenpairs e EPS_SMALLEST_MAGNITUDE; ierr_is c;; PCHKERRQ e
  else if which =? LARGEST_REAL then
    c ← EPSSetWhichEigenpairs e EPS_LARGEST_REAL; ierr_is c;; PCHKERRQ e
  else if which =? SMALLEST_REAL then
    c ← EPSSetWhichEigenpairs e EPS_SMALLEST_REAL; ierr_is c;; PCHKERRQ e
  else if which =? LARGEST_IMAGINARY then
    c ← EPSSetWhichEigenpairs e EPS_LARGEST_IMAGINARY; ierr_is c;; PCHKERRQ e
  else if which =? SMALLEST_IMAGINARY then
    c ← EPSSetWhichEigenpairs e EPS_SMALLEST_IMAGINARY; ierr_is c;; PCHKERRQ e
  else if which =? TARGET_MAGNITUDE then
    c ← EPSSetWhichEigenpairs e EPS_TARGET_MAGNITUDE; ierr_is c;; PCHKERRQ e
  else if which =? TARGET_REAL then
    c ← EPSSetWhichEigenpairs e EPS_TARGET_REAL; ierr_is c;; PCHKERRQ e
  else MFEM_ABORT "Which eigenpair not implemented!".

(** [SlepcEigenSolver::SetTarget(target)]. *)
Definition SetTarget (target : double) : M unit :=
  e ← this eps;
  c ← EPSSetTarget e target; ierr_is c;; PCHKERRQ e.

(** [SlepcEigenSolver::SetSpectralTransformation(transformation)]. *)
Definition SetSpectralTransformation (transformation : int) : M unit :=
  e ← this eps;
  '(c, st) ← EPSGetST e; ierr_is c;; PCHKERRQ e;;
  if transformation =? SHIFT then
    c ← STSetType st STSHIFT; ierr_is c;; PCHKERRQ e
  else if transformation =? SHIFT_INVERT then
    c ← STSetType st STSINVERT; ierr_is c;; PCHKERRQ e
  else MFEM_ABORT "Spectral transformation not implemented!".

(** ** Sequences of calls on one solver *)

Inductive Call :=
| CallSetOperator (op : Operator)
| CallSetOperators (op opB : Operator)
| CallSetTol (tol : double)
| CallSetMaxIter (max_its : int)
| CallSetNumModes (num_eigs : int)
| CallSolve
| CallCustomize (customize : bool)
| CallGetEigenvalue (i : N)
| CallGetEigenvalue_rc (i : N)
| CallGetEigenvector (i : N) (vr : Vector)
| CallGetEigenvector_rc (i : N) (vr vc : Vector)
| CallGetNumConverged
| CallSetWhichEigenpairs (which : int)
| CallSetTarget (target : double)
| CallSetSpectralTransformation (transformation : int).

Definition call (c : Call) : M unit :=
  match c with
  | CallSetOperator op => SetOperator op
  | CallSetOperators op opB => SetOperators op opB
  | CallSetTol tol => SetTol tol
  | CallSetMaxIter n => SetMaxIter n
  | CallSetNumModes n => SetNumModes n
  | CallSolve => Solve
  | CallCustomize b => Customize b
  | CallGetEigenvalue i => GetEigenvalue i;; ret tt
  | CallGetEigenvalue_rc i => GetEigenvalue_rc i;; ret tt
  | CallGetEigenvector i vr => GetEigenvector i vr
  | CallGetEigenvector_rc i vr vc => GetEigenvector_rc i vr vc
  | CallGetNumConverged => GetNumConverged;; ret tt
  | CallSetWhichEigenpairs which => SetWhichEigenpairs which
  | CallSetTarget t => SetTarget t
  | CallSetSpectralTransformation t => SetSpectralTransformation t
  end.

Fixpoint calls (cs : list Call) : M unit :=
  match cs with
  | [] => ret tt
  | c :: cs' => call c;; calls cs'
  end.

End WithSlepc.

(** ** Start-up and shut-down of the library *)

(** The two calls with which a process starts and stops SLEPc; a null pointer
    argument is [None]. *)
Inductive StartupCall :=
| C_SlepcInitialize (argc argv : option handle) (rc_file help : option string)
| C_SlepcFinalize.

(** The library's answer to such a call, after the start-up calls made so
    far. *)
Record SlepcStartup := {
  startup_answer : list StartupCall -> StartupCall -> PetscErrorCode
}.

Section WithStartup.

Context (lib : SlepcStartup).

(** [SlepcInitialize(argc,argv,rc_file,help)] and [SlepcFinalize()], with the
    start-up calls made so far passed along. *)
Definition SlepcInitialize (argc argv : option handle) (rc_file help : option string)
    (h : list StartupCall) : M (PetscErrorCode * list StartupCall) :=
  let call := C_SlepcInitialize argc argv rc_file help in
  ret (startup_answer lib h call, (h ++ [call])%list).

Definition SlepcFinalize (h : list StartupCall)
    : M (PetscErrorCode * list StartupCall) :=
  ret (startup_answer lib h C_SlepcFinalize, (h ++ [C_SlepcFinalize])%list).

(** [MFEMInitializeSlepc(argc,argv,rc_file,help)]. *)
Definition MFEMInitializeSlepc_rc (argc argv : option handle)
    (rc_file help : option string) (h : list StartupCall) : M (list StartupCall) :=
  '(c, h') ← SlepcInitialize argc argv rc_file help h; ierr_is c;;
  err ← gets ierr;
  MFEM_VERIFY (err =? 0) "Unable to initialize SLEPc";;
  ret h'.

(** [MFEMInitializeSlepc(argc,argv)]. *)
Definition MFEMInitializeSlepc_args (argc argv : option handle)
    (h : list StartupCall) : M (list StartupCall) :=
  MFEMInitializeSlepc_rc argc argv None None h.

(** [MFEMInitializeSlepc()]. *)
Definition MFEMInitializeSlepc (h : list StartupCall) : M (list StartupCall) :=
  MFEMInitializeSlepc_rc None None None None h.

(** [MFEMFinalizeSlepc()]. *)
Definition MFEMFinalizeSlepc (h : list StartupCall) : M (list StartupCall) :=
  '(c, h') ← SlepcFinalize h; ierr_is c;;
  err ← gets ierr;
  MFEM_VERIFY (err =? 0) "Unable to finalize SLEPc";;
  ret h'.

End WithStartup.

(** ** Observations on worlds and traces *)

(** The engine accepts call [e] when it is made after the calls [t]. *)
Definition accepts (slepc : Slepc) (t : list Event) (e : Event) : Prop :=
  answer slepc (engine_state t) e = 0.

Definition count_events (P : Event -> bool) (t : list Event) : nat :=
  length (List.filter P t).

Definition is_merge (e : Event) : bool :=
  match e with
  | E_EPSSetFromOptions _ => true
  | _ => false
  end.

(** How many times the external options were merged. *)
Definition merges (t : list Event) : nat := count_events is_merge t.

Definition is_new_PetscParMatrix (e : Event) : bool :=
  match e with
  | E_new_PetscParMatrix_hypre _ _ _ | E_new_PetscParMatrix_op _ _ _ _ => true
  | _ => false
  end.

Definition is_delete_PetscParMatrix (e : Event) : bool :=
  match e with
  | E_delete_PetscParMatrix _ => true
  | _ => false
  end.

Definition is_delete_PetscParVector (e : Event) : bool :=
  match e with
  | E_delete_PetscParVector _ => true
  | _ => false
  end.

(** The values most recently pushed with [EPSSetTolerances]. *)
Definition pushed_tolerances (t : list Event) : option (double * int) :=
  fold_left (fun acc ev =>
    match ev with
    | E_EPSSetTolerances _ tol maxits => Some (tol, maxits)
    | _ => acc
    end) t None.

(** The message of an abort. *)
Definition abort_message {A} (o : Outcome A) : option string :=
  match o with
  | Aborted msg _ => Some msg
  | _ => None
  end.

(** A view pointer is usable: null, or a live view with no array placed. *)
Definition view_ready (p : option handle) (w : World) : Prop :=
  match p with
  | Some v => exists n, heap w !! v = Some (PetscParVectorObj n None)
  | None => True
  end.

(** The cached views of the solver are usable and are two objects. *)
Definition views_ready (w : World) : Prop :=
  view_ready (VR (self w)) w /\ view_ready (VC (self w)) w /\
  (forall v, VR (self w) = Some v -> VC (self w) <> Some v).

(** The local size the view [VR] has, or will be created with. *)
Definition local_size (p : option handle) (w : World) : option nat :=
  match p with
  | Some v => match heap w !! v with
              | Some (PetscParVectorObj n _) => Some n
              | _ => None
              end
  | None => Height <$> registered (eps (self w)) (trace w)
  end.

#[global] Arguments engine_state : simpl never.
#[global] Arguments registered : simpl never.
#[global] Arguments count_events : simpl never.
#[global] Arguments merges : simpl never.
#[global] Arguments pushed_tolerances : simpl never.
#[global] Arguments local_size : simpl never.

(** ** What the methods do, written out *)

(** The argument already is a PetscParMatrix. *)
Definition is_canonical (op : Operator) : bool :=
  match op_class op with
  | PetscParMatrixClass => true
  | _ => false
  end.

(** The handle [AdaptOperator] hands on for [op] in world [w]: [op] itself when
    it is canonical, else the matrix it constructs. *)
Definition canonical_of (op : Operator) (w : World) : Operator :=
  match op_class op with
  | PetscParMatrixClass => op
  | _ => {| op_this := fresh (dom (heap w));
            op_class := PetscParMatrixClass;
            Height := Height op |}
  end.

(** The allocation [AdaptOperator] logs for [op] in world [w]. *)
Definition construction_of (op : Operator) (w : World) : list Event :=
  let tid := if _wrap (self w) then PETSC_MATSHELL else PETSC_MATAIJ in
  match op_class op with
  | PetscParMatrixClass => []
  | HypreParMatrixClass =>
      [E_new_PetscParMatrix_hypre (fresh (dom (heap w))) op tid]
  | OtherOperatorClass =>
      [E_new_PetscParMatrix_op (fresh (dom (heap w)))
         (match eps (self w) with
          | Some h => match heap w !! h with
                      | Some (EPSObj comm) => Some comm
                      | _ => None
                      end
          | None => None
          end) op tid]
  end.

(** The world [AdaptOperator] leaves. *)
Definition adapted (op : Operator) (w : World) : World :=
  if is_canonical op then w
  else {| self := self w; ierr := ierr w;
          heap := <[fresh (dom (heap w)) := PetscParMatrixObj (Height op)]> (heap w);
          memory := memory w;
          trace := (trace w ++ construction_of op w)%list |}.

(** The heap without the object [p] points to. *)
Definition release (p : option handle) (h : gmap handle HeapObject)
    : gmap handle HeapObject :=
  match p with
  | Some v => delete v h
  | None => h
  end.

(** What [delete p] logs for a view pointer. *)
Definition deletion_of (p : option handle) : list Event :=
  match p with
  | Some v => [E_delete_PetscParVector v]
  | None => []
  end.

(** The calls [discard_views] logs. *)
Definition view_deletions (w : World) : list Event :=
  if operatorset (self w)
  then (deletion_of (VR (self w)) ++ deletion_of (VC (self w)))%list
  else [].

(** The world [discard_views] leaves when it is defined. *)
Definition discarded (w : World) : World :=
  if operatorset (self w) then
    {| self := with_VR None (with_VC None (self w)); ierr := ierr w;
       heap := release (VC (self w)) (release (VR (self w)) (heap w));
       memory := memory w;
       trace := (trace w ++ deletion_of (VR (self w)) ++ deletion_of (VC (self w)))%list |}
  else w.

(** The heap after [discard_views]. *)
Definition heap_without_views (w : World) : gmap handle HeapObject :=
  if operatorset (self w)
  then release (VC (self w)) (release (VR (self w)) (heap w))
  else heap w.

(** The real parts the engine reports for the [i]-th eigenvector, entries
    [0 .. n-1] of the local part. *)
Definition real_part (slepc : Slepc) (s : list Event) (i : N) (n : nat) : list double :=
  map (fun k => fst (eigenvector slepc s i k)) (seq 0 n).

Definition imaginary_part (slepc : Slepc) (s : list Event) (i : N) (n : nat)
    : list double :=
  map (fun k => snd (eigenvector slepc s i k)) (seq 0 n).

(** The enumerators of [Which] and the engine values the switch of
    SetWhichEigenpairs maps them to. *)
Definition which_values : list (int * EPSWhich) :=
  [(LARGEST_MAGNITUDE, EPS_LARGEST_MAGNITUDE);
   (SMALLEST_MAGNITUDE, EPS_SMALLEST_MAGNITUDE);
   (LARGEST_REAL, EPS_LARGEST_REAL);
   (SMALLEST_REAL, EPS_SMALLEST_REAL);
   (LARGEST_IMAGINARY, EPS_LARGEST_IMAGINARY);
   (SMALLEST_IMAGINARY, EPS_SMALLEST_IMAGINARY);
   (TARGET_MAGNITUDE, EPS_TARGET_MAGNITUDE);
   (TARGET_REAL, EPS_TARGET_REAL)].

(** The enumerators of [SpectralTransformation] and the engine types the
    switch of SetSpectralTransformation maps them to. *)
Definition transformation_values : list (int * STType) :=
  [(SHIFT, STSHIFT); (SHIFT_INVERT, STSINVERT)].

(** The only abort of an outcome, if any, is the one of PCHKERRQ. *)
Definition engine_abort_only {A} (o : Outcome A) : Prop :=
  match o with
  | Aborted msg _ => msg = "Error in SLEPc. See stacktrace above."
  | _ => True
  end.

(** What is left of the merge allowance: the merges so far, plus one while the
    latch is still open. *)
Definition budget (w : World) : nat :=
  (merges (trace w) + (if clcustom (self w) then 0 else 1))%nat.

(** The calls that create, place or delete views, or allocate. *)
Definition touches_views (c : Call) : bool :=
  match c with
  | CallSetOperator _ | CallSetOperators _ _
  | CallGetEigenvector _ _ | CallGetEigenvector_rc _ _ _ => true
  | _ => false
  end.

(** The world in which SetOperator calls the engine, and the call. *)
Definition before_registration (op : Operator) (w : World) : World :=
  discarded (adapted op w).

Definition registration (op : Operator) (w : World) : Event :=
  E_EPSSetOperators (eps (self w)) (canonical_of op w) None.

(** The world in which SetOperators calls the engine, the call, and the
    matrices constructed before it. *)
Definition before_registration2 (op opB : Operator) (w : World) : World :=
  let D := discarded (adapted opB (adapted op w)) in
  set_self (with_operatorset true (self D)) D.

Definition registration2 (op opB : Operator) (w : World) : Event :=
  E_EPSSetOperators (eps (self w)) (canonical_of op w)
    (Some (canonical_of opB (adapted op w))).

Definition construction2 (op opB : Operator) (w : World) : list Event :=
  (construction_of op w ++ construction_of opB (adapted op w))%list.

(** ** Further observations *)

(** The engine rejects call [e] when it is made after the calls [t]. *)
Definition rejects (slepc : Slepc) (t : list Event) (e : Event) : Prop :=
  answer slepc (engine_state t) e <> 0.

Definition is_new_PetscParVector (e : Event) : bool :=
  match e with
  | E_new_PetscParVector _ _ => true
  | _ => false
  end.

Definition is_EPSGetOperators (e : Event) : bool :=
  match e with
  | E_EPSGetOperators _ => true
  | _ => false
  end.

(** A canonical matrix constructed with a type other than [tid]. *)
Definition is_new_PetscParMatrix_not (tid : OperatorType) (e : Event) : bool :=
  match e with
  | E_new_PetscParMatrix_hypre _ _ t | E_new_PetscParMatrix_op _ _ _ t =>
      match t, tid with
      | PETSC_MATSHELL, PETSC_MATSHELL | PETSC_MATAIJ, PETSC_MATAIJ => false
      | _, _ => true
      end
  | _ => false
  end.

(** The matrix type the solver asks for when it constructs one. *)
Definition matrix_type (w : World) : OperatorType :=
  if _wrap (self w) then PETSC_MATSHELL else PETSC_MATAIJ.

(** How many of the two view pointers are set. *)
Definition live_views (w : World) : nat :=
  ((if is_null (VR (self w)) then 0 else 1) +
   (if is_null (VC (self w)) then 0 else 1))%nat.

(** How many canonical matrices a call constructs: one for each operator
    argument that is not one. *)
Definition synthesized (c : Call) : nat :=
  match c with
  | CallSetOperator op => if is_canonical op then 0 else 1
  | CallSetOperators op opB =>
      (if is_canonical op then 0 else 1) + (if is_canonical opB then 0 else 1)
  | _ => 0
  end%nat.

Definition sets_tol (c : Call) : bool :=
  match c with
  | CallSetTol _ => true
  | _ => false
  end.

Definition sets_max_its (c : Call) : bool :=
  match c with
  | CallSetMaxIter _ => true
  | _ => false
  end.

(** The calls that read or set the customization latch. *)
Definition uses_latch (c : Call) : bool :=
  match c with
  | CallSolve | CallCustomize _ => true
  | _ => false
  end.

(** The calls that write into arrays of the caller. *)
Definition writes_arrays (c : Call) : bool :=
  match c with
  | CallGetEigenvector _ _ | CallGetEigenvector_rc _ _ _ => true
  | _ => false
  end.

(** The calls that only ask the engine for a value. *)
Definition is_value_query (c : Call) : bool :=
  match c with
  | CallGetEigenvalue _ | CallGetEigenvalue_rc _ | CallGetNumConverged => true
  | _ => false
  end.

(** The calls of a whole life of a solver: construction, the calls [cs],
    destruction. *)
Definition lifetime (slepc : Slepc) (comm : MPI_Comm) (prefix : string) (wrap : bool)
    (cs : list Call) : M unit :=
  SlepcEigenSolver_ctor slepc comm prefix wrap;; calls slepc cs;;
  SlepcEigenSolver_dtor slepc.

(** An abort with the engine's message follows the call the engine rejected,
    with the rejection in [ierr]. *)
Definition after_rejection (slepc : Slepc) (w' : World) : Prop :=
  ierr w' <> 0 /\
  exists t e, trace w' = (t ++ [e])%list /\ answer slepc (engine_state t) e = ierr w'.

(** An object that is not a view. *)
Definition not_a_view (o : HeapObject) : Prop :=
  match o with
  | PetscParVectorObj _ _ => False
  | _ => True
  end.

(** ** A concrete engine and concrete worlds *)

(** An engine that accepts every call, reports three converged pairs with
    eigenvalues 1, 2, 3 and eigenvectors with entries [k + 1 + i]. *)
Definition ideal_slepc : Slepc :=
  {| PETSC_DEFAULT := -2;
     PETSC_DECIDE := -1;
     answer := fun _ _ => 0;
     converged := fun _ => 3;
     eigenvalue := fun _ i => (double_of_int (Z.of_N i + 1), double_of_int 0);
     eigenvector := fun _ i k =>
       (double_of_int (Z.of_nat k + 1 + Z.of_N i), double_of_int 0) |}.

Definition blank_solver : SlepcEigenSolver :=
  {| eps := None; _tol := double_of_int 0; _max_its := 0; _wrap := false;
     clcustom := false; VR := None; VC := None; operatorset := false |}.

(** A process with four caller arrays of two entries and nothing else. *)
Definition blank_world : World :=
  {| self := blank_solver;
     ierr := 0;
     heap := ∅;
     memory := {[ 100%positive := [double_of_int 0; double_of_int 0];
                  101%positive := [double_of_int 9; double_of_int 9];
                  102%positive := [double_of_int 0; double_of_int 0];
                  103%positive := [double_of_int 9; double_of_int 9] ]};
     trace := [] |}.

(** Operators of each class, with two local rows. *)
Definition hypre_A : Operator :=
  {| op_this := 50%positive; op_class := HypreParMatrixClass; Height := 2 |}.
Definition hypre_B : Operator :=
  {| op_this := 51%positive; op_class := HypreParMatrixClass; Height := 2 |}.
Definition petsc_A : Operator :=
  {| op_this := 52%positive; op_class := PetscParMatrixClass; Height := 2 |}.
Definition petsc_B : Operator :=
  {| op_this := 53%positive; op_class := PetscParMatrixClass; Height := 2 |}.
Definition generic_A : Operator :=
  {| op_this := 54%positive; op_class := OtherOperatorClass; Height := 2 |}.

Definition buffer (a : handle) : Vector := {| GetData := a |}.

(** A solver constructed in [blank_world], with communicator 7. *)
Definition constructed (slepc : Slepc) (cs : list Call) : Outcome unit :=
  (SlepcEigenSolver_ctor slepc 7 "eig_" false;; calls slepc cs) blank_world.

(** The world that run ends in. *)
Definition world_after (cs : list Call) : World :=
  match constructed ideal_slepc cs with
  | Returned _ w | Aborted _ w => w
  | Undefined => blank_world
  end.

(** After construction; after a first solve; after a first retrieval of an
    eigenvector with its imaginary part. *)
Definition constructed_world : World := world_after [].

Definition solved_world : World := world_after [CallSetOperator hypre_A; CallSolve].

Definition retrieved_world : World :=
  world_after [CallSetOperator hypre_A; CallSolve;
               CallGetEigenvector_rc 0 (buffer 100%positive) (buffer 102%positive)].

(** The run that ends in [solved_world]: the first Solve closes the latch. *)
Definition solved_once : Outcome unit :=
  constructed ideal_slepc [CallSetOperator hypre_A; CallSolve].

(** An engine that rejects some calls: a call on a null context (error 85),
    the creation of a context on communicator 0 (error 98), and a solve or the
    retrieval of an eigenvector before any operator was registered (error
    73). *)
Definition strict_slepc : Slepc :=
  {| PETSC_DEFAULT := -2;
     PETSC_DECIDE := -1;
     answer := fun s e =>
       match e with
       | E_EPSCreate comm _ => if comm =? 0 then 98 else 0
       | E_EPSSetOptionsPrefix None _ | E_PetscObjectGetComm None
       | E_EPSDestroy None | E_EPSSetOperators None _ _
       | E_EPSSetTolerances None _ _ | E_EPSSetDimensions None _ _ _
       | E_EPSSetFromOptions None | E_EPSGetEigenvalue None _ _
       | E_EPSGetOperators None | E_EPSGetEigenvector None _ _ _
       | E_EPSGetConverged None | E_EPSSetWhichEigenpairs None _
       | E_EPSSetTarget None _ | E_EPSGetST None | E_STSetType None _ => 85
       | E_EPSSolve e' =>
           match e', registered e' s with
           | Some _, Some _ => 0
           | Some _, None => 73
           | None, _ => 85
           end
       | E_EPSGetEigenvector e' _ _ _ =>
           if is_null (registered e' s) then 73 else 0
       | _ => 0
       end;
     converged := fun _ => 3;
     eigenvalue := fun _ i => (double_of_int (Z.of_N i + 1), double_of_int 0);
     eigenvector := fun _ i k =>
       (double_of_int (Z.of_nat k + 1 + Z.of_N i), double_of_int 0) |}.

(** Whether the engine has solved since operators were last registered. *)
Definition solved_since_registration (s : list Event) : bool :=
  fold_left (fun acc ev =>
    match ev with
    | E_EPSSetOperators _ _ _ => false
    | E_EPSSolve _ => true
    | _ => acc
    end) s false.

(** An engine that works in stages: it solves only when operators are
    registered, and hands out eigenvalues and eigenvectors only when it has
    solved since the last registration (error 73 otherwise). *)
Definition staged_slepc : Slepc :=
  {| PETSC_DEFAULT := -2;
     PETSC_DECIDE := -1;
     answer := fun s e =>
       match e with
       | E_EPSSolve e' => if is_null (registered e' s) then 73 else 0
       | E_EPSGetEigenvalue _ _ _ | E_EPSGetEigenvector _ _ _ _ =>
           if solved_since_registration s then 0 else 73
       | _ => 0
       end;
     converged := fun _ => 3;
     eigenvalue := fun _ i => (double_of_int (Z.of_N i + 1), double_of_int 0);
     eigenvector := fun _ i k =>
       (double_of_int (Z.of_nat k + 1 + Z.of_N i), double_of_int 0) |}.

(** A library that starts once and stops once: a second start is accepted (it
    does nothing), a stop before any start is an error. *)
Definition plain_startup : SlepcStartup :=
  {| startup_answer := fun h c =>
       match c with
       | C_SlepcInitialize _ _ _ _ => 0
       | C_SlepcFinalize =>
           if existsb (fun c' => match c' with
                                 | C_SlepcInitialize _ _ _ _ => true
                                 | _ => false
                                 end) h
           then 0 else 1
       end |}.

(** ** Basic facts *)

Lemma engine_state_app (t d : list Event) :
  engine_state (t ++ d) = (engine_state t ++ engine_state d)%list.
Proof. unfold engine_state. apply List.filter_app. Qed.

Lemma engine_state_query (t : list Event) (e : Event) :
  is_query e = true -> engine_state (t ++ [e]) = engine_state t.
Proof.
  intros H. rewrite engine_state_app. unfold engine_state at 2. cbn.
  rewrite H. cbn. apply app_nil_r.
Qed.

Lemma count_events_app (P : Event -> bool) (t d : list Event) :
  count_events P (t ++ d) = (count_events P t + count_events P d)%nat.
Proof. unfold count_events. rewrite List.filter_app, length_app. reflexivity. Qed.

Lemma count_events_one (P : Event -> bool) (e : Event) :
  count_events P [e] = if P e then 1%nat else 0%nat.
Proof. unfold count_events. cbn. destruct (P e); reflexivity. Qed.

Lemma merges_app (t d : list Event) : merges (t ++ d) = (merges t + merges d)%nat.
Proof. apply count_events_app. Qed.

Lemma merges_snoc (t : list Event) (e : Event) :
  merges (t ++ [e]) = (merges t + (if is_merge e then 1 else 0))%nat.
Proof. rewrite merges_app. unfold merges. rewrite count_events_one. reflexivity. Qed.

Lemma merges_le_budget (w : World) : (merges (trace w) <= budget w)%nat.
Proof. unfold budget. lia. Qed.

Lemma registered_app (e : option handle) (t d : list Event) :
  registered e (t ++ d) =
  fold_left (fun acc ev =>
    match ev with
    | E_EPSSetOperators e' A _ => if decide (e' = e) then Some A else acc
    | _ => acc
    end) d (registered e t).
Proof. unfold registered. apply fold_left_app. Qed.

Lemma registered_query (e : option handle) (t : list Event) (ev : Event) :
  is_query ev = true -> registered e (t ++ [ev]) = registered e t.
Proof.
  intros H. rewrite registered_app. destruct ev; try discriminate; reflexivity.
Qed.

Lemma registered_snoc (e : option handle) (t : list Event) (A : Operator)
    (B : option Operator) :
  registered e (t ++ [E_EPSSetOperators e A B]) = Some A.
Proof.
  rewrite registered_app. cbn. destruct (decide (e = e)); [reflexivity|congruence].
Qed.

Lemma pushed_tolerances_snoc (t : list Event) (e : option handle) (x : double) (n : int) :
  pushed_tolerances (t ++ [E_EPSSetTolerances e x n]) = Some (x, n).
Proof. unfold pushed_tolerances. rewrite fold_left_app. reflexivity. Qed.

Lemma fresh_heap_None (h : gmap handle HeapObject) : h !! fresh (dom h) = None.
Proof. apply not_elem_of_dom, is_fresh. Qed.

Lemma fresh_insert_ne (h : gmap handle HeapObject) (v : handle) (o : HeapObject) :
  fresh (dom (<[v := o]> h)) <> v.
Proof.
  intros E. pose proof (fresh_heap_None (<[v := o]> h)) as H.
  rewrite E, lookup_insert_eq in H. discriminate.
Qed.

Lemma fresh_ne_live (h : gmap handle HeapObject) (v : handle) (o : HeapObject) :
  h !! v = Some o -> fresh (dom h) <> v.
Proof. intros Hv E. rewrite <- E, fresh_heap_None in Hv. discriminate. Qed.

Lemma store_spec (a : handle) (n : nat) (f : nat -> double)
    (m : gmap handle (list double)) (old : list double) :
  m !! a = Some old -> (n <= length old)%nat ->
  store a n f m = Some (<[a := (map f (seq 0 n) ++ drop n old)%list]> m).
Proof.
  intros Ha Hn. unfold store. rewrite Ha.
  destruct (Nat.leb_spec n (length old)); [reflexivity|lia].
Qed.

Lemma store_view_frame (v : handle) (f : nat -> double) (w w' : World) :
  store_view v f w = Some w' ->
  self w' = self w /\ ierr w' = ierr w /\ heap w' = heap w /\ trace w' = trace w.
Proof.
  unfold store_view. intros H.
  destruct (heap w !! v) as [[| |n [a|]]|]; try discriminate.
  destruct (store a n f (memory w)); inversion H; subst. cbn. auto.
Qed.

Lemma drop_whole {A} (l : list A) (n : nat) : length l = n -> drop n l = [].
Proof. intros <-. apply drop_all. Qed.

Lemma ideal_accepts (t : list Event) (e : Event) : accepts ideal_slepc t e.
Proof. reflexivity. Qed.

(** The views of the concrete worlds are usable. *)
Lemma views_ready_constructed : views_ready constructed_world.
Proof.
  unfold views_ready.
  assert (VR (self constructed_world) = None) as -> by (vm_compute; reflexivity).
  assert (VC (self constructed_world) = None) as -> by (vm_compute; reflexivity).
  split; [exact I|]. split; [exact I|]. intros v H. discriminate H.
Qed.

Lemma views_ready_retrieved : views_ready retrieved_world.
Proof.
  unfold views_ready.
  assert (VR (self retrieved_world) = Some 3%positive) as -> by (vm_compute; reflexivity).
  assert (VC (self retrieved_world) = Some 4%positive) as -> by (vm_compute; reflexivity).
  split; [|split].
  - exists 2%nat. vm_compute. reflexivity.
  - exists 2%nat. vm_compute. reflexivity.
  - intros v [= <-] [=].
Qed.

(** ** Tactics for running a method body *)

(** Unfolding the monadic plumbing. *)
Ltac unfold_M :=
  unfold SetOperator, SetOperators, discard_views, AdaptOperator, SetTol, SetMaxIter,
    SetNumModes, Customize, Solve, GetEigenvalue, GetEigenvalue_rc, GetEigenvector,
    GetEigenvector_rc, GetNumConverged, SetWhichEigenpairs, SetTarget,
    SetSpectralTransformation, SlepcEigenSolver_ctor, SlepcEigenSolver_dtor,
    EPSCreate, EPSDestroy, EPSSetOptionsPrefix, PetscObjectGetComm, PetscObjectComm,
    EPSSetOperators, EPSSetTolerances, EPSSetDimensions, EPSSetFromOptions, EPSSolve,
    EPSGetEigenvalue, EPSGetOperators, EPSGetEigenvector, EPSGetConverged,
    EPSSetWhichEigenpairs, EPSSetTarget, EPSGetST, STSetType,
    new_PetscParMatrix_hypre, new_PetscParMatrix_op, alloc_PetscParMatrix,
    new_PetscParVector, delete_PetscParVector, PlaceArray, ResetArray,
    library_call, PCHKERRQ, CCHKERRQ, MFEM_VERIFY, MFEM_ABORT, ierr_is,
    expression_statement, deref, this, assign, gets, modify, undefined, bind, ret in *.

Ltac break_match :=
  match goal with
  | |- context [match ?x with _ => _ end] =>
      match x with
      | context [match _ with _ => _ end] => fail 1
      | _ => destruct x eqn:?
      end
  end.

Ltac use_store_view :=
  repeat match goal with
  | H : store_view _ _ _ = Some ?w |- _ =>
      let Hs := fresh "Hself" in let Hi := fresh "Hierr" in
      let Hh := fresh "Hheap" in let Ht := fresh "Htrace" in
      apply store_view_frame in H; destruct H as (Hs & Hi & Hh & Ht);
      cbn in Hs, Hi, Hh, Ht; rewrite ?Hs, ?Hi, ?Hh, ?Ht in *; clear Hs Hi Hh Ht
  end.

(** Symbolic execution of a method body, one branch per goal. *)
Ltac run_M :=
  repeat (progress unfold_M); cbn;
  repeat (break_match; cbn in *; try exact I; try discriminate).

(** Simplification with what is known of the engine's answers, the view
    pointers and the heap; queries leave the engine's state as it was. *)
Ltac simp_M :=
  repeat (progress (cbn;
    repeat (rewrite ?engine_state_query, ?registered_query by reflexivity);
    repeat match goal with
    | H : accepts _ _ _ |- _ => rewrite H
    | H : forall _, accepts _ _ _ |- _ => rewrite H
    | H : forall _ _, accepts _ _ _ |- _ => rewrite H
    | H : (_ =? 0) = _ |- _ => rewrite H
    | H : VR _ = _ |- _ => rewrite H
    | H : VC _ = _ |- _ => rewrite H
    | H : registered _ _ = _ |- _ => rewrite H
    | H : heap _ !! _ = _ |- _ => rewrite H
    | H : _ <> _ |- _ => rewrite (lookup_insert_ne _ _ _ _ H)
    end;
    rewrite ?lookup_insert_eq)).

Ltac case_answer :=
  match goal with
  | |- context [answer ?s ?st ?e =? 0] =>
      let E := fresh "E" in
      destruct (answer s st e =? 0) eqn:E; simp_M; [|try (intros [=])]
  end.

Ltac case_store :=
  match goal with
  | |- context [store ?a ?n ?f ?m] =>
      destruct (store a n f m); simp_M; [|try (intros [=])]
  end.

(** Normalising a heap built by repeated updates of two different cells. *)
Ltac heap_eq :=
  apply map_eq; intros ?k;
  repeat (rewrite lookup_insert; case_decide; subst; try congruence);
  try reflexivity.

(** ** Operator registration *)

Lemma is_canonical_true (op : Operator) :
  op_class op = PetscParMatrixClass -> is_canonical op = true.
Proof. unfold is_canonical. intros ->. reflexivity. Qed.

Lemma is_canonical_false (op : Operator) :
  op_class op <> PetscParMatrixClass -> is_canonical op = false.
Proof. unfold is_canonical. destruct (op_class op); congruence. Qed.

Lemma canonical_of_canonical (op : Operator) (w : World) :
  is_canonical op = true ->
  canonical_of op w = op /\ adapted op w = w /\ construction_of op w = [].
Proof.
  unfold canonical_of, adapted, construction_of, is_canonical.
  destruct (op_class op); try discriminate. auto.
Qed.

Lemma Height_canonical_of (op : Operator) (w : World) :
  Height (canonical_of op w) = Height op.
Proof. unfold canonical_of. destruct (op_class op); reflexivity. Qed.

(** The adapting block, as an equation. *)
Lemma AdaptOperator_spec (op : Operator) (w : World) :
  AdaptOperator op w =
  Returned (Some (canonical_of op w), negb (is_canonical op)) (adapted op w).
Proof.
  unfold adapted, canonical_of, construction_of, is_canonical.
  repeat (progress unfold_M). unfold dynamic_cast_PetscParMatrix,
    dynamic_cast_HypreParMatrix, dynamic_cast_Operator, emit, set_heap.
  destruct (op_class op); cbn; reflexivity.
Qed.

Lemma self_adapted (op : Operator) (w : World) : self (adapted op w) = self w.
Proof. unfold adapted. destruct (is_canonical op); reflexivity. Qed.

Lemma memory_adapted (op : Operator) (w : World) : memory (adapted op w) = memory w.
Proof. unfold adapted. destruct (is_canonical op); reflexivity. Qed.

Lemma trace_adapted (op : Operator) (w : World) :
  trace (adapted op w) = (trace w ++ construction_of op w)%list.
Proof.
  unfold adapted, construction_of, is_canonical.
  destruct (op_class op); cbn; rewrite ?app_nil_r; reflexivity.
Qed.

Lemma heap_adapted_fresh (op : Operator) (w : World) :
  is_canonical op = false ->
  heap w !! op_this (canonical_of op w) = None /\
  heap (adapted op w) !! op_this (canonical_of op w) = Some (PetscParMatrixObj (Height op)).
Proof.
  unfold adapted, canonical_of, is_canonical.
  destruct (op_class op); try discriminate; intros _; cbn;
    (split; [apply fresh_heap_None | apply lookup_insert_eq]).
Qed.

Lemma heap_adapted_keeps (op : Operator) (w : World) (p : handle) (o : HeapObject) :
  heap w !! p = Some o -> heap (adapted op w) !! p = Some o.
Proof.
  intros Hp. unfold adapted. destruct (is_canonical op); [exact Hp|]. cbn.
  rewrite lookup_insert_ne; [exact Hp|]. intros <-.
  rewrite fresh_heap_None in Hp. discriminate.
Qed.

Lemma heap_adapted_None (op : Operator) (w : World) (p : handle) :
  heap (adapted op w) !! p = None -> heap w !! p = None.
Proof.
  destruct (heap w !! p) as [o|] eqn:E; [|reflexivity].
  rewrite (heap_adapted_keeps op w p o E). discriminate.
Qed.

Lemma count_construction (P : Event -> bool) (op : Operator) (w : World) :
  (forall e, is_new_PetscParMatrix e = true -> P e = false) ->
  count_events P (construction_of op w) = 0%nat.
Proof.
  intros HP. unfold construction_of, count_events.
  destruct (op_class op); cbn; try reflexivity; rewrite HP; reflexivity.
Qed.

Lemma count_new_construction (op : Operator) (w : World) :
  count_events is_new_PetscParMatrix (construction_of op w) =
  if is_canonical op then 0%nat else 1%nat.
Proof. unfold construction_of, is_canonical. destruct (op_class op); reflexivity. Qed.

(** Allocation of a matrix keeps the cached views usable. *)
Lemma views_ready_adapted (op : Operator) (w : World) :
  views_ready w -> views_ready (adapted op w).
Proof.
  unfold adapted. destruct (is_canonical op); [auto|].
  intros (Hr & Hc & Hne). unfold views_ready, view_ready. cbn.
  assert (Hf : forall v n a, heap w !! v = Some (PetscParVectorObj n a) ->
                 <[fresh (dom (heap w)) := PetscParMatrixObj (Height op)]> (heap w) !! v
                 = Some (PetscParVectorObj n a)).
  { intros v n a Hv. rewrite lookup_insert_ne; [exact Hv|].
    intros <-. rewrite fresh_heap_None in Hv. discriminate. }
  repeat split.
  - destruct (VR (self w)); [|exact I]. destruct Hr as [n Hn]. eauto.
  - destruct (VC (self w)); [|exact I]. destruct Hc as [n Hn]. eauto.
  - exact Hne.
Qed.

(** The discarding block, as an equation. *)
Lemma discard_views_spec (w : World) :
  views_ready w -> discard_views w = Returned tt (discarded w).
Proof.
  intros (Hr & Hc & Hne). unfold discarded, release. repeat (progress unfold_M).
  destruct (operatorset (self w)); [|reflexivity].
  destruct (VR (self w)) as [vr|] eqn:EVR; destruct (VC (self w)) as [vc|] eqn:EVC; cbn.
  - destruct Hr as [n Hn]. destruct Hc as [m Hm]. rewrite Hn. cbn. rewrite ?EVC.
    assert (vr <> vc) by (intros ->; apply (Hne vc); reflexivity).
    rewrite lookup_delete_ne by assumption. rewrite Hm.
    unfold emit, set_heap, set_self. cbn. rewrite <- ?app_assoc. reflexivity.
  - destruct Hr as [n Hn]. rewrite Hn. cbn. rewrite ?EVC.
    unfold emit, set_heap, set_self. cbn. rewrite ?app_nil_r. reflexivity.
  - destruct Hc as [m Hm]. rewrite ?EVC. rewrite Hm.
    unfold emit, set_heap, set_self. cbn. reflexivity.
  - rewrite ?EVC. unfold set_self. cbn. rewrite ?app_nil_r.
    destruct w as [s ? ? ? ?]; reflexivity.
Qed.

Lemma views_ready_discarded (w : World) : views_ready w -> views_ready (discarded w).
Proof.
  intros Hv. unfold discarded. destruct (operatorset (self w)); [|exact Hv].
  split; [exact I|]. split; [exact I|]. intros v [=].
Qed.

Lemma trace_discarded (w : World) :
  trace (discarded w) = (trace w ++ view_deletions w)%list.
Proof.
  unfold discarded, view_deletions.
  destruct (operatorset (self w)); cbn; rewrite ?app_nil_r; reflexivity.
Qed.

Lemma heap_discarded (w : World) : heap (discarded w) = heap_without_views w.
Proof.
  unfold discarded, heap_without_views. destruct (operatorset (self w)); reflexivity.
Qed.

Lemma discarded_fields (w : World) :
  eps (self (discarded w)) = eps (self w) /\ memory (discarded w) = memory w /\
  clcustom (self (discarded w)) = clcustom (self w) /\
  (operatorset (self w) = true ->
   VR (self (discarded w)) = None /\ VC (self (discarded w)) = None).
Proof.
  unfold discarded. destruct (operatorset (self w)); cbn; repeat split; congruence.
Qed.

Lemma view_deletions_adapted (op : Operator) (w : World) :
  view_deletions (adapted op w) = view_deletions w.
Proof. unfold view_deletions. rewrite self_adapted. reflexivity. Qed.

Lemma count_view_deletions (P : Event -> bool) (w : World) :
  (forall e, is_delete_PetscParVector e = true -> P e = false) ->
  count_events P (view_deletions w) = 0%nat.
Proof.
  intros HP. unfold view_deletions, deletion_of, count_events.
  destruct (operatorset (self w)); [|reflexivity].
  destruct (VR (self w)), (VC (self w)); cbn; rewrite ?HP; reflexivity.
Qed.

(** The engine does not see the deletion of the views. *)
Lemma engine_state_view_deletions (w : World) : engine_state (view_deletions w) = [].
Proof.
  unfold view_deletions, deletion_of.
  destruct (operatorset (self w)); [|reflexivity].
  destruct (VR (self w)), (VC (self w)); reflexivity.
Qed.

Lemma engine_state_discarded (w : World) :
  engine_state (trace (discarded w)) = engine_state (trace w).
Proof.
  rewrite trace_discarded, engine_state_app, engine_state_view_deletions.
  apply app_nil_r.
Qed.

(** Discarding the views releases nothing but views. *)
Lemma discarded_keeps (w : World) (p : handle) (n : nat) :
  views_ready w ->
  heap w !! p = Some (PetscParMatrixObj n) ->
  heap (discarded w) !! p = Some (PetscParMatrixObj n).
Proof.
  intros (Hr & Hc & _) Hp. unfold discarded.
  destruct (operatorset (self w)); [|exact Hp]. cbn. unfold release.
  destruct (VC (self w)) as [vc|], (VR (self w)) as [vr|]; cbn in *.
  - destruct Hr as [a Ha], Hc as [b Hb].
    rewrite !lookup_delete_ne; [exact Hp| |]; intros ->; congruence.
  - destruct Hc as [b Hb]. rewrite lookup_delete_ne; [exact Hp|]. intros ->; congruence.
  - destruct Hr as [a Ha]. rewrite lookup_delete_ne; [exact Hp|]. intros ->; congruence.
  - exact Hp.
Qed.

(** Discarding the views releases both of them. *)
Lemma discarded_views_gone (w : World) (v : handle) :
  operatorset (self w) = true ->
  VR (self w) = Some v \/ VC (self w) = Some v ->
  heap (discarded w) !! v = None /\ In (E_delete_PetscParVector v) (view_deletions w).
Proof.
  intros Hs Hv. unfold discarded, view_deletions, release. rewrite Hs. cbn.
  destruct Hv as [Hv|Hv]; rewrite Hv; cbn.
  - split; [|left; reflexivity].
    destruct (VC (self w)) as [vc|]; cbn.
    + destruct (decide (vc = v)) as [->|Hne].
      * apply lookup_delete_eq.
      * rewrite lookup_delete_ne by exact Hne. apply lookup_delete_eq.
    + apply lookup_delete_eq.
  - split; [apply lookup_delete_eq|]. apply in_or_app. right. left. reflexivity.
Qed.

(** What [SetOperator] does, whatever the engine answers. *)
Lemma SetOperator_run (slepc : Slepc) (op : Operator) (w : World) :
  views_ready w ->
  SetOperator slepc op w =
  let D := before_registration op w in
  let c := answer slepc (engine_state (trace w ++ construction_of op w))
             (registration op w) in
  if c =? 0
  then Returned tt (set_self (with_operatorset true (self D))
                      (set_ierr c (emit (registration op w) D)))
  else Aborted "Error in SLEPc. See stacktrace above."
         (set_ierr c (emit (registration op w) D)).
Proof.
  intros Hv. unfold SetOperator, bind at 1, before_registration, registration.
  rewrite AdaptOperator_spec. cbn. unfold bind at 1.
  rewrite discard_views_spec by (apply views_ready_adapted, Hv).
  destruct (discarded_fields (adapted op w)) as (He & _).
  rewrite self_adapted in He.
  repeat (progress unfold_M). cbn.
  rewrite He, engine_state_discarded, trace_adapted.
  destruct (answer slepc _ _ =? 0); cbn; [|reflexivity].
  destruct (is_canonical op); reflexivity.
Qed.

(** What [SetOperators] does, whatever the engine answers. *)
Lemma SetOperators_run (slepc : Slepc) (op opB : Operator) (w : World) :
  views_ready w ->
  SetOperators slepc op opB w =
  let D := before_registration2 op opB w in
  let c := answer slepc (engine_state (trace w ++ construction2 op opB w))
             (registration2 op opB w) in
  if c =? 0
  then Returned tt (set_ierr c (emit (registration2 op opB w) D))
  else Aborted "Error in SLEPc. See stacktrace above."
         (set_ierr c (emit (registration2 op opB w) D)).
Proof.
  intros Hv. unfold SetOperators, bind at 1, before_registration2, registration2,
    construction2.
  rewrite AdaptOperator_spec. cbn. unfold bind at 1.
  rewrite AdaptOperator_spec. cbn. unfold bind at 1.
  rewrite discard_views_spec by (do 2 apply views_ready_adapted; exact Hv).
  destruct (discarded_fields (adapted opB (adapted op w))) as (He & _).
  rewrite !self_adapted in He.
  repeat (progress unfold_M). cbn.
  rewrite He, engine_state_discarded, !trace_adapted, <- app_assoc.
  destruct (answer slepc _ _ =? 0); cbn; [|reflexivity].
  destruct (is_canonical op), (is_canonical opB); reflexivity.
Qed.

(** SetOperator when the engine accepts the registration. *)
Lemma SetOperator_spec (slepc : Slepc) (op : Operator) (w : World) :
  views_ready w ->
  accepts slepc (trace w ++ construction_of op w) (registration op w) ->
  SetOperator slepc op w =
  Returned tt
    (set_self (with_operatorset true (self (before_registration op w)))
       (set_ierr 0 (emit (registration op w) (before_registration op w)))).
Proof.
  intros Hv Ha. rewrite (SetOperator_run slepc op w Hv). cbv zeta.
  unfold accepts in Ha. rewrite !Ha. reflexivity.
Qed.

(** SetOperators when the engine accepts the registration. *)
Lemma SetOperators_spec (slepc : Slepc) (op opB : Operator) (w : World) :
  views_ready w ->
  accepts slepc (trace w ++ construction2 op opB w) (registration2 op opB w) ->
  SetOperators slepc op opB w =
  Returned tt
    (set_ierr 0 (emit (registration2 op opB w) (before_registration2 op opB w))).
Proof.
  intros Hv Ha. rewrite (SetOperators_run slepc op opB w Hv). cbv zeta.
  unfold accepts in Ha. rewrite !Ha. reflexivity.
Qed.

Lemma trace_before_registration (op : Operator) (w : World) :
  trace (before_registration op w) =
  (trace w ++ construction_of op w ++ view_deletions w)%list.
Proof.
  unfold before_registration.
  rewrite trace_discarded, trace_adapted, view_deletions_adapted, <- app_assoc.
  reflexivity.
Qed.

Lemma trace_before_registration2 (op opB : Operator) (w : World) :
  trace (before_registration2 op opB w) =
  (trace w ++ construction2 op opB w ++ view_deletions w)%list.
Proof.
  unfold before_registration2, construction2. cbn.
  rewrite trace_discarded, !trace_adapted, !view_deletions_adapted, <- !app_assoc.
  reflexivity.
Qed.

Ltac solve_count :=
  rewrite ?count_events_app, ?count_events_one, ?count_new_construction;
  rewrite ?count_view_deletions, ?count_construction
    by (intros [] ?; try discriminate; reflexivity);
  cbn.

(** C1, as the code has it.  When the argument is not canonical, SetOperator
    and SetOperators construct a canonical matrix and return with it still
    live: it is created once and never deleted by the call. *)
Theorem synthesized_matrix_never_released (slepc : Slepc) :
  (forall op w,
     op_class op <> PetscParMatrixClass ->
     views_ready w ->
     accepts slepc (trace w ++ construction_of op w) (registration op w) ->
     exists w',
       SetOperator slepc op w = Returned tt w' /\
       heap w !! op_this (canonical_of op w) = None /\
       heap w' !! op_this (canonical_of op w) = Some (PetscParMatrixObj (Height op)) /\
       count_events is_new_PetscParMatrix (trace w') =
         S (count_events is_new_PetscParMatrix (trace w)) /\
       count_events is_delete_PetscParMatrix (trace w') =
         count_events is_delete_PetscParMatrix (trace w)) /\
  (forall op opB w,
     views_ready w ->
     accepts slepc (trace w ++ construction2 op opB w) (registration2 op opB w) ->
     exists w',
       SetOperators slepc op opB w = Returned tt w' /\
       (op_class op <> PetscParMatrixClass ->
        heap w !! op_this (canonical_of op w) = None /\
        heap w' !! op_this (canonical_of op w) = Some (PetscParMatrixObj (Height op))) /\
       (op_class opB <> PetscParMatrixClass ->
        heap w !! op_this (canonical_of opB (adapted op w)) = None /\
        heap w' !! op_this (canonical_of opB (adapted op w)) =
          Some (PetscParMatrixObj (Height opB))) /\
       count_events is_new_PetscParMatrix (trace w') =
         (count_events is_new_PetscParMatrix (trace w) +
          (if is_canonical op then 0 else 1) + (if is_canonical opB then 0 else 1))%nat /\
       count_events is_delete_PetscParMatrix (trace w') =
         count_events is_delete_PetscParMatrix (trace w)).
Proof.
  split.
  - intros op w Hop Hv Ha. apply is_canonical_false in Hop.
    rewrite (SetOperator_spec slepc op w Hv Ha). eexists. split; [reflexivity|].
    destruct (heap_adapted_fresh op w Hop) as [Hf Hl]. cbn.
    split; [exact Hf|]. split.
    + apply discarded_keeps; [apply views_ready_adapted, Hv | exact Hl].
    + rewrite trace_before_registration. unfold registration. solve_count.
      rewrite Hop. split; lia.
  - intros op opB w Hv Ha.
    rewrite (SetOperators_spec slepc op opB w Hv Ha). eexists. split; [reflexivity|].
    cbn. split; [|split].
    + intros Hop. apply is_canonical_false in Hop.
      destruct (heap_adapted_fresh op w Hop) as [Hf Hl]. split; [exact Hf|].
      apply discarded_keeps; [do 2 apply views_ready_adapted; exact Hv|].
      apply heap_adapted_keeps, Hl.
    + intros Hop. apply is_canonical_false in Hop.
      destruct (heap_adapted_fresh opB (adapted op w) Hop) as [Hf Hl].
      split; [apply (heap_adapted_None op), Hf|].
      apply discarded_keeps; [do 2 apply views_ready_adapted; exact Hv|exact Hl].
    + change (trace (discarded (adapted opB (adapted op w))))
        with (trace (before_registration2 op opB w)).
      rewrite trace_before_registration2. unfold registration2, construction2.
      solve_count. destruct (is_canonical op), (is_canonical opB); split; lia.
Qed.

Lemma synthesized_matrix_never_released_witness :
  exists w',
    SetOperator ideal_slepc hypre_A constructed_world = Returned tt w' /\
    heap constructed_world !! 2%positive = None /\
    heap w' !! 2%positive = Some (PetscParMatrixObj 2) /\
    count_events is_delete_PetscParMatrix (trace w') = 0%nat.
Proof.
  destruct (proj1 (synthesized_matrix_never_released ideal_slepc)
              hypre_A constructed_world)
    as (w' & Hrun & Hfresh & Hlive & _ & Hdel).
  - discriminate.
  - exact views_ready_constructed.
  - apply ideal_accepts.
  - exists w'. split; [exact Hrun|]. split; [exact Hfresh|]. split; [exact Hlive|].
    rewrite Hdel. reflexivity.
Defined.

(** C6. An argument that already is a PetscParMatrix is handed on as it is,
    with [delete_pA] false and the world untouched; SetOperator and
    SetOperators register that very object with the engine, construct no matrix
    for it and delete none. *)
Theorem canonical_operator_passed_through (slepc : Slepc) :
  (forall op w,
     op_class op = PetscParMatrixClass ->
     AdaptOperator op w = Returned (Some op, false) w) /\
  (forall op w,
     op_class op = PetscParMatrixClass ->
     views_ready w ->
     accepts slepc (trace w) (E_EPSSetOperators (eps (self w)) op None) ->
     exists w',
       SetOperator slepc op w = Returned tt w' /\
       trace w' = (trace w ++ view_deletions w ++
                   [E_EPSSetOperators (eps (self w)) op None])%list /\
       heap w' = heap_without_views w) /\
  (forall op opB w,
     views_ready w ->
     accepts slepc (trace w ++ construction2 op opB w) (registration2 op opB w) ->
     exists w' A B d,
       SetOperators slepc op opB w = Returned tt w' /\
       trace w' = (trace w ++ d ++ [E_EPSSetOperators (eps (self w)) A (Some B)])%list /\
       (op_class op = PetscParMatrixClass -> A = op) /\
       (op_class opB = PetscParMatrixClass -> B = opB) /\
       count_events is_new_PetscParMatrix d =
         ((if is_canonical op then 0 else 1) + (if is_canonical opB then 0 else 1))%nat /\
       count_events is_delete_PetscParMatrix d = 0%nat /\
       (op_class op = PetscParMatrixClass -> op_class opB = PetscParMatrixClass ->
        d = view_deletions w /\ heap w' = heap_without_views w)).
Proof.
  split; [|split].
  - intros op w Hop. rewrite AdaptOperator_spec.
    apply is_canonical_true in Hop.
    destruct (canonical_of_canonical op w Hop) as (-> & -> & _). rewrite Hop.
    reflexivity.
  - intros op w Hop Hv Ha. apply is_canonical_true in Hop.
    destruct (canonical_of_canonical op w Hop) as (Hc & Hw & Hn).
    rewrite SetOperator_spec; [|exact Hv|].
    + eexists. split; [reflexivity|]. cbn. unfold before_registration, registration.
      rewrite Hc, Hw, trace_discarded, heap_discarded, <- app_assoc.
      split; reflexivity.
    + unfold registration. rewrite Hn, Hc, app_nil_r. exact Ha.
  - intros op opB w Hv Ha.
    rewrite (SetOperators_spec slepc op opB w Hv Ha).
    eexists _, (canonical_of op w), (canonical_of opB (adapted op w)),
      (construction2 op opB w ++ view_deletions w)%list.
    split; [reflexivity|]. cbn.
    change (trace (discarded (adapted opB (adapted op w))))
      with (trace (before_registration2 op opB w)).
    change (heap (discarded (adapted opB (adapted op w))))
      with (heap (before_registration2 op opB w)).
    rewrite trace_before_registration2.
    split; [|split; [|split; [|split; [|split]]]].
    + unfold registration2. rewrite <- !app_assoc. reflexivity.
    + intros Hop. apply (canonical_of_canonical op w), is_canonical_true, Hop.
    + intros Hop. apply (canonical_of_canonical opB), is_canonical_true, Hop.
    + unfold construction2. solve_count. lia.
    + unfold construction2. solve_count. reflexivity.
    + intros HA HB. apply is_canonical_true in HA, HB.
      unfold construction2, before_registration2. cbn.
      destruct (canonical_of_canonical op w HA) as (_ & Hw & Hn). rewrite Hw, Hn.
      destruct (canonical_of_canonical opB w HB) as (_ & Hw' & Hn'). rewrite Hw', Hn'.
      rewrite heap_discarded. split; reflexivity.
Qed.

Lemma canonical_operator_passed_through_witness :
  exists w',
    SetOperator ideal_slepc petsc_A retrieved_world = Returned tt w' /\
    trace w' = (trace retrieved_world ++
                [E_delete_PetscParVector 3%positive; E_delete_PetscParVector 4%positive;
                 E_EPSSetOperators (Some 1%positive) petsc_A None])%list.
Proof.
  destruct (proj1 (proj2 (canonical_operator_passed_through ideal_slepc))
              petsc_A retrieved_world)
    as (w' & Hrun & Htrace & _).
  - reflexivity.
  - exact views_ready_retrieved.
  - apply ideal_accepts.
  - exists w'. split; [exact Hrun|]. rewrite Htrace. vm_compute. reflexivity.
Defined.

Lemma engine_abort_only_message {A} (o : Outcome A) :
  engine_abort_only o ->
  abort_message o = None \/
  abort_message o = Some "Error in SLEPc. See stacktrace above.".
Proof. destruct o; cbn; intros H; [left|right; rewrite H|left]; reflexivity. Qed.

Lemma SetOperator_aborts (slepc : Slepc) (op : Operator) (w : World) :
  engine_abort_only (SetOperator slepc op w).
Proof.
  unfold SetOperator, bind at 1. rewrite AdaptOperator_spec. cbn.
  run_M; cbn; auto.
Qed.

Lemma SetOperators_aborts (slepc : Slepc) (op opB : Operator) (w : World) :
  engine_abort_only (SetOperators slepc op opB w).
Proof.
  unfold SetOperators, bind at 1. rewrite AdaptOperator_spec. cbn.
  unfold bind at 1. rewrite AdaptOperator_spec. cbn.
  run_M; cbn; auto.
Qed.

(** C10. The block that adapts an argument always yields a canonical matrix
    of the argument's height: the argument itself when it is a PetscParMatrix,
    otherwise a newly constructed PetscParMatrix that it owns.  The cast to
    Operator never fails, so an argument that is neither a PetscParMatrix nor
    a HypreParMatrix is wrapped by the constructor that takes a generic
    operator.  Hence neither SetOperator nor SetOperators can abort on the
    check of [pA] or [pB]: the only abort left to them is the engine's, and on
    a solver with usable views both go on past the check to EPSSetOperators,
    which they call with the adapted matrices; they return if the engine
    accepts that call and abort with the engine's message if it does not. *)
Theorem unsupported_branch_unreachable (slepc : Slepc) (op opB : Operator) (w : World) :
  (exists pA owned w',
     AdaptOperator op w = Returned (Some pA, owned) w' /\
     pA = canonical_of op w /\
     op_class pA = PetscParMatrixClass /\ Height pA = Height op /\
     (op_class op = PetscParMatrixClass -> pA = op /\ owned = false /\ w' = w) /\
     (op_class op <> PetscParMatrixClass ->
      owned = true /\ heap w !! op_this pA = None /\
      heap w' !! op_this pA = Some (PetscParMatrixObj (Height op)))) /\
  (op_class op = OtherOperatorClass ->
   exists p comm tid w',
     AdaptOperator op w =
       Returned (Some {| op_this := p; op_class := PetscParMatrixClass;
                         Height := Height op |}, true) w' /\
     trace w' = (trace w ++ [E_new_PetscParMatrix_op p comm op tid])%list) /\
  (abort_message (SetOperator slepc op w) = None \/
   abort_message (SetOperator slepc op w) = Some "Error in SLEPc. See stacktrace above.") /\
  (abort_message (SetOperators slepc op opB w) = None \/
   abort_message (SetOperators slepc op opB w) =
     Some "Error in SLEPc. See stacktrace above.") /\
  (op_class op = HypreParMatrixClass ->
   exists p tid w',
     AdaptOperator op w =
       Returned (Some {| op_this := p; op_class := PetscParMatrixClass;
                         Height := Height op |}, true) w' /\
     trace w' = (trace w ++ [E_new_PetscParMatrix_hypre p op tid])%list) /\
  (views_ready w ->
   let call := E_EPSSetOperators (eps (self w)) (canonical_of op w) None in
   let c := answer slepc (engine_state (trace w ++ construction_of op w)) call in
   exists w',
     final (SetOperator slepc op w) = Some w' /\
     trace w' = (trace w ++ construction_of op w ++ view_deletions w ++ [call])%list /\
     ierr w' = c /\
     (c = 0 -> SetOperator slepc op w = Returned tt w') /\
     (c <> 0 ->
      SetOperator slepc op w = Aborted "Error in SLEPc. See stacktrace above." w')) /\
  (views_ready w ->
   let call := E_EPSSetOperators (eps (self w)) (canonical_of op w)
                 (Some (canonical_of opB (adapted op w))) in
   let c := answer slepc
              (engine_state (trace w ++ construction_of op w ++
                             construction_of opB (adapted op w))) call in
   exists w',
     final (SetOperators slepc op opB w) = Some w' /\
     trace w' = (trace w ++ construction_of op w ++
                 construction_of opB (adapted op w) ++ view_deletions w ++
                 [call])%list /\
     ierr w' = c /\
     op_class (canonical_of opB (adapted op w)) = PetscParMatrixClass /\
     (c = 0 -> SetOperators slepc op opB w = Returned tt w') /\
     (c <> 0 ->
      SetOperators slepc op opB w =
        Aborted "Error in SLEPc. See stacktrace above." w')).
Proof.
  assert (Hclass : forall o x, op_class (canonical_of o x) = PetscParMatrixClass).
  { intros o x. unfold canonical_of. destruct (op_class o) eqn:E; [exact E| |];
      reflexivity. }
  split; [|split; [|split; [|split; [|split; [|split]]]]].
  - rewrite AdaptOperator_spec. eexists _, _, _. split; [reflexivity|].
    split; [reflexivity|]. split; [apply Hclass|].
    split; [apply Height_canonical_of|]. split.
    + intros Hop. apply is_canonical_true in Hop.
      destruct (canonical_of_canonical op w Hop) as (-> & -> & _). rewrite Hop.
      repeat split.
    + intros Hop. apply is_canonical_false in Hop. rewrite Hop.
      split; [reflexivity|]. apply heap_adapted_fresh, Hop.
  - intros Hop. rewrite AdaptOperator_spec.
    unfold canonical_of, adapted, construction_of, is_canonical. rewrite Hop. cbn.
    eexists _, _, _, _. split; reflexivity.
  - apply engine_abort_only_message, SetOperator_aborts.
  - apply engine_abort_only_message, SetOperators_aborts.
  - intros Hop. rewrite AdaptOperator_spec.
    unfold canonical_of, adapted, construction_of, is_canonical. rewrite Hop. cbn.
    eexists _, _, _. split; reflexivity.
  - intros Hv call c. subst call c. rewrite (SetOperator_run slepc op w Hv). cbv zeta.
    fold (registration op w).
    destruct (Z.eqb_spec (answer slepc (engine_state (trace w ++ construction_of op w))
                            (registration op w)) 0) as [E|E].
    + eexists. split; [reflexivity|]. cbn. rewrite trace_before_registration.
      rewrite <- !app_assoc. split; [reflexivity|]. split; [reflexivity|].
      split; [reflexivity|]. intros H. contradiction.
    + eexists. split; [reflexivity|]. cbn. rewrite trace_before_registration.
      rewrite <- !app_assoc. split; [reflexivity|]. split; [reflexivity|].
      split; [intros H; contradiction|reflexivity].
  - intros Hv call c. subst call c. rewrite (SetOperators_run slepc op opB w Hv).
    cbv zeta. fold (registration2 op opB w). rewrite app_assoc.
    fold (construction2 op opB w).
    destruct (Z.eqb_spec (answer slepc (engine_state (trace w ++ construction2 op opB w))
                            (registration2 op opB w)) 0) as [E|E].
    + eexists. split; [reflexivity|]. cbn.
      change (trace (discarded (adapted opB (adapted op w))))
        with (trace (before_registration2 op opB w)).
      rewrite trace_before_registration2. unfold construction2.
      rewrite <- !app_assoc. split; [reflexivity|]. split; [reflexivity|].
      split; [apply Hclass|]. split; [reflexivity|]. intros H. contradiction.
    + eexists. split; [reflexivity|]. cbn.
      change (trace (discarded (adapted opB (adapted op w))))
        with (trace (before_registration2 op opB w)).
      rewrite trace_before_registration2. unfold construction2.
      rewrite <- !app_assoc. split; [reflexivity|]. split; [reflexivity|].
      split; [apply Hclass|]. split; [intros H; contradiction|reflexivity].
Qed.

Lemma unsupported_branch_unreachable_witness :
  (exists w',
     AdaptOperator generic_A constructed_world =
       Returned (Some {| op_this := 2%positive; op_class := PetscParMatrixClass;
                         Height := 2 |}, true) w' /\
     trace w' = (trace constructed_world ++
                 [E_new_PetscParMatrix_op 2%positive (Some 7) generic_A
                    PETSC_MATAIJ])%list) /\
  (exists w',
     SetOperator ideal_slepc generic_A constructed_world = Returned tt w' /\
     trace w' = (trace constructed_world ++
                 [E_new_PetscParMatrix_op 2%positive (Some 7) generic_A PETSC_MATAIJ;
                  E_EPSSetOperators (Some 1%positive)
                    {| op_this := 2%positive; op_class := PetscParMatrixClass;
                       Height := 2 |} None])%list).
Proof.
  pose proof (unsupported_branch_unreachable
                ideal_slepc generic_A generic_A constructed_world)
    as (_ & Hgen & _ & _ & _ & Hset & _).
  split.
  - destruct Hgen as (p & comm & tid & w' & Hrun & Htrace); [reflexivity|].
    exists w'.
    assert (Hv : AdaptOperator generic_A constructed_world =
                 Returned (Some {| op_this := 2%positive;
                                   op_class := PetscParMatrixClass;
                                   Height := 2 |}, true)
                   (adapted generic_A constructed_world)).
    { rewrite AdaptOperator_spec. vm_compute. reflexivity. }
    rewrite Hv in Hrun. injection Hrun as Hp Hw. subst p w'.
    split; [exact Hv|]. vm_compute. reflexivity.
  - destruct (Hset views_ready_constructed) as (w' & _ & Htrace & _ & Hret & _).
    exists w'. split; [apply Hret; reflexivity|].
    rewrite Htrace. vm_compute. reflexivity.
Defined.

(** ** Configuration setters *)

(** C7. Calling SetTol(x) twice in a row leaves the stored tolerance, the stored
    iteration limit and the values pushed to the engine as a single SetTol(x)
    leaves them, and the rest of the solver with them; the same holds for
    SetMaxIter; and of two different values the later one is the one stored and
    pushed. *)
Theorem setters_idempotent_last_write_wins (slepc : Slepc) (w : World) :
  (forall x,
     let push := E_EPSSetTolerances (eps (self w)) x (_max_its (self w)) in
     accepts slepc (trace w) push ->
     accepts slepc (trace w ++ [push]) push ->
     exists w1 w2,
       SetTol slepc x w = Returned tt w1 /\
       SetTol slepc x w1 = Returned tt w2 /\
       _tol (self w1) = x /\ _max_its (self w1) = _max_its (self w) /\
       pushed_tolerances (trace w1) = Some (x, _max_its (self w)) /\
       self w2 = self w1 /\
       pushed_tolerances (trace w2) = pushed_tolerances (trace w1) /\
       ierr w2 = ierr w1 /\ heap w2 = heap w1 /\ memory w2 = memory w1) /\
  (forall n,
     let push := E_EPSSetTolerances (eps (self w)) (_tol (self w)) n in
     accepts slepc (trace w) push ->
     accepts slepc (trace w ++ [push]) push ->
     exists w1 w2,
       SetMaxIter slepc n w = Returned tt w1 /\
       SetMaxIter slepc n w1 = Returned tt w2 /\
       _max_its (self w1) = n /\ _tol (self w1) = _tol (self w) /\
       pushed_tolerances (trace w1) = Some (_tol (self w), n) /\
       self w2 = self w1 /\
       pushed_tolerances (trace w2) = pushed_tolerances (trace w1) /\
       ierr w2 = ierr w1 /\ heap w2 = heap w1 /\ memory w2 = memory w1) /\
  (forall x y,
     let push_x := E_EPSSetTolerances (eps (self w)) x (_max_its (self w)) in
     let push_y := E_EPSSetTolerances (eps (self w)) y (_max_its (self w)) in
     accepts slepc (trace w) push_x ->
     accepts slepc (trace w ++ [push_x]) push_y ->
     accepts slepc (trace w) push_y ->
     exists w1 w2 w2',
       SetTol slepc x w = Returned tt w1 /\
       SetTol slepc y w1 = Returned tt w2 /\
       SetTol slepc y w = Returned tt w2' /\
       self w2 = self w2' /\ _tol (self w2) = y /\
       pushed_tolerances (trace w2) = Some (y, _max_its (self w)) /\
       pushed_tolerances (trace w2) = pushed_tolerances (trace w2')) /\
  (forall n m,
     let push_n := E_EPSSetTolerances (eps (self w)) (_tol (self w)) n in
     let push_m := E_EPSSetTolerances (eps (self w)) (_tol (self w)) m in
     accepts slepc (trace w) push_n ->
     accepts slepc (trace w ++ [push_n]) push_m ->
     accepts slepc (trace w) push_m ->
     exists w1 w2 w2',
       SetMaxIter slepc n w = Returned tt w1 /\
       SetMaxIter slepc m w1 = Returned tt w2 /\
       SetMaxIter slepc m w = Returned tt w2' /\
       self w2 = self w2' /\ _max_its (self w2) = m /\
       pushed_tolerances (trace w2) = Some (_tol (self w), m) /\
       pushed_tolerances (trace w2) = pushed_tolerances (trace w2')).
Proof.
  split; [|split; [|split]].
  - intros x push H1 H2. unfold accepts in *. subst push. unfold_M. cbn. rewrite H1. cbn.
    eexists _, _. split; [reflexivity|]. cbn. rewrite H2. cbn.
    split; [reflexivity|]. cbn.
    rewrite !pushed_tolerances_snoc. repeat split; reflexivity.
  - intros n push H1 H2. unfold accepts in *. subst push. unfold_M. cbn. rewrite H1. cbn.
    eexists _, _. split; [reflexivity|]. cbn. rewrite H2. cbn.
    split; [reflexivity|]. cbn.
    rewrite !pushed_tolerances_snoc. repeat split; reflexivity.
  - intros x y px py Hx Hxy Hy. unfold accepts in *. subst px py. unfold_M. cbn. rewrite Hx, Hy. cbn.
    eexists _, _, _. split; [reflexivity|]. cbn. rewrite Hxy. cbn.
    split; [reflexivity|]. split; [reflexivity|]. cbn.
    rewrite !pushed_tolerances_snoc. repeat split; reflexivity.
  - intros n m pn pm Hn Hnm Hm. unfold accepts in *. subst pn pm. unfold_M. cbn. rewrite Hn, Hm. cbn.
    eexists _, _, _. split; [reflexivity|]. cbn. rewrite Hnm. cbn.
    split; [reflexivity|]. split; [reflexivity|]. cbn.
    rewrite !pushed_tolerances_snoc. repeat split; reflexivity.
Qed.

Lemma setters_idempotent_last_write_wins_witness :
  exists w1 w2,
    SetTol ideal_slepc 0.5%float constructed_world = Returned tt w1 /\
    SetTol ideal_slepc 0.5%float w1 = Returned tt w2 /\
    self w2 = self w1 /\
    pushed_tolerances (trace w2) = pushed_tolerances (trace w1).
Proof.
  destruct (proj1 (setters_idempotent_last_write_wins ideal_slepc constructed_world)
              0.5%float)
    as (w1 & w2 & H1 & H2 & _ & _ & _ & Hs & Hp & _).
  - apply ideal_accepts.
  - apply ideal_accepts.
  - exists w1, w2. auto.
Defined.

(** ** The customization latch *)

(** Operator registration neither touches the latch nor merges options. *)
Lemma SetOperator_quiet (slepc : Slepc) (op : Operator) (w w' : World) :
  final (SetOperator slepc op w) = Some w' ->
  clcustom (self w') = clcustom (self w) /\ merges (trace w') = merges (trace w).
Proof.
  unfold SetOperator, bind at 1. rewrite AdaptOperator_spec. cbn.
  assert (Hm : merges (trace (adapted op w)) = merges (trace w)).
  { rewrite trace_adapted, merges_app. unfold merges.
    rewrite count_construction by (intros [] ?; try discriminate; reflexivity). lia. }
  revert Hm. rewrite <- (self_adapted op w). generalize (adapted op w). intros a Hm.
  run_M; intros [= <-]; cbn; rewrite ?merges_snoc; cbn; split; try reflexivity; lia.
Qed.

Lemma SetOperators_quiet (slepc : Slepc) (op opB : Operator) (w w' : World) :
  final (SetOperators slepc op opB w) = Some w' ->
  clcustom (self w') = clcustom (self w) /\ merges (trace w') = merges (trace w).
Proof.
  unfold SetOperators, bind at 1. rewrite AdaptOperator_spec. cbn.
  unfold bind at 1. rewrite AdaptOperator_spec. cbn.
  assert (Hm : merges (trace (adapted opB (adapted op w))) = merges (trace w)).
  { rewrite !trace_adapted, !merges_app. unfold merges.
    rewrite !count_construction by (intros [] ?; try discriminate; reflexivity). lia. }
  revert Hm. rewrite <- (self_adapted op w), <- (self_adapted opB (adapted op w)).
  generalize (adapted opB (adapted op w)). intros a Hm.
  run_M; intros [= <-]; cbn; rewrite ?merges_snoc; cbn; split; try reflexivity; lia.
Qed.

(** A call never raises the budget: it merges only while the latch is open,
    and closes the latch when it does; and it never loses a merge. *)
Lemma call_budget (slepc : Slepc) (c : Call) (w : World) :
  match call slepc c w with
  | Returned _ w' =>
      (merges (trace w) <= merges (trace w'))%nat /\ (budget w' <= budget w)%nat
  | Aborted _ w' =>
      (merges (trace w) <= merges (trace w'))%nat /\ (merges (trace w') <= budget w)%nat
  | Undefined => True
  end.
Proof.
  unfold budget.
  destruct c; unfold call;
    [pose proof (SetOperator_quiet slepc op w) as Hq;
     destruct (SetOperator slepc op w); [| |exact I];
     destruct (Hq _ eq_refl) as [Hc Hm]; rewrite ?Hc, ?Hm; lia
    |pose proof (SetOperators_quiet slepc op opB w) as Hq;
     destruct (SetOperators slepc op opB w); [| |exact I];
     destruct (Hq _ eq_refl) as [Hc Hm]; rewrite ?Hc, ?Hm; lia
    |..];
    run_M; use_store_view;
    rewrite ?merges_snoc; cbn in *; solve [congruence | lia].
Qed.

(** A call that returns leaves a closed latch closed. *)
Lemma call_latch (slepc : Slepc) (c : Call) (w : World) :
  clcustom (self w) = true ->
  match call slepc c w with
  | Returned _ w' => clcustom (self w') = true
  | _ => True
  end.
Proof.
  intros Hl.
  destruct c; unfold call;
    [pose proof (SetOperator_quiet slepc op w) as Hq;
     destruct (SetOperator slepc op w); [|exact I|exact I];
     destruct (Hq _ eq_refl) as [-> _]; exact Hl
    |pose proof (SetOperators_quiet slepc op opB w) as Hq;
     destruct (SetOperators slepc op opB w); [|exact I|exact I];
     destruct (Hq _ eq_refl) as [-> _]; exact Hl
    |..];
    run_M; use_store_view; cbn in *; congruence.
Qed.

Lemma calls_budget (slepc : Slepc) (cs : list Call) (w : World) :
  match calls slepc cs w with
  | Returned _ w' =>
      (merges (trace w) <= merges (trace w'))%nat /\ (budget w' <= budget w)%nat
  | Aborted _ w' =>
      (merges (trace w) <= merges (trace w'))%nat /\ (merges (trace w') <= budget w)%nat
  | Undefined => True
  end.
Proof.
  revert w. induction cs as [|c cs IH]; intros w; cbn.
  - unfold ret. lia.
  - unfold bind. pose proof (call_budget slepc c w) as Hc.
    destruct (call slepc c w) as [[] w1|msg w1|]; [|exact Hc|exact I].
    specialize (IH w1).
    destruct (calls slepc cs w1) as [[] w2|msg w2|]; [| |exact I]; lia.
Qed.

Lemma calls_latch (slepc : Slepc) (cs : list Call) (w : World) :
  clcustom (self w) = true ->
  match calls slepc cs w with
  | Returned _ w' => clcustom (self w') = true
  | _ => True
  end.
Proof.
  revert w. induction cs as [|c cs IH]; intros w Hl; cbn.
  - exact Hl.
  - unfold bind. pose proof (call_latch slepc c w Hl) as Hc.
    destruct (call slepc c w) as [[] w1|msg w1|]; [|exact I|exact I].
    apply IH, Hc.
Qed.

(** The constructor leaves the latch open and merges nothing. *)
Lemma ctor_latch (slepc : Slepc) (comm : MPI_Comm) (prefix : string) (wrap : bool)
    (w : World) :
  exists w', final (SlepcEigenSolver_ctor slepc comm prefix wrap w) = Some w' /\
             clcustom (self w') = false /\ merges (trace w') = merges (trace w).
Proof.
  run_M; eexists; (split; [reflexivity|]); cbn;
    rewrite ?merges_snoc; cbn; split; try reflexivity; lia.
Qed.

(** Two Solve calls in a row on an open latch. *)
Lemma solve_twice (slepc : Slepc) (w : World) :
  let merge := E_EPSSetFromOptions (eps (self w)) in
  let solve := E_EPSSolve (eps (self w)) in
  clcustom (self w) = false ->
  accepts slepc (trace w) merge ->
  accepts slepc (trace w ++ [merge]) solve ->
  accepts slepc (trace w ++ [merge; solve]) solve ->
  exists w1 w2,
    Solve slepc w = Returned tt w1 /\ Solve slepc w1 = Returned tt w2 /\
    merges (trace w1) = S (merges (trace w)) /\
    merges (trace w2) = S (merges (trace w)) /\
    clcustom (self w1) = true /\ clcustom (self w2) = true.
Proof.
  intros merge solve Hl Hm Hs Hs2. unfold accepts in *. subst merge solve.
  repeat (progress unfold_M). cbn.
  rewrite Hl. cbn. rewrite Hm. cbn. rewrite Hs. cbn.
  eexists _, _. split; [reflexivity|]. cbn. rewrite <- !app_assoc. cbn.
  rewrite Hs2. cbn.
  split; [reflexivity|]. cbn. rewrite !merges_app.
  unfold merges, count_events. cbn. repeat split; lia.
Qed.

(** C4. The latch is false after construction; a Customize call that returns
    leaves it true, and Customize(false) sets it without merging; no call of
    the class opens it again; while it is true Customize issues no call to the
    engine at all; so after construction any sequence of calls (Customize and
    Solve among them) merges the external options at most once. *)
Theorem latch_closes_once (slepc : Slepc) :
  (forall comm prefix wrap w,
     exists w', final (SlepcEigenSolver_ctor slepc comm prefix wrap w) = Some w' /\
                clcustom (self w') = false) /\
  (forall b w w', Customize slepc b w = Returned tt w' -> clcustom (self w') = true) /\
  (forall w, exists w',
     Customize slepc false w = Returned tt w' /\
     clcustom (self w') = true /\ trace w' = trace w) /\
  (forall cs w w',
     clcustom (self w) = true -> calls slepc cs w = Returned tt w' ->
     clcustom (self w') = true) /\
  (forall b w,
     clcustom (self w) = true ->
     exists w', Customize slepc b w = Returned tt w' /\
                trace w' = trace w /\ clcustom (self w') = true) /\
  (forall comm prefix wrap cs w w',
     final ((SlepcEigenSolver_ctor slepc comm prefix wrap;; calls slepc cs) w) = Some w' ->
     (merges (trace w') <= merges (trace w) + 1)%nat).
Proof.
  repeat apply conj.
  - intros comm prefix wrap w.
    destruct (ctor_latch slepc comm prefix wrap w) as (w' & H & Hl & _). eauto.
  - intros b w w'. run_M; intros [= <-]; reflexivity.
  - intros w. run_M. eexists. repeat split.
  - intros cs w w' Hl H. pose proof (calls_latch slepc cs w Hl) as Hc.
    rewrite H in Hc. exact Hc.
  - intros b w Hl. repeat (progress unfold_M).
    destruct b; cbn; rewrite ?Hl; cbn; eexists; repeat split; exact Hl.
  - intros comm prefix wrap cs w w'. unfold bind at 1.
    destruct (ctor_latch slepc comm prefix wrap w) as (w1 & H1 & Hl & Hm).
    destruct (SlepcEigenSolver_ctor slepc comm prefix wrap w) as [[] w1'|msg w1'|];
      cbn in H1; try discriminate; injection H1 as ->.
    + pose proof (calls_budget slepc cs w1) as Hc.
      assert (Hb : budget w1 = (merges (trace w) + 1)%nat)
        by (unfold budget; rewrite Hl, Hm; reflexivity).
      destruct (calls slepc cs w1) as [[] w2|msg w2|]; cbn; intros [= <-].
      * pose proof (merges_le_budget w2). lia.
      * lia.
    + cbn. intros [= <-]. lia.
Qed.

Lemma latch_closes_once_witness :
  exists w',
    constructed ideal_slepc
      [CallCustomize false; CallSolve; CallCustomize true;
       CallSetOperator hypre_A; CallSolve] = Returned tt w' /\
    clcustom (self w') = true /\
    (merges (trace w') <= merges (trace blank_world) + 1)%nat.
Proof.
  eexists. split; [vm_compute; reflexivity|]. split.
  - reflexivity.
  - apply (proj2 (proj2 (proj2 (proj2 (proj2 (latch_closes_once ideal_slepc)))))
             7 "eig_" false
             [CallCustomize false; CallSolve; CallCustomize true;
              CallSetOperator hypre_A; CallSolve] blank_world).
    vm_compute. reflexivity.
Defined.

(** C3, as the code has it.  SetOperator and SetOperators leave the latch as it
    was.  On a solver whose latch is still false, two Solve calls in a row
    merge the external options exactly once; once the latch is true no later
    sequence of calls, an operator change followed by Solve included, merges
    them again. *)
Theorem latch_survives_operator_change (slepc : Slepc) :
  (forall op w w',
     final (SetOperator slepc op w) = Some w' ->
     clcustom (self w') = clcustom (self w)) /\
  (forall op opB w w',
     final (SetOperators slepc op opB w) = Some w' ->
     clcustom (self w') = clcustom (self w)) /\
  (forall w,
     let merge := E_EPSSetFromOptions (eps (self w)) in
     let solve := E_EPSSolve (eps (self w)) in
     clcustom (self w) = false ->
     accepts slepc (trace w) merge ->
     accepts slepc (trace w ++ [merge]) solve ->
     accepts slepc (trace w ++ [merge; solve]) solve ->
     exists w1 w2,
       Solve slepc w = Returned tt w1 /\ Solve slepc w1 = Returned tt w2 /\
       merges (trace w2) = S (merges (trace w))) /\
  (forall cs w w',
     clcustom (self w) = true ->
     final (calls slepc cs w) = Some w' ->
     merges (trace w') = merges (trace w)).
Proof.
  repeat apply conj.
  - intros op w w' H. apply (SetOperator_quiet slepc op w w' H).
  - intros op opB w w' H. apply (SetOperators_quiet slepc op opB w w' H).
  - intros w merge solve Hl Hm Hs Hs2.
    destruct (solve_twice slepc w Hl Hm Hs Hs2) as (w1 & w2 & H1 & H2 & _ & Hc & _).
    eauto.
  - intros cs w w' Hl. pose proof (calls_budget slepc cs w) as Hc.
    assert (Hb : budget w = merges (trace w))
      by (unfold budget; rewrite Hl; lia).
    destruct (calls slepc cs w) as [[] w2|msg w2|]; cbn; intros [= <-].
    + pose proof (merges_le_budget w2). lia.
    + lia.
Qed.

Lemma latch_survives_operator_change_witness :
  exists w w',
    solved_once = Returned tt w /\
    calls ideal_slepc [CallSetOperator hypre_B; CallSolve] w = Returned tt w' /\
    merges (trace w') = merges (trace w) /\
    merges (trace w') = 1%nat.
Proof.
  eexists _, _. split; [vm_compute; reflexivity|]. split; [vm_compute; reflexivity|].
  split.
  - apply (proj2 (proj2 (proj2 (latch_survives_operator_change ideal_slepc)))
             [CallSetOperator hypre_B; CallSolve]).
    + reflexivity.
    + vm_compute. reflexivity.
  - reflexivity.
Defined.

(** C3 as stated fails: after a second SetOperator the latch is still set, and
    the Solve that follows does not merge the options again. *)
Lemma latch_not_reset_counterexample :
  exists w3 w4,
    constructed ideal_slepc
      [CallSetOperator hypre_A; CallSolve; CallSetOperator hypre_B] = Returned tt w3 /\
    clcustom (self w3) = true /\
    Solve ideal_slepc w3 = Returned tt w4 /\
    merges (trace w4) = 1%nat.
Proof.
  eexists _, _. split; [vm_compute; reflexivity|]. split; [reflexivity|].
  split; [vm_compute; reflexivity|]. reflexivity.
Qed.

(** ** Eigenvector retrieval *)

Lemma GetEigenvector_spec (slepc : Slepc) (i : N) (vr : Vector) (w : World)
    (n : nat) (old : list double) :
  view_ready (VR (self w)) w ->
  local_size (VR (self w)) w = Some n ->
  memory w !! GetData vr = Some old ->
  (n <= length old)%nat ->
  accepts slepc (trace w) (E_EPSGetOperators (eps (self w))) ->
  (forall v, accepts slepc (trace w) (E_EPSGetEigenvector (eps (self w)) i v None)) ->
  exists w' v,
    GetEigenvector slepc i vr w = Returned tt w' /\
    VR (self w') = Some v /\
    heap w' = <[v := PetscParVectorObj n None]> (heap w) /\
    (VR (self w) = Some v \/
     VR (self w) = None /\ heap w !! v = None /\
     exists A, registered (eps (self w)) (trace w) = Some A /\ Height A = n /\
               In (E_new_PetscParVector v A) (trace w')) /\
    memory w' = <[GetData vr :=
                   (real_part slepc (engine_state (trace w)) i n ++ drop n old)%list]>
                  (memory w) /\
    engine_state (trace w') = engine_state (trace w) /\
    registered (eps (self w)) (trace w') = registered (eps (self w)) (trace w) /\
    eps (self w') = eps (self w) /\ VC (self w') = VC (self w) /\
    operatorset (self w') = operatorset (self w) /\
    clcustom (self w') = clcustom (self w).
Proof.
  intros Hr Hn Hm Hlen Hops Hvec. unfold accepts in *.
  unfold local_size in Hn.
  destruct (VR (self w)) as [v|] eqn:EVR.
  - destruct Hr as [n' Hv]. rewrite Hv in Hn. injection Hn as ->.
    repeat (progress unfold_M). unfold store_view.
    repeat (progress (cbn;
      rewrite ?EVR, ?Hv, ?lookup_insert_eq, ?Hvec, ?(store_spec _ _ _ _ old Hm Hlen);
      repeat (rewrite ?engine_state_query by reflexivity))).
    eexists _, v. split; [reflexivity|]. cbn.
    rewrite insert_insert_eq.
    repeat (rewrite ?engine_state_query, ?registered_query by reflexivity).
    repeat split; auto.
  - destruct (registered (eps (self w)) (trace w)) as [A|] eqn:EA; [|discriminate].
    cbn in Hn. injection Hn as <-.
    repeat (progress unfold_M). unfold store_view.
    repeat (progress (cbn;
      rewrite ?EVR, ?EA, ?Hops, ?lookup_insert_eq, ?Hvec,
        ?(store_spec _ _ _ _ old Hm Hlen);
      repeat (rewrite ?engine_state_query by reflexivity))).
    eexists _, (fresh (dom (heap w))). split; [reflexivity|]. cbn.
    rewrite !insert_insert_eq.
    repeat (rewrite ?engine_state_query, ?registered_query by reflexivity).
    repeat split; auto.
    right. split; [reflexivity|]. split; [apply fresh_heap_None|].
    exists A. split; [reflexivity|]. split; [reflexivity|].
    rewrite !in_app_iff. cbn. tauto.
Qed.

Lemma GetEigenvector_rc_spec (slepc : Slepc) (i : N) (vr vc : Vector) (w : World)
    (nr nc : nat) (oldr oldc : list double) :
  views_ready w ->
  local_size (VR (self w)) w = Some nr ->
  local_size (VC (self w)) w = Some nc ->
  GetData vr <> GetData vc ->
  memory w !! GetData vr = Some oldr -> (nr <= length oldr)%nat ->
  memory w !! GetData vc = Some oldc -> (nc <= length oldc)%nat ->
  accepts slepc (trace w) (E_EPSGetOperators (eps (self w))) ->
  (forall v u, accepts slepc (trace w) (E_EPSGetEigenvector (eps (self w)) i v (Some u))) ->
  exists w' v u,
    GetEigenvector_rc slepc i vr vc w = Returned tt w' /\
    VR (self w') = Some v /\ VC (self w') = Some u /\ v <> u /\
    (VR (self w) = Some v \/ VR (self w) = None /\ heap w !! v = None) /\
    (VC (self w) = Some u \/ VC (self w) = None /\ heap w !! u = None) /\
    heap w' = <[u := PetscParVectorObj nc None]>
                (<[v := PetscParVectorObj nr None]> (heap w)) /\
    memory w' =
      <[GetData vc :=
          (imaginary_part slepc (engine_state (trace w)) i nc ++ drop nc oldc)%list]>
        (<[GetData vr :=
             (real_part slepc (engine_state (trace w)) i nr ++ drop nr oldr)%list]>
           (memory w)) /\
    engine_state (trace w') = engine_state (trace w) /\
    registered (eps (self w)) (trace w') = registered (eps (self w)) (trace w) /\
    eps (self w') = eps (self w) /\
    operatorset (self w') = operatorset (self w) /\
    clcustom (self w') = clcustom (self w).
Proof.
  intros (Hr & Hc & Hne) Hnr Hnc Hrc Hmr Hlr Hmc Hlc Hops Hvec. unfold accepts in *.
  assert (Hmc' : forall x, <[GetData vr := x]> (memory w) !! GetData vc = Some oldc)
    by (intros x; rewrite lookup_insert_ne by exact Hrc; exact Hmc).
  unfold local_size in Hnr, Hnc.
  destruct (VR (self w)) as [v|] eqn:EVR; destruct (VC (self w)) as [u|] eqn:EVC.
  - destruct Hr as [n1 Hv]. destruct Hc as [n2 Hu].
    rewrite Hv in Hnr. rewrite Hu in Hnc. injection Hnr as ->. injection Hnc as ->.
    assert (Hvu : v <> u) by (intros ->; apply (Hne u); reflexivity).
    assert (Huv : u <> v) by congruence.
    repeat (progress unfold_M). unfold store_view.
    repeat (progress (cbn;
      rewrite ?EVR, ?EVC, ?Hv, ?Hu, ?lookup_insert_eq, ?Hvec,
        ?(lookup_insert_ne _ _ _ _ Hvu), ?(lookup_insert_ne _ _ _ _ Huv),
        ?(store_spec _ _ _ _ oldr Hmr Hlr), ?(store_spec _ _ _ _ oldc (Hmc' _) Hlc);
      repeat (rewrite ?engine_state_query by reflexivity))).
    eexists _, v, u. split; [reflexivity|]. cbn.
    repeat (rewrite ?engine_state_query, ?registered_query by reflexivity).
    repeat split; auto. heap_eq.
  - destruct Hr as [n1 Hv]. rewrite Hv in Hnr. injection Hnr as ->.
    destruct (registered (eps (self w)) (trace w)) as [A|] eqn:EA; [|discriminate].
    cbn in Hnc. injection Hnc as <-.
    pose proof (fresh_ne_live _ _ _ Hv) as Huv.
    assert (Hvu : v <> fresh (dom (heap w))) by congruence.
    repeat (progress unfold_M). unfold store_view.
    repeat (progress (cbn;
      rewrite ?EVR, ?EVC, ?EA, ?Hops, ?Hv, ?lookup_insert_eq, ?Hvec,
        ?(lookup_insert_ne _ _ _ _ Hvu), ?(lookup_insert_ne _ _ _ _ Huv),
        ?(store_spec _ _ _ _ oldr Hmr Hlr), ?(store_spec _ _ _ _ oldc (Hmc' _) Hlc);
      repeat (rewrite ?engine_state_query by reflexivity))).
    eexists _, v, (fresh (dom (heap w))). split; [reflexivity|]. cbn.
    repeat (rewrite ?engine_state_query, ?registered_query by reflexivity).
    repeat split; auto.
    + right. split; [reflexivity|apply fresh_heap_None].
    + heap_eq.
  - destruct Hc as [n2 Hu]. rewrite Hu in Hnc. injection Hnc as ->.
    destruct (registered (eps (self w)) (trace w)) as [A|] eqn:EA; [|discriminate].
    cbn in Hnr. injection Hnr as <-.
    pose proof (fresh_ne_live _ _ _ Hu) as Hvu.
    assert (Huv : u <> fresh (dom (heap w))) by congruence.
    repeat (progress unfold_M). unfold store_view.
    repeat (progress (cbn;
      rewrite ?EVR, ?EVC, ?EA, ?Hops, ?Hu, ?lookup_insert_eq, ?Hvec,
        ?(lookup_insert_ne _ _ _ _ Hvu), ?(lookup_insert_ne _ _ _ _ Huv),
        ?(store_spec _ _ _ _ oldr Hmr Hlr), ?(store_spec _ _ _ _ oldc (Hmc' _) Hlc);
      repeat (rewrite ?engine_state_query by reflexivity))).
    eexists _, (fresh (dom (heap w))), u. split; [reflexivity|]. cbn.
    repeat (rewrite ?engine_state_query, ?registered_query by reflexivity).
    repeat split; auto.
    + right. split; [reflexivity|apply fresh_heap_None].
    + heap_eq.
  - destruct (registered (eps (self w)) (trace w)) as [A|] eqn:EA; [|discriminate].
    cbn in Hnr, Hnc. injection Hnr as <-. injection Hnc as <-.
    set (v := fresh (dom (heap w))).
    set (o := PetscParVectorObj (Height A) None).
    pose proof (fresh_insert_ne (heap w) v o) as Huv.
    assert (Hvu : v <> fresh (dom (<[v := o]> (heap w)))) by congruence.
    repeat (progress unfold_M). unfold store_view.
    repeat (progress (cbn; fold v; fold o;
      rewrite ?EVR, ?EVC, ?EA, ?Hops, ?lookup_insert_eq, ?Hvec,
        ?(lookup_insert_ne _ _ _ _ Hvu), ?(lookup_insert_ne _ _ _ _ Huv),
        ?(store_spec _ _ _ _ oldr Hmr Hlr), ?(store_spec _ _ _ _ oldc (Hmc' _) Hlc);
      repeat (rewrite ?engine_state_query by reflexivity))).
    eexists _, v, (fresh (dom (<[v := o]> (heap w)))). split; [reflexivity|]. cbn.
    repeat (rewrite ?engine_state_query, ?registered_query by reflexivity).
    repeat split; auto.
    + right. split; [reflexivity|apply fresh_heap_None].
    + right. split; [reflexivity|].
      pose proof (fresh_heap_None (<[v := o]> (heap w))) as Hf.
      rewrite lookup_insert_ne in Hf by exact Hvu. exact Hf.
    + subst o. heap_eq.
Qed.


(** C8. For an index the engine accepts, two retrievals in a row into two
    different arrays of the local size return, leave the same contents (the
    engine's eigenvector) in both arrays, the second leaving the first array
    as it was; and after each call the view has no array placed.  The same
    holds for the overload with a real and an imaginary array. *)
Theorem retrieval_agrees_and_detaches (slepc : Slepc) (i : N) (w : World) (n : nat) :
  (forall b1 b2 l1 l2,
     view_ready (VR (self w)) w ->
     local_size (VR (self w)) w = Some n ->
     GetData b1 <> GetData b2 ->
     memory w !! GetData b1 = Some l1 -> length l1 = n ->
     memory w !! GetData b2 = Some l2 -> length l2 = n ->
     accepts slepc (trace w) (E_EPSGetOperators (eps (self w))) ->
     (forall v, accepts slepc (trace w) (E_EPSGetEigenvector (eps (self w)) i v None)) ->
     exists w1 w2 v,
       GetEigenvector slepc i b1 w = Returned tt w1 /\
       GetEigenvector slepc i b2 w1 = Returned tt w2 /\
       memory w1 !! GetData b1 = Some (real_part slepc (engine_state (trace w)) i n) /\
       memory w2 !! GetData b1 = Some (real_part slepc (engine_state (trace w)) i n) /\
       memory w2 !! GetData b2 = Some (real_part slepc (engine_state (trace w)) i n) /\
       VR (self w1) = Some v /\ heap w1 !! v = Some (PetscParVectorObj n None) /\
       VR (self w2) = Some v /\ heap w2 !! v = Some (PetscParVectorObj n None)) /\
  (forall r1 c1 r2 c2 lr1 lc1 lr2 lc2,
     views_ready w ->
     local_size (VR (self w)) w = Some n ->
     local_size (VC (self w)) w = Some n ->
     NoDup [GetData r1; GetData c1; GetData r2; GetData c2] ->
     memory w !! GetData r1 = Some lr1 -> length lr1 = n ->
     memory w !! GetData c1 = Some lc1 -> length lc1 = n ->
     memory w !! GetData r2 = Some lr2 -> length lr2 = n ->
     memory w !! GetData c2 = Some lc2 -> length lc2 = n ->
     accepts slepc (trace w) (E_EPSGetOperators (eps (self w))) ->
     (forall v u, accepts slepc (trace w) (E_EPSGetEigenvector (eps (self w)) i v (Some u))) ->
     exists w1 w2 v u,
       GetEigenvector_rc slepc i r1 c1 w = Returned tt w1 /\
       GetEigenvector_rc slepc i r2 c2 w1 = Returned tt w2 /\
       memory w1 !! GetData r1 = Some (real_part slepc (engine_state (trace w)) i n) /\
       memory w1 !! GetData c1 =
         Some (imaginary_part slepc (engine_state (trace w)) i n) /\
       memory w2 !! GetData r1 = Some (real_part slepc (engine_state (trace w)) i n) /\
       memory w2 !! GetData c1 =
         Some (imaginary_part slepc (engine_state (trace w)) i n) /\
       memory w2 !! GetData r2 = Some (real_part slepc (engine_state (trace w)) i n) /\
       memory w2 !! GetData c2 =
         Some (imaginary_part slepc (engine_state (trace w)) i n) /\
       VR (self w1) = Some v /\ VC (self w1) = Some u /\
       heap w1 !! v = Some (PetscParVectorObj n None) /\
       heap w1 !! u = Some (PetscParVectorObj n None) /\
       VR (self w2) = Some v /\ VC (self w2) = Some u /\
       heap w2 !! v = Some (PetscParVectorObj n None) /\
       heap w2 !! u = Some (PetscParVectorObj n None)).
Proof.
  split.
  - intros b1 b2 l1 l2 Hr Hn Hb Hm1 Hl1 Hm2 Hl2 Hops Hvec.
    destruct (GetEigenvector_spec slepc i b1 w n l1 Hr Hn Hm1 ltac:(lia) Hops Hvec)
      as (w1 & v & Hrun1 & HVR1 & Hheap1 & _ & Hmem1 & Hst1 & _ & Heps1 & _).
    rewrite (drop_whole l1 n Hl1), app_nil_r in Hmem1.
    assert (Hv1 : heap w1 !! v = Some (PetscParVectorObj n None))
      by (rewrite Hheap1; apply lookup_insert_eq).
    assert (Hm2' : memory w1 !! GetData b2 = Some l2)
      by (rewrite Hmem1, lookup_insert_ne by exact Hb; exact Hm2).
    destruct (GetEigenvector_spec slepc i b2 w1 n l2) as
      (w2 & v' & Hrun2 & HVR2 & Hheap2 & Hsame & Hmem2 & _).
    { rewrite HVR1. exists n. exact Hv1. }
    { unfold local_size. rewrite HVR1, Hv1. reflexivity. }
    { exact Hm2'. }
    { lia. }
    { unfold accepts. rewrite Hst1, Heps1. exact Hops. }
    { unfold accepts. rewrite Hst1, Heps1. exact Hvec. }
    rewrite (drop_whole l2 n Hl2), app_nil_r, Hst1 in Hmem2.
    assert (v' = v) as -> by (destruct Hsame as [H|[H _]]; congruence).
    exists w1, w2, v. repeat split; try assumption.
    + rewrite Hmem1. apply lookup_insert_eq.
    + rewrite Hmem2, lookup_insert_ne by congruence. rewrite Hmem1.
      apply lookup_insert_eq.
    + rewrite Hmem2. apply lookup_insert_eq.
    + rewrite Hheap2. apply lookup_insert_eq.
  - intros r1 c1 r2 c2 lr1 lc1 lr2 lc2 Hv Hnr Hnc Hnd Hmr1 Hlr1 Hmc1 Hlc1
      Hmr2 Hlr2 Hmc2 Hlc2 Hops Hvec.
    assert (Hd : GetData r1 <> GetData c1 /\ GetData r1 <> GetData r2 /\
                 GetData r1 <> GetData c2 /\ GetData c1 <> GetData r2 /\
                 GetData c1 <> GetData c2 /\ GetData r2 <> GetData c2).
    { rewrite !NoDup_cons in Hnd. rewrite !list_elem_of_In in Hnd. cbn in Hnd.
      intuition congruence. }
    destruct Hd as (D1 & D2 & D3 & D4 & D5 & D6).
    destruct (GetEigenvector_rc_spec slepc i r1 c1 w n n lr1 lc1 Hv Hnr Hnc D1
                Hmr1 ltac:(lia) Hmc1 ltac:(lia) Hops Hvec)
      as (w1 & v & u & Hrun1 & HVR1 & HVC1 & Hvu & _ & _ & Hheap1 & Hmem1 & Hst1 &
          _ & Heps1 & _).
    rewrite (drop_whole lr1 n Hlr1), (drop_whole lc1 n Hlc1), !app_nil_r in Hmem1.
    assert (Hv1 : heap w1 !! v = Some (PetscParVectorObj n None))
      by (rewrite Hheap1, lookup_insert_ne by congruence; apply lookup_insert_eq).
    assert (Hu1 : heap w1 !! u = Some (PetscParVectorObj n None))
      by (rewrite Hheap1; apply lookup_insert_eq).
    destruct (GetEigenvector_rc_spec slepc i r2 c2 w1 n n lr2 lc2) as
      (w2 & v' & u' & Hrun2 & HVR2 & HVC2 & _ & Hsv & Hsu & Hheap2 & Hmem2 & _).
    { unfold views_ready. rewrite HVR1, HVC1. split; [|split].
      - exists n. exact Hv1.
      - exists n. exact Hu1.
      - intros x [= <-] [=]. congruence. }
    { unfold local_size. rewrite HVR1, Hv1. reflexivity. }
    { unfold local_size. rewrite HVC1, Hu1. reflexivity. }
    { exact D6. }
    { rewrite Hmem1, !lookup_insert_ne by congruence. exact Hmr2. }
    { lia. }
    { rewrite Hmem1, !lookup_insert_ne by congruence. exact Hmc2. }
    { lia. }
    { unfold accepts. rewrite Hst1, Heps1. exact Hops. }
    { unfold accepts. rewrite Hst1, Heps1. exact Hvec. }
    rewrite (drop_whole lr2 n Hlr2), (drop_whole lc2 n Hlc2), !app_nil_r, Hst1 in Hmem2.
    assert (v' = v) as -> by (destruct Hsv as [H|[H _]]; congruence).
    assert (u' = u) as -> by (destruct Hsu as [H|[H _]]; congruence).
    exists w1, w2, v, u. repeat split; try assumption.
    + rewrite Hmem1, lookup_insert_ne by congruence. apply lookup_insert_eq.
    + rewrite Hmem1. apply lookup_insert_eq.
    + rewrite Hmem2, Hmem1, !lookup_insert_ne by congruence. apply lookup_insert_eq.
    + rewrite Hmem2, Hmem1, !lookup_insert_ne by congruence. apply lookup_insert_eq.
    + rewrite Hmem2, lookup_insert_ne by congruence. apply lookup_insert_eq.
    + rewrite Hmem2. apply lookup_insert_eq.
    + rewrite Hheap2, lookup_insert_ne by congruence. apply lookup_insert_eq.
    + rewrite Hheap2. apply lookup_insert_eq.
Qed.

Lemma retrieval_agrees_and_detaches_witness :
  exists w1 w2 v,
    GetEigenvector ideal_slepc 0 (buffer 100%positive) solved_world = Returned tt w1 /\
    GetEigenvector ideal_slepc 0 (buffer 101%positive) w1 = Returned tt w2 /\
    memory w2 !! 100%positive = memory w2 !! 101%positive /\
    VR (self w1) = Some v /\ heap w1 !! v = Some (PetscParVectorObj 2 None) /\
    VR (self w2) = Some v /\ heap w2 !! v = Some (PetscParVectorObj 2 None).
Proof.
  assert (HVR : VR (self solved_world) = None) by (vm_compute; reflexivity).
  destruct (proj1 (retrieval_agrees_and_detaches ideal_slepc 0 solved_world 2)
              (buffer 100%positive) (buffer 101%positive)
              [double_of_int 0; double_of_int 0] [double_of_int 9; double_of_int 9])
    as (w1 & w2 & v & H1 & H2 & _ & Hb1 & Hb2 & Hv1 & Hh1 & Hv2 & Hh2).
  - rewrite HVR. exact I.
  - unfold local_size. rewrite HVR. vm_compute. reflexivity.
  - intros [=].
  - vm_compute. reflexivity.
  - reflexivity.
  - vm_compute. reflexivity.
  - reflexivity.
  - apply ideal_accepts.
  - intros v. apply ideal_accepts.
  - exists w1, w2, v. split; [exact H1|]. split; [exact H2|]. split.
    + change (memory w2 !! GetData (buffer 100%positive) =
              memory w2 !! GetData (buffer 101%positive)).
      rewrite Hb1, Hb2. reflexivity.
    + repeat split; assumption.
Defined.

(** ** Registration over an existing one *)

(** The views are gone on return, and their deletion precedes the call that
    registers. *)
Lemma SetOperator_discards (slepc : Slepc) (op : Operator) (w : World) :
  operatorset (self w) = true ->
  views_ready w ->
  accepts slepc (trace w ++ construction_of op w) (registration op w) ->
  exists w',
    SetOperator slepc op w = Returned tt w' /\
    VR (self w') = None /\ VC (self w') = None /\
    trace w' = (trace w ++ (construction_of op w ++ view_deletions w) ++
                [registration op w])%list /\
    (forall v, VR (self w) = Some v \/ VC (self w) = Some v ->
       heap w' !! v = None /\ In (E_delete_PetscParVector v) (view_deletions w)) /\
    eps (self w') = eps (self w) /\ memory w' = memory w.
Proof.
  intros Hs Hv Ha. rewrite (SetOperator_spec slepc op w Hv Ha).
  eexists. split; [reflexivity|]. cbn.
  rewrite trace_before_registration. unfold before_registration.
  destruct (discarded_fields (adapted op w)) as (He & Hm & _ & Hn).
  rewrite self_adapted in Hn, He. destruct (Hn Hs) as [HVR HVC].
  rewrite He, Hm, memory_adapted, HVR, HVC.
  split; [reflexivity|]. split; [reflexivity|]. split; [|split; [|split; reflexivity]].
  - rewrite <- !app_assoc. reflexivity.
  - intros v Hin. split; [|apply (discarded_views_gone w v Hs Hin)].
    apply (discarded_views_gone (adapted op w)); rewrite self_adapted; assumption.
Qed.

Lemma SetOperators_discards (slepc : Slepc) (op opB : Operator) (w : World) :
  operatorset (self w) = true ->
  views_ready w ->
  accepts slepc (trace w ++ construction2 op opB w) (registration2 op opB w) ->
  exists w',
    SetOperators slepc op opB w = Returned tt w' /\
    VR (self w') = None /\ VC (self w') = None /\
    trace w' = (trace w ++ (construction2 op opB w ++ view_deletions w) ++
                [registration2 op opB w])%list /\
    (forall v, VR (self w) = Some v \/ VC (self w) = Some v ->
       heap w' !! v = None /\ In (E_delete_PetscParVector v) (view_deletions w)).
Proof.
  intros Hs Hv Ha. rewrite (SetOperators_spec slepc op opB w Hv Ha).
  eexists. split; [reflexivity|]. cbn.
  change (trace (discarded (adapted opB (adapted op w))))
    with (trace (before_registration2 op opB w)).
  rewrite trace_before_registration2.
  assert (Hself : self (adapted opB (adapted op w)) = self w)
    by (rewrite !self_adapted; reflexivity).
  destruct (discarded_fields (adapted opB (adapted op w))) as (_ & _ & _ & Hn).
  rewrite Hself in Hn. destruct (Hn Hs) as [HVR HVC].
  rewrite HVR, HVC.
  split; [reflexivity|]. split; [reflexivity|]. split.
  - rewrite <- !app_assoc. reflexivity.
  - intros v Hin. split; [|apply (discarded_views_gone w v Hs Hin)].
    apply (discarded_views_gone (adapted opB (adapted op w))); rewrite Hself;
      assumption.
Qed.

(** C5. When an operator is already registered, SetOperator and SetOperators
    delete both cached views and null both pointers before the call that
    registers the new operators; so the next GetEigenvector creates its view
    anew, from the operator just registered and with its row count. *)
Theorem views_discarded_on_reregistration (slepc : Slepc) (w : World) :
  operatorset (self w) = true ->
  views_ready w ->
  (forall op,
     accepts slepc (trace w ++ construction_of op w) (registration op w) ->
     exists w' d,
       SetOperator slepc op w = Returned tt w' /\
       VR (self w') = None /\ VC (self w') = None /\
       trace w' = (trace w ++ d ++ [registration op w])%list /\
       (forall v, VR (self w) = Some v \/ VC (self w) = Some v ->
          heap w' !! v = None /\ In (E_delete_PetscParVector v) d)) /\
  (forall op opB,
     accepts slepc (trace w ++ construction2 op opB w) (registration2 op opB w) ->
     exists w' d,
       SetOperators slepc op opB w = Returned tt w' /\
       VR (self w') = None /\ VC (self w') = None /\
       trace w' = (trace w ++ d ++ [registration2 op opB w])%list /\
       (forall v, VR (self w) = Some v \/ VC (self w) = Some v ->
          heap w' !! v = None /\ In (E_delete_PetscParVector v) d)) /\
  (forall op i vr old,
     let registered_state :=
       (trace w ++ construction_of op w ++ [registration op w])%list in
     accepts slepc (trace w ++ construction_of op w) (registration op w) ->
     memory w !! GetData vr = Some old ->
     (Height op <= length old)%nat ->
     accepts slepc registered_state (E_EPSGetOperators (eps (self w))) ->
     (forall v, accepts slepc registered_state
                  (E_EPSGetEigenvector (eps (self w)) i v None)) ->
     exists w1 w2 v,
       SetOperator slepc op w = Returned tt w1 /\
       GetEigenvector slepc i vr w1 = Returned tt w2 /\
       VR (self w2) = Some v /\
       heap w1 !! v = None /\
       heap w2 !! v = Some (PetscParVectorObj (Height op) None) /\
       In (E_new_PetscParVector v (canonical_of op w)) (trace w2)).
Proof.
  intros Hs Hv. split; [|split].
  - intros op Ha.
    destruct (SetOperator_discards slepc op w Hs Hv Ha)
      as (w' & Hrun & HVR & HVC & Ht & Hgone & _).
    exists w', (construction_of op w ++ view_deletions w)%list.
    repeat split; try assumption; try (apply Hgone; assumption).
    apply in_or_app. right. apply Hgone. assumption.
  - intros op opB Ha.
    destruct (SetOperators_discards slepc op opB w Hs Hv Ha)
      as (w' & Hrun & HVR & HVC & Ht & Hgone).
    exists w', (construction2 op opB w ++ view_deletions w)%list.
    repeat split; try assumption; try (apply Hgone; assumption).
    apply in_or_app. right. apply Hgone. assumption.
  - intros op i vr old st Ha Hm Hlen Hops Hvec. subst st.
    destruct (SetOperator_discards slepc op w Hs Hv Ha)
      as (w1 & Hrun & HVR & HVC & Ht & _ & Heps & Hmem).
    assert (Hreg : registered (eps (self w1)) (trace w1) = Some (canonical_of op w)).
    { rewrite Ht, Heps, !app_assoc. apply registered_snoc. }
    assert (Hst : engine_state (trace w1) =
                  engine_state (trace w ++ construction_of op w ++ [registration op w])).
    { rewrite Ht, !engine_state_app, engine_state_view_deletions, app_nil_r.
      reflexivity. }
    destruct (GetEigenvector_spec slepc i vr w1 (Height op) old)
      as (w2 & v & Hrun2 & HVR2 & Hheap2 & Hnew & _).
    { rewrite HVR. exact I. }
    { unfold local_size. rewrite HVR, Hreg. cbn. rewrite Height_canonical_of.
      reflexivity. }
    { rewrite Hmem. exact Hm. }
    { exact Hlen. }
    { unfold accepts. rewrite Hst, Heps. exact Hops. }
    { unfold accepts. rewrite Hst, Heps. exact Hvec. }
    destruct Hnew as [Hold|(_ & Hfresh & A & HA & _ & Hin)]; [congruence|].
    rewrite Hreg in HA. injection HA as <-.
    exists w1, w2, v. repeat split; try assumption.
    rewrite Hheap2. apply lookup_insert_eq.
Qed.

Lemma views_discarded_on_reregistration_witness :
  exists w' d,
    SetOperator ideal_slepc hypre_B retrieved_world = Returned tt w' /\
    VR (self w') = None /\ VC (self w') = None /\
    trace w' = (trace retrieved_world ++ d ++
                [registration hypre_B retrieved_world])%list /\
    heap w' !! 3%positive = None /\ heap w' !! 4%positive = None /\
    In (E_delete_PetscParVector 3%positive) d /\
    In (E_delete_PetscParVector 4%positive) d.
Proof.
  assert (HVR : VR (self retrieved_world) = Some 3%positive)
    by (vm_compute; reflexivity).
  assert (HVC : VC (self retrieved_world) = Some 4%positive)
    by (vm_compute; reflexivity).
  destruct (proj1 (views_discarded_on_reregistration ideal_slepc retrieved_world
                     ltac:(vm_compute; reflexivity) views_ready_retrieved)
              hypre_B (ideal_accepts _ _))
    as (w' & d & Hrun & H1 & H2 & Ht & Hgone).
  exists w', d.
  destruct (Hgone 3%positive (or_introl HVR)) as [G3 I3].
  destruct (Hgone 4%positive (or_intror HVC)) as [G4 I4].
  repeat split; assumption.
Defined.

(** ** The cached views in every reachable state *)

Lemma views_ready_frame (w w' : World) :
  VR (self w') = VR (self w) -> VC (self w') = VC (self w) -> heap w' = heap w ->
  views_ready w -> views_ready w'.
Proof. unfold views_ready, view_ready. intros -> -> ->. auto. Qed.


(** A new view in the place of a null pointer, or the old view with its
    array reset, keeps the views usable. *)
Lemma views_ready_VR (w w' : World) (v : handle) (n : nat) :
  views_ready w ->
  VR (self w') = Some v -> VC (self w') = VC (self w) ->
  heap w' = <[v := PetscParVectorObj n None]> (heap w) ->
  VR (self w) = Some v \/ VR (self w) = None /\ heap w !! v = None ->
  views_ready w'.
Proof.
  intros (Hr & Hc & Hne) HVR HVC Hheap Hold.
  unfold views_ready, view_ready. rewrite HVR, HVC, Hheap.
  assert (Hvc : VC (self w) <> Some v).
  { destruct Hold as [H|[H Hf]]; [apply Hne, H|].
    intros E. rewrite E in Hc. destruct Hc as [m Hm]. congruence. }
  split; [exists n; apply lookup_insert_eq|]. split; [|intros x [= <-]; exact Hvc].
  destruct (VC (self w)) as [u|]; [|exact I]. destruct Hc as [m Hm].
  exists m. rewrite lookup_insert_ne by congruence. exact Hm.
Qed.

Lemma views_ready_VC (w w' : World) (u : handle) (n : nat) :
  views_ready w ->
  VC (self w') = Some u -> VR (self w') = VR (self w) ->
  heap w' = <[u := PetscParVectorObj n None]> (heap w) ->
  VC (self w) = Some u \/ VC (self w) = None /\ heap w !! u = None ->
  views_ready w'.
Proof.
  intros (Hr & Hc & Hne) HVC HVR Hheap Hold.
  unfold views_ready, view_ready. rewrite HVR, HVC, Hheap.
  assert (Hvr : VR (self w) <> Some u).
  { destruct Hold as [H|[H Hf]]; [intros E; apply (Hne u E H)|].
    intros E. rewrite E in Hr. destruct Hr as [m Hm]. congruence. }
  split; [|split; [exists n; apply lookup_insert_eq|intros x E [= <-]; exact (Hvr E)]].
  destruct (VR (self w)) as [v|]; [|exact I]. destruct Hr as [m Hm].
  exists m. rewrite lookup_insert_ne by congruence. exact Hm.
Qed.

Lemma GetEigenvector_returned (slepc : Slepc) (i : N) (vr : Vector) (w w' : World) :
  views_ready w ->
  GetEigenvector slepc i vr w = Returned tt w' ->
  exists v n,
    VR (self w') = Some v /\ VC (self w') = VC (self w) /\
    heap w' = <[v := PetscParVectorObj n None]> (heap w) /\
    (VR (self w) = Some v \/ VR (self w) = None /\ heap w !! v = None).
Proof.
  intros (Hr & _ & _). unfold view_ready in Hr.
  destruct (VR (self w)) as [v|] eqn:EVR.
  - destruct Hr as [n Hv].
    repeat (progress unfold_M). unfold store_view. simp_M.
    case_answer. case_store. intros [= <-]. cbn.
    exists v, n. rewrite insert_insert_eq. auto.
  - repeat (progress unfold_M). unfold store_view. simp_M.
    case_answer.
    destruct (registered _ _) as [A|]; simp_M; [|intros [=]].
    case_answer. case_store. intros [= <-]. cbn.
    exists (fresh (dom (heap w))), (Height A). rewrite !insert_insert_eq.
    repeat split; auto. right. split; [reflexivity|apply fresh_heap_None].
Qed.

Lemma GetEigenvector_ready (slepc : Slepc) (i : N) (vr : Vector) (w w' : World) :
  views_ready w ->
  GetEigenvector slepc i vr w = Returned tt w' ->
  views_ready w'.
Proof.
  intros Hv Hrun.
  destruct (GetEigenvector_returned slepc i vr w w' Hv Hrun)
    as (v & n & HVR & HVC & Hheap & Hold).
  exact (views_ready_VR w w' v n Hv HVR HVC Hheap Hold).
Qed.

Lemma GetEigenvector_rc_returned (slepc : Slepc) (i : N) (vr vc : Vector)
    (w w' : World) :
  views_ready w ->
  GetEigenvector_rc slepc i vr vc w = Returned tt w' ->
  exists v u nr nc,
    VR (self w') = Some v /\ VC (self w') = Some u /\ v <> u /\
    heap w' = <[u := PetscParVectorObj nc None]>
                (<[v := PetscParVectorObj nr None]> (heap w)).
Proof.
  intros (Hr & Hc & Hne). unfold view_ready in Hr, Hc.
  destruct (VR (self w)) as [v|] eqn:EVR; destruct (VC (self w)) as [u|] eqn:EVC.
  - destruct Hr as [n1 Hv]. destruct Hc as [n2 Hu].
    assert (Hvu : v <> u) by (intros ->; apply (Hne u); reflexivity).
    assert (Huv : u <> v) by congruence.
    repeat (progress unfold_M). unfold store_view. simp_M.
    case_answer. case_store. case_store. intros [= <-]. cbn.
    exists v, u, n1, n2. repeat split; auto. heap_eq.
  - destruct Hr as [n1 Hv].
    pose proof (fresh_ne_live _ _ _ Hv) as Huv.
    assert (Hvu : v <> fresh (dom (heap w))) by congruence.
    repeat (progress unfold_M). unfold store_view. simp_M.
    case_answer.
    destruct (registered _ _) as [A|]; simp_M; [|intros [=]].
    case_answer. case_store. case_store. intros [= <-]. cbn.
    exists v, (fresh (dom (heap w))), n1, (Height A). repeat split; auto. heap_eq.
  - destruct Hc as [n2 Hu].
    pose proof (fresh_ne_live _ _ _ Hu) as Hvu.
    assert (Huv : u <> fresh (dom (heap w))) by congruence.
    repeat (progress unfold_M). unfold store_view. simp_M.
    case_answer.
    destruct (registered _ _) as [A|]; simp_M; [|intros [=]].
    case_answer. case_store. case_store. intros [= <-]. cbn.
    exists (fresh (dom (heap w))), u, (Height A), n2. repeat split; auto. heap_eq.
  - repeat (progress unfold_M). unfold store_view. simp_M.
    case_answer.
    destruct (registered _ _) as [A|]; simp_M; [|intros [=]].
    set (v := fresh (dom (heap w))).
    set (o := PetscParVectorObj (Height A) None).
    pose proof (fresh_insert_ne (heap w) v o) as Huv.
    assert (Hvu : v <> fresh (dom (<[v := o]> (heap w)))) by congruence.
    simp_M.
    case_answer. case_store. case_store. intros [= <-]. cbn.
    exists v, (fresh (dom (<[v := o]> (heap w)))), (Height A), (Height A).
    repeat split; auto. subst o. heap_eq.
Qed.

Lemma GetEigenvector_rc_ready (slepc : Slepc) (i : N) (vr vc : Vector) (w w' : World) :
  views_ready w ->
  GetEigenvector_rc slepc i vr vc w = Returned tt w' ->
  views_ready w'.
Proof.
  intros Hv Hrun.
  destruct (GetEigenvector_rc_returned slepc i vr vc w w' Hv Hrun)
    as (v & u & nr & nc & HVR & HVC & Hvu & Hheap).
  unfold views_ready, view_ready. rewrite HVR, HVC, Hheap.
  split; [|split].
  - exists nr. rewrite lookup_insert_ne by congruence. apply lookup_insert_eq.
  - exists nc. apply lookup_insert_eq.
  - intros x [= <-] [=]. congruence.
Qed.


Lemma SetOperator_ready (slepc : Slepc) (op : Operator) (w w' : World) :
  views_ready w -> SetOperator slepc op w = Returned tt w' -> views_ready w'.
Proof.
  intros Hv. rewrite (SetOperator_run slepc op w Hv). cbn.
  destruct (answer slepc _ _ =? 0); intros [= <-].
  apply (views_ready_frame (discarded (adapted op w))); try reflexivity.
  apply views_ready_discarded, views_ready_adapted, Hv.
Qed.

Lemma SetOperators_ready (slepc : Slepc) (op opB : Operator) (w w' : World) :
  views_ready w -> SetOperators slepc op opB w = Returned tt w' -> views_ready w'.
Proof.
  intros Hv. rewrite (SetOperators_run slepc op opB w Hv). cbn.
  destruct (answer slepc _ _ =? 0); intros [= <-].
  apply (views_ready_frame (discarded (adapted opB (adapted op w)))); try reflexivity.
  apply views_ready_discarded. do 2 apply views_ready_adapted. exact Hv.
Qed.

Lemma call_views_frame (slepc : Slepc) (c : Call) (w w' : World) :
  touches_views c = false ->
  call slepc c w = Returned tt w' ->
  VR (self w') = VR (self w) /\ VC (self w') = VC (self w) /\ heap w' = heap w.
Proof.
  destruct c; try discriminate; intros _; unfold call; run_M;
    intros [= <-]; repeat split.
Qed.

Lemma call_ready (slepc : Slepc) (c : Call) (w w' : World) :
  views_ready w -> call slepc c w = Returned tt w' -> views_ready w'.
Proof.
  intros Hv Hrun. destruct (touches_views c) eqn:Ht.
  - destruct c; try discriminate; cbn in Hrun.
    + exact (SetOperator_ready slepc op w w' Hv Hrun).
    + exact (SetOperators_ready slepc op opB w w' Hv Hrun).
    + exact (GetEigenvector_ready slepc i vr w w' Hv Hrun).
    + exact (GetEigenvector_rc_ready slepc i vr vc w w' Hv Hrun).
  - destruct (call_views_frame slepc c w w' Ht Hrun) as (HVR & HVC & Hheap).
    exact (views_ready_frame w w' HVR HVC Hheap Hv).
Qed.

Lemma calls_ready (slepc : Slepc) (cs : list Call) (w w' : World) :
  views_ready w -> calls slepc cs w = Returned tt w' -> views_ready w'.
Proof.
  revert w. induction cs as [|c cs IH]; intros w Hv; cbn.
  - intros [= <-]. exact Hv.
  - unfold bind. destruct (call slepc c w) as [[] w1|msg w1|] eqn:Hc;
      [|discriminate|discriminate].
    apply IH. exact (call_ready slepc c w w1 Hv Hc).
Qed.

Lemma ctor_ready (slepc : Slepc) (comm : MPI_Comm) (prefix : string) (wrap : bool)
    (w w' : World) :
  SlepcEigenSolver_ctor slepc comm prefix wrap w = Returned tt w' -> views_ready w'.
Proof.
  run_M; intros [= <-]; (split; [exact I|split; [exact I|intros v [=]]]).
Qed.

(** X1. In every state reached from the constructor by calls that returned,
    each view pointer is null or points to a live view with no array of a
    caller placed in it, and the two pointers are not the same view. *)
Theorem reachable_views_ready (slepc : Slepc) (comm : MPI_Comm) (prefix : string)
    (wrap : bool) (cs : list Call) (w0 w : World) :
  (SlepcEigenSolver_ctor slepc comm prefix wrap;; calls slepc cs) w0 = Returned tt w ->
  views_ready w.
Proof.
  unfold bind at 1.
  destruct (SlepcEigenSolver_ctor slepc comm prefix wrap w0) as [[] w1|msg w1|] eqn:Hc;
    [|discriminate|discriminate].
  apply calls_ready. exact (ctor_ready slepc comm prefix wrap w0 w1 Hc).
Qed.

Lemma reachable_views_ready_witness :
  exists w,
    constructed strict_slepc
      [CallSetOperator hypre_A; CallSolve; CallGetEigenvector 0 (buffer 100%positive);
       CallGetEigenvector_rc 1 (buffer 101%positive) (buffer 102%positive);
       CallSetOperators petsc_A petsc_B; CallSolve;
       CallGetEigenvector 0 (buffer 103%positive)] = Returned tt w /\
    views_ready w.
Proof.
  eexists. split; [vm_compute; reflexivity|].
  match goal with
  | |- views_ready ?w1 =>
      apply (reachable_views_ready strict_slepc 7 "eig_" false
               [CallSetOperator hypre_A; CallSolve;
                CallGetEigenvector 0 (buffer 100%positive);
                CallGetEigenvector_rc 1 (buffer 101%positive) (buffer 102%positive);
                CallSetOperators petsc_A petsc_B; CallSolve;
                CallGetEigenvector 0 (buffer 103%positive)] blank_world w1)
  end.
  vm_compute. reflexivity.
Defined.

(** ** Destruction *)

(** C2, as the code has it.  When the engine accepts the two calls, the
    destructor returns with the engine context destroyed and [eps] null; it
    deletes no view: the pointers [VR] and [VC] are as they were and a view
    that was live before the destructor is live after it. *)
Theorem destructor_releases_context_only (slepc : Slepc) (w : World) :
  accepts slepc (trace w) (E_PetscObjectGetComm (eps (self w))) ->
  accepts slepc (trace w) (E_EPSDestroy (eps (self w))) ->
  exists w',
    SlepcEigenSolver_dtor slepc w = Returned tt w' /\
    eps (self w') = None /\
    heap w' = release (eps (self w)) (heap w) /\
    trace w' = (trace w ++ [E_PetscObjectGetComm (eps (self w));
                            E_EPSDestroy (eps (self w))])%list /\
    VR (self w') = VR (self w) /\ VC (self w') = VC (self w) /\
    (forall v n a,
       VR (self w) = Some v \/ VC (self w) = Some v ->
       heap w !! v = Some (PetscParVectorObj n a) ->
       eps (self w) <> Some v ->
       heap w' !! v = Some (PetscParVectorObj n a)).
Proof.
  intros Hc Hd. unfold accepts in *. repeat (progress unfold_M).
  repeat (progress (cbn; rewrite ?Hc, ?Hd;
                    repeat (rewrite ?engine_state_query by reflexivity))).
  eexists. split; [reflexivity|]. cbn. rewrite <- app_assoc.
  repeat split.
  intros v n a _ Hv Hne. unfold release.
  destruct (eps (self w)) as [h|]; [|exact Hv].
  rewrite lookup_delete_ne by congruence. exact Hv.
Qed.

Lemma destructor_releases_context_only_witness :
  exists w',
    SlepcEigenSolver_dtor ideal_slepc retrieved_world = Returned tt w' /\
    VR (self retrieved_world) = Some 3%positive /\
    heap w' !! 3%positive = Some (PetscParVectorObj 2 None) /\
    VC (self retrieved_world) = Some 4%positive /\
    heap w' !! 4%positive = Some (PetscParVectorObj 2 None) /\
    heap w' !! 1%positive = None /\
    count_events is_delete_PetscParVector (trace w') = 0%nat.
Proof.
  destruct (destructor_releases_context_only ideal_slepc retrieved_world)
    as (w' & Hrun & _ & Hheap & Htrace & _ & _ & Hkeep);
    [apply ideal_accepts | apply ideal_accepts |].
  assert (HVR : VR (self retrieved_world) = Some 3%positive)
    by (vm_compute; reflexivity).
  assert (HVC : VC (self retrieved_world) = Some 4%positive)
    by (vm_compute; reflexivity).
  assert (Heps : eps (self retrieved_world) = Some 1%positive)
    by (vm_compute; reflexivity).
  exists w'. split; [exact Hrun|]. split; [exact HVR|]. split; [|split; [exact HVC|split]].
  - apply Hkeep; [left; exact HVR | vm_compute; reflexivity | rewrite Heps; discriminate].
  - apply Hkeep; [right; exact HVC | vm_compute; reflexivity | rewrite Heps; discriminate].
  - split.
    + rewrite Hheap, Heps. apply lookup_delete_eq.
    + rewrite Htrace, Heps. vm_compute. reflexivity.
Defined.

(** ** Enumerated settings *)

(** C9. An argument outside the enumeration makes SetWhichEigenpairs and
    SetSpectralTransformation abort; an enumerator makes them call the engine
    with the mapped value and return when the engine accepts it. *)
Theorem enumerations_are_closed (slepc : Slepc) (w : World) :
  (forall which,
     ~ In which (map fst which_values) ->
     SetWhichEigenpairs slepc which w =
       Aborted "Which eigenpair not implemented!" w) /\
  (forall which k,
     In (which, k) which_values ->
     accepts slepc (trace w) (E_EPSSetWhichEigenpairs (eps (self w)) k) ->
     exists w',
       SetWhichEigenpairs slepc which w = Returned tt w' /\
       trace w' = (trace w ++ [E_EPSSetWhichEigenpairs (eps (self w)) k])%list) /\
  (forall t,
     ~ In t (map fst transformation_values) ->
     exists msg w',
       SetSpectralTransformation slepc t w = Aborted msg w' /\
       (accepts slepc (trace w) (E_EPSGetST (eps (self w))) ->
        msg = "Spectral transformation not implemented!")) /\
  (forall t k,
     In (t, k) transformation_values ->
     accepts slepc (trace w) (E_EPSGetST (eps (self w))) ->
     accepts slepc (trace w) (E_STSetType (eps (self w)) k) ->
     exists w',
       SetSpectralTransformation slepc t w = Returned tt w' /\
       trace w' = (trace w ++ [E_EPSGetST (eps (self w));
                               E_STSetType (eps (self w)) k])%list).
Proof.
  unfold accepts. split; [|split; [|split]].
  - intros which Hout. cbn in Hout.
    unfold LARGEST_MAGNITUDE, SMALLEST_MAGNITUDE, LARGEST_REAL, SMALLEST_REAL,
      LARGEST_IMAGINARY, SMALLEST_IMAGINARY, TARGET_MAGNITUDE, TARGET_REAL in Hout.
    unfold SetWhichEigenpairs, bind, this, gets.
    unfold LARGEST_MAGNITUDE, SMALLEST_MAGNITUDE, LARGEST_REAL, SMALLEST_REAL,
      LARGEST_IMAGINARY, SMALLEST_IMAGINARY, TARGET_MAGNITUDE, TARGET_REAL.
    repeat match goal with
    | |- context [?a =? ?b] => destruct (Z.eqb_spec a b); [exfalso; lia|]
    end.
    reflexivity.
  - intros which k Hin Hk. cbn in Hin.
    repeat (destruct Hin as [Hin|Hin]; [injection Hin as <- <-|]); [..|contradiction];
      repeat (progress unfold_M); cbn; rewrite Hk; cbn;
      (eexists; split; reflexivity).
  - intros t Hout. cbn in Hout. unfold SHIFT, SHIFT_INVERT in Hout.
    repeat (progress unfold_M). unfold SHIFT, SHIFT_INVERT. cbn.
    destruct (answer slepc (engine_state (trace w)) (E_EPSGetST (eps (self w))) =? 0)
      eqn:E; cbn.
    + destruct (Z.eqb_spec t 0); [exfalso; lia|].
      destruct (Z.eqb_spec t 1); [exfalso; lia|].
      eexists _, _. split; [reflexivity|]. reflexivity.
    + eexists _, _. split; [reflexivity|]. intros H. rewrite H in E. discriminate.
  - intros t k Hin Hst Hk. cbn in Hin.
    repeat (destruct Hin as [Hin|Hin]; [injection Hin as <- <-|]); [..|contradiction];
      repeat (progress unfold_M);
      repeat (progress (cbn; rewrite ?Hst, ?Hk;
                        repeat (rewrite ?engine_state_query by reflexivity)));
      (eexists; split; [reflexivity|]); cbn; rewrite <- app_assoc; reflexivity.
Qed.

Lemma enumerations_are_closed_witness :
  SetWhichEigenpairs ideal_slepc 8 constructed_world =
    Aborted "Which eigenpair not implemented!" constructed_world /\
  (exists w', SetWhichEigenpairs ideal_slepc SMALLEST_REAL constructed_world =
                Returned tt w') /\
  (exists w', SetSpectralTransformation ideal_slepc 2 constructed_world =
                Aborted "Spectral transformation not implemented!" w') /\
  (exists w', SetSpectralTransformation ideal_slepc SHIFT_INVERT constructed_world =
                Returned tt w').
Proof.
  pose proof (enumerations_are_closed ideal_slepc constructed_world)
    as (Hout & Hin & Tout & Tin).
  split; [|split; [|split]].
  - apply Hout. cbn. unfold LARGEST_MAGNITUDE, SMALLEST_MAGNITUDE, LARGEST_REAL,
      SMALLEST_REAL, LARGEST_IMAGINARY, SMALLEST_IMAGINARY, TARGET_MAGNITUDE,
      TARGET_REAL. lia.
  - destruct (Hin SMALLEST_REAL EPS_SMALLEST_REAL) as (w' & Hrun & _).
    + cbn. tauto.
    + reflexivity.
    + exists w'. exact Hrun.
  - destruct (Tout 2) as (msg & w' & Hrun & Hmsg).
    + cbn. unfold SHIFT, SHIFT_INVERT. lia.
    + exists w'. rewrite Hrun, Hmsg; reflexivity.
  - destruct (Tin SHIFT_INVERT STSINVERT) as (w' & Hrun & _).
    + cbn. tauto.
    + reflexivity.
    + reflexivity.
    + exists w'. exact Hrun.
Defined.

(** ** Construction and destruction *)

Ltac simpl_negb :=
  repeat match goal with
  | H : negb _ = true |- _ => apply negb_true_iff in H
  | H : negb _ = false |- _ => apply negb_false_iff in H
  end.

Lemma rejects_eqb (slepc : Slepc) (t : list Event) (e : Event) :
  rejects slepc t e -> (answer slepc (engine_state t) e =? 0) = false.
Proof. intros H. apply Z.eqb_neq, H. Qed.

Lemma ctor_spec (slepc : Slepc) (comm : MPI_Comm) (prefix : string) (wrap : bool)
    (w : World) :
  let h := fresh (dom (heap w)) in
  accepts slepc (trace w) (E_EPSCreate comm h) ->
  accepts slepc (trace w ++ [E_EPSCreate comm h])
    (E_EPSSetOptionsPrefix (Some h) prefix) ->
  exists w',
    SlepcEigenSolver_ctor slepc comm prefix wrap w = Returned tt w' /\
    self w' = {| eps := Some h;
                 _tol := double_of_int (PETSC_DEFAULT slepc);
                 _max_its := PETSC_DEFAULT slepc;
                 _wrap := wrap; clcustom := false;
                 VR := None; VC := None; operatorset := false |} /\
    heap w' = <[h := EPSObj comm]> (heap w) /\
    memory w' = memory w /\ ierr w' = 0 /\
    trace w' = (trace w ++ [E_EPSCreate comm h;
                            E_EPSSetOptionsPrefix (Some h) prefix])%list.
Proof.
  intros h Hc Hp. subst h. unfold accepts in *. repeat (progress unfold_M). cbn.
  rewrite Hc. cbn. rewrite Hp. cbn.
  eexists. split; [reflexivity|]. cbn. rewrite <- app_assoc. repeat split.
Qed.

(** A constructor that returned has created a context at a new address. *)
Lemma ctor_returned (slepc : Slepc) (comm : MPI_Comm) (prefix : string) (wrap : bool)
    (w w' : World) :
  SlepcEigenSolver_ctor slepc comm prefix wrap w = Returned tt w' ->
  eps (self w') = Some (fresh (dom (heap w))) /\
  heap w' = <[fresh (dom (heap w)) := EPSObj comm]> (heap w) /\
  memory w' = memory w.
Proof. run_M; simpl_negb; try congruence; intros [= <-]; cbn; repeat split. Qed.

Lemma dtor_spec (slepc : Slepc) (w : World) :
  accepts slepc (trace w) (E_PetscObjectGetComm (eps (self w))) ->
  accepts slepc (trace w) (E_EPSDestroy (eps (self w))) ->
  exists w',
    SlepcEigenSolver_dtor slepc w = Returned tt w' /\
    eps (self w') = None /\
    heap w' = release (eps (self w)) (heap w) /\
    trace w' = (trace w ++ [E_PetscObjectGetComm (eps (self w));
                            E_EPSDestroy (eps (self w))])%list.
Proof.
  intros Hc Hd. unfold accepts in *. repeat (progress unfold_M).
  repeat (progress (cbn; rewrite ?Hc, ?Hd;
                    repeat (rewrite ?engine_state_query by reflexivity))).
  eexists. split; [reflexivity|]. cbn. rewrite <- app_assoc. repeat split.
Qed.

(** A destructor that returned has released the context and nothing else. *)
Lemma dtor_returned (slepc : Slepc) (w w' : World) :
  SlepcEigenSolver_dtor slepc w = Returned tt w' ->
  eps (self w') = None /\ heap w' = release (eps (self w)) (heap w) /\
  memory w' = memory w.
Proof. run_M; simpl_negb; try congruence; intros [= <-]; cbn; repeat split. Qed.

(** X2. The constructor, when the engine accepts its two calls, leaves a
    solver with a new engine context, the library's default tolerance and
    iteration limit, the given wrap flag, an open latch, no view and no
    operator; it issues EPSCreate and then EPSSetOptionsPrefix on the new
    context.  When EPSCreate is rejected it aborts without setting the prefix
    and without a context; when the prefix is rejected it aborts as well. *)
Theorem constructor_establishes (slepc : Slepc) (comm : MPI_Comm) (prefix : string)
    (wrap : bool) (w : World) :
  let h := fresh (dom (heap w)) in
  let create := E_EPSCreate comm h in
  let set_prefix := E_EPSSetOptionsPrefix (Some h) prefix in
  (accepts slepc (trace w) create ->
   accepts slepc (trace w ++ [create]) set_prefix ->
   exists w',
     SlepcEigenSolver_ctor slepc comm prefix wrap w = Returned tt w' /\
     self w' = {| eps := Some h;
                  _tol := double_of_int (PETSC_DEFAULT slepc);
                  _max_its := PETSC_DEFAULT slepc;
                  _wrap := wrap; clcustom := false;
                  VR := None; VC := None; operatorset := false |} /\
     heap w !! h = None /\
     heap w' = <[h := EPSObj comm]> (heap w) /\
     memory w' = memory w /\ ierr w' = 0 /\
     trace w' = (trace w ++ [create; set_prefix])%list) /\
  (rejects slepc (trace w) create ->
   exists w',
     SlepcEigenSolver_ctor slepc comm prefix wrap w =
       Aborted "Error in SLEPc. See stacktrace above." w' /\
     trace w' = (trace w ++ [create])%list /\ heap w' = heap w) /\
  (accepts slepc (trace w) create ->
   rejects slepc (trace w ++ [create]) set_prefix ->
   exists w',
     SlepcEigenSolver_ctor slepc comm prefix wrap w =
       Aborted "Error in SLEPc. See stacktrace above." w' /\
     trace w' = (trace w ++ [create; set_prefix])%list /\
     eps (self w') = Some h /\ heap w' !! h = Some (EPSObj comm)).
Proof.
  intros h create set_prefix. subst h create set_prefix. split; [|split].
  - intros Hc Hp.
    destruct (ctor_spec slepc comm prefix wrap w Hc Hp)
      as (w' & Hrun & Hself & Hheap & Hmem & Hierr & Htrace).
    exists w'. repeat split; try assumption. apply fresh_heap_None.
  - intros Hc. apply rejects_eqb in Hc. repeat (progress unfold_M). cbn.
    rewrite Hc. cbn. rewrite Hc. cbn.
    eexists. split; [reflexivity|]. cbn. split; reflexivity.
  - intros Hc Hp. apply rejects_eqb in Hp. unfold accepts in *.
    repeat (progress unfold_M). cbn.
    rewrite Hc. cbn. rewrite Hp. cbn.
    eexists. split; [reflexivity|]. cbn. rewrite <- app_assoc.
    split; [reflexivity|]. split; [reflexivity|]. apply lookup_insert_eq.
Qed.

Lemma constructor_establishes_witness :
  (exists w',
     SlepcEigenSolver_ctor strict_slepc 7 "eig_" true blank_world = Returned tt w' /\
     eps (self w') = Some 1%positive /\ _max_its (self w') = -2 /\
     _wrap (self w') = true /\ heap w' = {[ 1%positive := EPSObj 7 ]}) /\
  (exists w',
     SlepcEigenSolver_ctor strict_slepc 0 "eig_" true blank_world =
       Aborted "Error in SLEPc. See stacktrace above." w' /\
     trace w' = [E_EPSCreate 0 1%positive] /\ heap w' = ∅).
Proof.
  split.
  - destruct (proj1 (constructor_establishes strict_slepc 7 "eig_" true blank_world))
      as (w' & Hrun & Hself & _ & Hheap & _); [reflexivity|reflexivity|].
    exists w'. split; [exact Hrun|]. rewrite Hself, Hheap. repeat split.
  - destruct (proj1 (proj2 (constructor_establishes strict_slepc 0 "eig_" true
                              blank_world)))
      as (w' & Hrun & Htrace & Hheap); [discriminate|].
    exists w'. split; [exact Hrun|]. rewrite Htrace, Hheap. split; reflexivity.
Defined.

(** X3. The destructor, when the engine rejects PetscObjectGetComm, aborts
    without calling EPSDestroy, the solver and the free store as they were;
    when EPSDestroy is rejected it aborts right after that call. *)
Theorem destructor_aborts_keep_context (slepc : Slepc) (w : World) :
  let get_comm := E_PetscObjectGetComm (eps (self w)) in
  let destroy := E_EPSDestroy (eps (self w)) in
  (rejects slepc (trace w) get_comm ->
   exists w',
     SlepcEigenSolver_dtor slepc w =
       Aborted "Error in SLEPc. See stacktrace above." w' /\
     trace w' = (trace w ++ [get_comm])%list /\
     heap w' = heap w /\ self w' = self w) /\
  (accepts slepc (trace w) get_comm ->
   rejects slepc (trace w) destroy ->
   exists w',
     SlepcEigenSolver_dtor slepc w =
       Aborted "Error in SLEPc. See stacktrace above." w' /\
     trace w' = (trace w ++ [get_comm; destroy])%list).
Proof.
  intros get_comm destroy. subst get_comm destroy. split.
  - intros Hc. apply rejects_eqb in Hc. repeat (progress unfold_M). cbn.
    rewrite Hc. cbn. eexists. split; [reflexivity|]. repeat split.
  - intros Hc Hd. apply rejects_eqb in Hd. unfold accepts in *.
    repeat (progress unfold_M).
    repeat (progress (cbn; rewrite ?Hc, ?Hd;
                      repeat (rewrite ?engine_state_query by reflexivity))).
    eexists. split; [reflexivity|]. cbn. rewrite <- app_assoc. reflexivity.
Qed.

Lemma destructor_aborts_keep_context_witness :
  exists w',
    SlepcEigenSolver_dtor strict_slepc blank_world =
      Aborted "Error in SLEPc. See stacktrace above." w' /\
    trace w' = [E_PetscObjectGetComm None] /\ self w' = blank_solver.
Proof.
  destruct (proj1 (destructor_aborts_keep_context strict_slepc blank_world))
    as (w' & Hrun & Htrace & _ & Hself); [discriminate|].
  exists w'. split; [exact Hrun|]. rewrite Htrace, Hself. split; reflexivity.
Defined.

(** ** What the calls leave alone *)

(** One call: the context and the wrap flag stay, a registered operator stays
    registered, and the other members, the free store and the caller's arrays
    change only in the calls that are there to change them. *)
Lemma call_keeps (slepc : Slepc) (c : Call) (w w' : World) :
  final (call slepc c w) = Some w' ->
  eps (self w') = eps (self w) /\ _wrap (self w') = _wrap (self w) /\
  (operatorset (self w) = true -> operatorset (self w') = true) /\
  (sets_tol c = false -> _tol (self w') = _tol (self w)) /\
  (sets_max_its c = false -> _max_its (self w') = _max_its (self w)) /\
  (uses_latch c = false -> clcustom (self w') = clcustom (self w)) /\
  (touches_views c = false ->
   VR (self w') = VR (self w) /\ VC (self w') = VC (self w) /\ heap w' = heap w /\
   operatorset (self w') = operatorset (self w)) /\
  (writes_arrays c = false -> memory w' = memory w).
Proof.
  destruct c; unfold call;
    [unfold SetOperator, bind at 1; rewrite AdaptOperator_spec; cbn;
     rewrite <- (self_adapted op w), <- (memory_adapted op w);
     generalize (adapted op w); intros a
    |unfold SetOperators, bind at 1; rewrite AdaptOperator_spec; cbn;
     unfold bind at 1; rewrite AdaptOperator_spec; cbn;
     rewrite <- (self_adapted op w), <- (memory_adapted op w),
       <- (self_adapted opB (adapted op w)), <- (memory_adapted opB (adapted op w));
     generalize (adapted opB (adapted op w)); intros a
    |..];
    run_M; simpl_negb; try congruence; intros [= <-]; cbn in *; use_store_view;
    repeat split; intros; cbn in *; congruence.
Qed.

(** A sequence of calls that returns keeps the context. *)
Lemma calls_keep_eps (slepc : Slepc) (cs : list Call) (w w' : World) :
  calls slepc cs w = Returned tt w' -> eps (self w') = eps (self w).
Proof.
  revert w. induction cs as [|c cs IH]; intros w; cbn.
  - intros [= <-]. reflexivity.
  - unfold bind. destruct (call slepc c w) as [[] w1|msg w1|] eqn:Hc;
      [|discriminate|discriminate].
    intros H. rewrite (IH w1 H).
    apply (call_keeps slepc c w w1). rewrite Hc. reflexivity.
Qed.

(** X4. Who changes what.  Whatever the engine answers, no sequence of calls
    on a solver replaces its engine context or its wrap flag, or unsets
    [operatorset]; the stored tolerance changes only in SetTol, the stored
    iteration limit only in SetMaxIter, the latch only in Solve and Customize,
    the view pointers, the free store and [operatorset] only in SetOperator,
    SetOperators and GetEigenvector, and the caller's arrays only in
    GetEigenvector. *)
Theorem calls_keep_context (slepc : Slepc) (cs : list Call) (w w' : World) :
  final (calls slepc cs w) = Some w' ->
  eps (self w') = eps (self w) /\ _wrap (self w') = _wrap (self w) /\
  (operatorset (self w) = true -> operatorset (self w') = true) /\
  (Forall (fun c => sets_tol c = false) cs -> _tol (self w') = _tol (self w)) /\
  (Forall (fun c => sets_max_its c = false) cs ->
   _max_its (self w') = _max_its (self w)) /\
  (Forall (fun c => uses_latch c = false) cs ->
   clcustom (self w') = clcustom (self w)) /\
  (Forall (fun c => touches_views c = false) cs ->
   VR (self w') = VR (self w) /\ VC (self w') = VC (self w) /\ heap w' = heap w /\
   operatorset (self w') = operatorset (self w)) /\
  (Forall (fun c => writes_arrays c = false) cs -> memory w' = memory w).
Proof.
  revert w. induction cs as [|c cs IH]; intros w; cbn.
  - intros [= <-]. repeat split; auto.
  - unfold bind. pose proof (call_keeps slepc c w) as Hc.
    destruct (call slepc c w) as [[] w1|msg w1|]; cbn; [| |discriminate].
    + intros H.
      destruct (Hc w1 eq_refl) as (H1 & H2 & H3 & H4 & H5 & H6 & H7 & H8).
      destruct (IH w1 H) as (I1 & I2 & I3 & I4 & I5 & I6 & I7 & I8).
      rewrite <- H1, <- H2.
      split; [exact I1|]. split; [exact I2|]. split; [auto|].
      split; [|split; [|split; [|split]]];
        intros F; apply Forall_cons in F as [Fc F].
      * rewrite I4, H4; auto.
      * rewrite I5, H5; auto.
      * rewrite I6, H6; auto.
      * destruct (I7 F) as (-> & -> & -> & ->). apply (H7 Fc).
      * rewrite I8, H8; auto.
    + intros [= <-].
      destruct (Hc w1 eq_refl) as (H1 & H2 & H3 & H4 & H5 & H6 & H7 & H8).
      split; [exact H1|]. split; [exact H2|]. split; [exact H3|].
      split; [|split; [|split; [|split]]];
        intros F; apply Forall_cons in F as [Fc F]; auto.
Qed.

Lemma calls_keep_context_witness :
  exists w',
    calls strict_slepc
      [CallSetOperator hypre_A; CallSetMaxIter 50; CallSolve; CallGetNumConverged;
       CallGetEigenvector 0 (buffer 100%positive); CallSetSpectralTransformation 5]
      constructed_world = Aborted "Spectral transformation not implemented!" w' /\
    eps (self w') = Some 1%positive /\ _wrap (self w') = false /\
    _tol (self w') = _tol (self constructed_world).
Proof.
  eexists. split; [vm_compute; reflexivity|].
  match goal with
  | |- eps (self ?w1) = _ /\ _ =>
      destruct (calls_keep_context strict_slepc
                  [CallSetOperator hypre_A; CallSetMaxIter 50; CallSolve;
                   CallGetNumConverged; CallGetEigenvector 0 (buffer 100%positive);
                   CallSetSpectralTransformation 5] constructed_world w1)
        as (He & Hw & _ & Ht & _)
  end.
  - vm_compute. reflexivity.
  - rewrite He, Hw, Ht by (repeat constructor). repeat split.
Defined.

(** ** A whole life of a solver *)

(** Calls that touch neither views nor operators leave the context, the free
    store and the caller's arrays as they were. *)
Lemma calls_quiet (slepc : Slepc) (cs : list Call) (w w' : World) :
  Forall (fun c => touches_views c = false) cs ->
  calls slepc cs w = Returned tt w' ->
  eps (self w') = eps (self w) /\ heap w' = heap w /\ memory w' = memory w /\
  VR (self w') = VR (self w) /\ VC (self w') = VC (self w).
Proof.
  revert w. induction cs as [|c cs IH]; intros w F; cbn.
  - intros [= <-]. repeat split.
  - apply Forall_cons in F as [Fc F]. unfold bind.
    destruct (call slepc c w) as [[] w1|msg w1|] eqn:Hc; [|discriminate|discriminate].
    intros H. destruct (IH w1 F H) as (I1 & I2 & I3 & I4 & I5).
    destruct (call_views_frame slepc c w w1 Fc Hc) as (HVR & HVC & Hheap).
    destruct (call_keeps slepc c w w1) as (He & _ & _ & _ & _ & _ & _ & Hm);
      [rewrite Hc; reflexivity|].
    rewrite I1, I2, I3, I4, I5, He, Hheap, HVR, HVC, Hm; [repeat split|].
    destruct c; try discriminate; reflexivity.
Qed.

(** X5. Construction followed by destruction gives back what construction
    took: when the engine accepts the four calls, the pair returns with the
    free store as it was before and [eps] null.  The same holds with calls in
    between that touch neither operators nor eigenvectors: if such a life
    returns, the free store and the caller's arrays are as they were. *)
Theorem construct_destroy_round_trip (slepc : Slepc) (comm : MPI_Comm)
    (prefix : string) (wrap : bool) (w : World) :
  let h := fresh (dom (heap w)) in
  let create := E_EPSCreate comm h in
  let set_prefix := E_EPSSetOptionsPrefix (Some h) prefix in
  (accepts slepc (trace w) create ->
   accepts slepc (trace w ++ [create]) set_prefix ->
   accepts slepc (trace w ++ [create; set_prefix]) (E_PetscObjectGetComm (Some h)) ->
   accepts slepc (trace w ++ [create; set_prefix]) (E_EPSDestroy (Some h)) ->
   exists w',
     lifetime slepc comm prefix wrap [] w = Returned tt w' /\
     heap w' = heap w /\ eps (self w') = None /\
     trace w' = (trace w ++ [create; set_prefix; E_PetscObjectGetComm (Some h);
                             E_EPSDestroy (Some h)])%list) /\
  (forall cs w',
     Forall (fun c => touches_views c = false) cs ->
     lifetime slepc comm prefix wrap cs w = Returned tt w' ->
     heap w' = heap w /\ memory w' = memory w /\ eps (self w') = None).
Proof.
  intros h create set_prefix. split.
  - intros Hc Hp Hg Hd.
    destruct (ctor_spec slepc comm prefix wrap w Hc Hp)
      as (w1 & Hrun & Hself & Hheap & _ & _ & Htrace).
    pose proof (fresh_heap_None (heap w)) as Hfresh.
    unfold lifetime, bind at 1. fold h create set_prefix. rewrite Hrun. cbn.
    unfold bind at 1, ret.
    assert (Heps : eps (self w1) = Some h) by (rewrite Hself; reflexivity).
    destruct (dtor_spec slepc w1) as (w' & Hrun' & He & Hh & Ht).
    { rewrite Heps, Htrace. exact Hg. }
    { rewrite Heps, Htrace. exact Hd. }
    exists w'. split; [exact Hrun'|]. split; [|split; [exact He|]].
    + rewrite Hh, Heps, Hheap. cbn. apply delete_insert_id. exact Hfresh.
    + rewrite Ht, Heps, Htrace, <- app_assoc. reflexivity.
  - intros cs w' F. unfold lifetime, bind at 1.
    destruct (SlepcEigenSolver_ctor slepc comm prefix wrap w) as [[] w1|msg w1|] eqn:Hc;
      [|discriminate|discriminate].
    unfold bind at 1.
    destruct (calls slepc cs w1) as [[] w2|msg w2|] eqn:Hcs;
      [|discriminate|discriminate].
    intros Hd.
    destruct (ctor_returned slepc comm prefix wrap w w1 Hc) as (Heps & Hheap & Hmem).
    pose proof (fresh_heap_None (heap w)) as Hfresh.
    destruct (calls_quiet slepc cs w1 w2 F Hcs) as (He & Hh & Hm & _).
    destruct (dtor_returned slepc w2 w' Hd) as (He' & Hh' & Hm').
    split; [|split; [congruence|exact He']].
    rewrite Hh', He, Heps, Hh, Hheap. cbn. apply delete_insert_id. exact Hfresh.
Qed.

Lemma construct_destroy_round_trip_witness :
  exists w',
    lifetime strict_slepc 7 "eig_" false
      [CallSetTol 0.5%float; CallSetNumModes 4; CallCustomize false;
       CallSetWhichEigenpairs TARGET_REAL; CallSetTarget 2%float] blank_world =
      Returned tt w' /\
    heap w' = ∅ /\ memory w' = memory blank_world /\ eps (self w') = None.
Proof.
  eexists. split; [vm_compute; reflexivity|].
  apply (proj2 (construct_destroy_round_trip strict_slepc 7 "eig_" false blank_world)
           [CallSetTol 0.5%float; CallSetNumModes 4; CallCustomize false;
            CallSetWhichEigenpairs TARGET_REAL; CallSetTarget 2%float]).
  - repeat constructor.
  - vm_compute. reflexivity.
Defined.

(** ** Aborts and the error code *)

Ltac adapt_first op opB w :=
  first
    [ unfold SetOperators, bind at 1; rewrite AdaptOperator_spec; cbn;
      unfold bind at 1; rewrite AdaptOperator_spec; cbn;
      generalize (adapted opB (adapted op w)); intros ?a
    | unfold SetOperator, bind at 1; rewrite AdaptOperator_spec; cbn;
      generalize (adapted op w); intros ?a ].

Lemma call_aborts (slepc : Slepc) (c : Call) (w w' : World) (msg : string) :
  call slepc c w = Aborted msg w' ->
  (msg = "Error in SLEPc. See stacktrace above." /\ after_rejection slepc w') \/
  (msg = "Which eigenpair not implemented!" /\
   exists which, c = CallSetWhichEigenpairs which /\
                 ~ In which (map fst which_values)) \/
  (msg = "Spectral transformation not implemented!" /\
   exists t, c = CallSetSpectralTransformation t /\
             ~ In t (map fst transformation_values)).
Proof.
  unfold after_rejection.
  destruct c; unfold call;
    [adapt_first op op w | adapt_first op opB w | ..];
    run_M; simpl_negb; try congruence; intros [= <- <-]; cbn in *; use_store_view;
    try (left; split; [reflexivity|];
         split; [apply Z.eqb_neq; assumption|];
         eexists _, _; split; reflexivity).
  - right. left. split; [reflexivity|]. exists which. split; [reflexivity|].
    cbn. repeat match goal with H : (_ =? _) = false |- _ => apply Z.eqb_neq in H end.
    intuition congruence.
  - right. right. split; [reflexivity|]. exists transformation. split; [reflexivity|].
    cbn. repeat match goal with H : (_ =? _) = false |- _ => apply Z.eqb_neq in H end.
    intuition congruence.
Qed.

(** A call that returns leaves [ierr] null, unless it made no call at all. *)
Lemma call_returns (slepc : Slepc) (c : Call) (w w' : World) :
  call slepc c w = Returned tt w' ->
  ierr w' = 0 \/ (trace w' = trace w /\ ierr w' = ierr w).
Proof.
  destruct c; unfold call;
    [adapt_first op op w | adapt_first op opB w | ..];
    run_M; simpl_negb; try congruence; intros [= <-]; cbn in *; use_store_view;
    try (right; split; reflexivity);
    left; apply Z.eqb_eq; assumption.
Qed.

(** X6. A sequence of calls aborts in one of three ways only: with the
    engine's message, right after a call the engine rejected and with the
    rejection in [ierr]; or with the message of SetWhichEigenpairs or of
    SetSpectralTransformation, and then one of the calls had an argument
    outside the enumeration.  In particular the check of the adapted operator
    never fires.  A sequence that returns leaves [ierr] null unless it made no
    call to the library at all. *)
Theorem aborts_follow_rejections (slepc : Slepc) (cs : list Call) (w : World) :
  (forall msg w',
     calls slepc cs w = Aborted msg w' ->
     (msg = "Error in SLEPc. See stacktrace above." /\ ierr w' <> 0 /\
      exists t e, trace w' = (t ++ [e])%list /\
                  answer slepc (engine_state t) e = ierr w') \/
     (msg = "Which eigenpair not implemented!" /\
      exists which, In (CallSetWhichEigenpairs which) cs /\
                    ~ In which (map fst which_values)) \/
     (msg = "Spectral transformation not implemented!" /\
      exists t, In (CallSetSpectralTransformation t) cs /\
                ~ In t (map fst transformation_values))) /\
  (forall w',
     calls slepc cs w = Returned tt w' ->
     ierr w' = 0 \/ (trace w' = trace w /\ ierr w' = ierr w)).
Proof.
  revert w. induction cs as [|c cs IH]; intros w.
  - split; [discriminate|]. intros w' [= <-]. right. split; reflexivity.
  - cbn. unfold bind.
    destruct (call slepc c w) as [[] w1|m w1|] eqn:Hc.
    + destruct (IH w1) as [IHa IHr]. split.
      * intros msg w' H. destruct (IHa msg w' H) as [H1|[(H1 & x & Hin & Hx)|(H1 & x & Hin & Hx)]].
        -- left. exact H1.
        -- right. left. split; [exact H1|]. exists x. split; [right; exact Hin|exact Hx].
        -- right. right. split; [exact H1|]. exists x.
           split; [right; exact Hin|exact Hx].
      * intros w' H. destruct (IHr w' H) as [H0|[Ht Hi]]; [left; exact H0|].
        destruct (call_returns slepc c w w1 Hc) as [H0|[Ht' Hi']].
        -- left. congruence.
        -- right. split; congruence.
    + split; [|discriminate]. intros msg w' [= <- <-].
      destruct (call_aborts slepc c w w1 m Hc)
        as [H1|[(H1 & x & -> & Hx)|(H1 & x & -> & Hx)]].
      * left. exact H1.
      * right. left. split; [exact H1|]. exists x. split; [left; reflexivity|exact Hx].
      * right. right. split; [exact H1|]. exists x.
        split; [left; reflexivity|exact Hx].
    + split; discriminate.
Qed.

Lemma aborts_follow_rejections_witness :
  exists w',
    calls strict_slepc [CallSetTol 0.5%float; CallSolve; CallGetNumConverged]
      constructed_world = Aborted "Error in SLEPc. See stacktrace above." w' /\
    ierr w' = 73 /\
    trace w' = (trace constructed_world ++
                [E_EPSSetTolerances (Some 1%positive) 0.5%float (-2);
                 E_EPSSetFromOptions (Some 1%positive);
                 E_EPSSolve (Some 1%positive)])%list /\
    ierr w' <> 0.
Proof.
  eexists. split; [vm_compute; reflexivity|].
  split; [reflexivity|]. split; [reflexivity|].
  match goal with
  | |- ierr ?w1 <> 0 =>
      destruct (proj1 (aborts_follow_rejections strict_slepc
                         [CallSetTol 0.5%float; CallSolve; CallGetNumConverged]
                         constructed_world)
                  "Error in SLEPc. See stacktrace above." w1)
        as [(_ & H & _)|[(H & _)|(H & _)]]
  end.
  - vm_compute. reflexivity.
  - exact H.
  - discriminate H.
  - discriminate H.
Defined.

(** ** Setters, Solve and the value queries *)

(** X7. SetTol and SetMaxIter commute: in either order the solver ends with
    both values stored and the engine with both values pushed; the first of
    the two calls pushes the new value together with the other value as stored
    before. *)
Theorem tolerance_setters_commute (slepc : Slepc) (x : double) (n : int) (w : World) :
  let e := eps (self w) in
  accepts slepc (trace w) (E_EPSSetTolerances e x (_max_its (self w))) ->
  accepts slepc (trace w ++ [E_EPSSetTolerances e x (_max_its (self w))])
    (E_EPSSetTolerances e x n) ->
  accepts slepc (trace w) (E_EPSSetTolerances e (_tol (self w)) n) ->
  accepts slepc (trace w ++ [E_EPSSetTolerances e (_tol (self w)) n])
    (E_EPSSetTolerances e x n) ->
  exists w1 w2,
    (SetTol slepc x;; SetMaxIter slepc n) w = Returned tt w1 /\
    (SetMaxIter slepc n;; SetTol slepc x) w = Returned tt w2 /\
    self w1 = self w2 /\ _tol (self w1) = x /\ _max_its (self w1) = n /\
    pushed_tolerances (trace w1) = Some (x, n) /\
    pushed_tolerances (trace w2) = Some (x, n) /\
    trace w1 = (trace w ++ [E_EPSSetTolerances e x (_max_its (self w));
                            E_EPSSetTolerances e x n])%list /\
    trace w2 = (trace w ++ [E_EPSSetTolerances e (_tol (self w)) n;
                            E_EPSSetTolerances e x n])%list /\
    heap w1 = heap w2 /\ memory w1 = memory w2 /\ ierr w1 = ierr w2.
Proof.
  intros e H1 H2 H3 H4. subst e. unfold accepts in *. unfold_M. cbn.
  rewrite H1, H3. cbn. rewrite H2, H4. cbn.
  eexists _, _. split; [reflexivity|]. split; [reflexivity|]. cbn.
  rewrite !pushed_tolerances_snoc, <- !app_assoc. repeat split.
Qed.

Lemma tolerance_setters_commute_witness :
  exists w1 w2,
    (SetTol strict_slepc 0.5%float;; SetMaxIter strict_slepc 40) constructed_world =
      Returned tt w1 /\
    (SetMaxIter strict_slepc 40;; SetTol strict_slepc 0.5%float) constructed_world =
      Returned tt w2 /\
    self w1 = self w2 /\ pushed_tolerances (trace w1) = Some (0.5%float, 40) /\
    pushed_tolerances (trace w2) = Some (0.5%float, 40).
Proof.
  destruct (tolerance_setters_commute strict_slepc 0.5%float 40 constructed_world)
    as (w1 & w2 & R1 & R2 & Hs & _ & _ & P1 & P2 & _);
    [reflexivity|reflexivity|reflexivity|reflexivity|].
  exists w1, w2. repeat split; assumption.
Defined.

(** X8. What Solve issues.  With the latch closed it issues EPSSolve alone,
    whatever the engine answers.  With the latch open it first merges the
    external options: if the engine rejects the merge Solve aborts without
    solving and with the latch still open; otherwise the latch is closed and
    EPSSolve is issued in the state after the merge.  After Customize(false) a
    Solve issues EPSSolve alone. *)
Theorem solve_issues (slepc : Slepc) (w : World) :
  let merge := E_EPSSetFromOptions (eps (self w)) in
  let solve := E_EPSSolve (eps (self w)) in
  (clcustom (self w) = true ->
   exists w',
     final (Solve slepc w) = Some w' /\
     trace w' = (trace w ++ [solve])%list /\ clcustom (self w') = true) /\
  (clcustom (self w) = false -> rejects slepc (trace w) merge ->
   exists w',
     Solve slepc w = Aborted "Error in SLEPc. See stacktrace above." w' /\
     trace w' = (trace w ++ [merge])%list /\ clcustom (self w') = false) /\
  (clcustom (self w) = false -> accepts slepc (trace w) merge ->
   exists w',
     final (Solve slepc w) = Some w' /\
     trace w' = (trace w ++ [merge; solve])%list /\ clcustom (self w') = true) /\
  (accepts slepc (trace w) solve ->
   exists w',
     (Customize slepc false;; Solve slepc) w = Returned tt w' /\
     trace w' = (trace w ++ [solve])%list).
Proof.
  intros merge solve. subst merge solve. split; [|split; [|split]].
  - intros Hl. repeat (progress unfold_M). cbn. rewrite Hl. cbn.
    destruct (answer slepc _ _ =? 0); cbn; eexists; repeat split.
  - intros Hl Hm. apply rejects_eqb in Hm. repeat (progress unfold_M). cbn.
    rewrite Hl. cbn. rewrite Hm. cbn. eexists. split; [reflexivity|].
    split; [reflexivity|exact Hl].
  - intros Hl Hm. unfold accepts in Hm. repeat (progress unfold_M). cbn.
    rewrite Hl. cbn. rewrite Hm. cbn.
    destruct (answer slepc _ _ =? 0); cbn; eexists;
      (split; [reflexivity|]); cbn; rewrite <- app_assoc; split; reflexivity.
  - intros Hs. unfold accepts in Hs. repeat (progress unfold_M). cbn.
    rewrite Hs. cbn. eexists. split; reflexivity.
Qed.

Lemma solve_issues_witness :
  (exists w',
     Solve strict_slepc blank_world =
       Aborted "Error in SLEPc. See stacktrace above." w' /\
     trace w' = [E_EPSSetFromOptions None]) /\
  (exists w',
     (Customize strict_slepc false;; Solve strict_slepc) solved_world =
       Returned tt w' /\
     trace w' = (trace solved_world ++ [E_EPSSolve (eps (self solved_world))])%list).
Proof.
  split.
  - destruct (proj1 (proj2 (solve_issues strict_slepc blank_world)))
      as (w' & Hrun & Htrace & _); [reflexivity|vm_compute; discriminate|].
    exists w'. split; [exact Hrun|exact Htrace].
  - destruct (proj2 (proj2 (proj2 (solve_issues strict_slepc solved_world))))
      as (w' & Hrun & Htrace); [vm_compute; reflexivity|].
    exists w'. split; [exact Hrun|exact Htrace].
Defined.

(** What the three value queries return and leave. *)
Lemma value_query_frame (slepc : Slepc) (c : Call) (w w' : World) :
  is_value_query c = true ->
  call slepc c w = Returned tt w' ->
  self w' = self w /\ heap w' = heap w /\ memory w' = memory w /\
  engine_state (trace w') = engine_state (trace w).
Proof.
  destruct c; try discriminate; intros _; unfold call; run_M; simpl_negb;
    try congruence; intros [= <-]; cbn;
    rewrite engine_state_query by reflexivity; repeat split.
Qed.

Lemma value_queries_frame (slepc : Slepc) (qs : list Call) (w w' : World) :
  Forall (fun c => is_value_query c = true) qs ->
  calls slepc qs w = Returned tt w' ->
  self w' = self w /\ heap w' = heap w /\ memory w' = memory w /\
  engine_state (trace w') = engine_state (trace w).
Proof.
  revert w. induction qs as [|c qs IH]; intros w F; cbn.
  - intros [= <-]. repeat split.
  - apply Forall_cons in F as [Fc F]. unfold bind.
    destruct (call slepc c w) as [[] w1|msg w1|] eqn:Hc; [|discriminate|discriminate].
    intros H. destruct (IH w1 F H) as (I1 & I2 & I3 & I4).
    destruct (value_query_frame slepc c w w1 Fc Hc) as (H1 & H2 & H3 & H4).
    repeat split; congruence.
Qed.

(** X9. GetEigenvalue and GetNumConverged hand back what the engine reports
    for its current state when it accepts the query, and abort when it does
    not; the one-value overload of GetEigenvalue returns the real part of what
    the two-value overload returns.  They change neither the solver, nor the
    free store, nor the caller's arrays, nor the engine's state: after any
    sequence of such queries the same query returns the same value. *)
Theorem value_queries_read_only (slepc : Slepc) (i : N) (w : World) :
  let s := engine_state (trace w) in
  let e := eps (self w) in
  (accepts slepc (trace w) (E_EPSGetEigenvalue e i false) ->
   exists w', GetEigenvalue slepc i w = Returned (fst (eigenvalue slepc s i)) w') /\
  (accepts slepc (trace w) (E_EPSGetEigenvalue e i true) ->
   exists w', GetEigenvalue_rc slepc i w = Returned (eigenvalue slepc s i) w') /\
  (accepts slepc (trace w) (E_EPSGetConverged e) ->
   exists w', GetNumConverged slepc w = Returned (converged slepc s) w') /\
  (rejects slepc (trace w) (E_EPSGetEigenvalue e i false) ->
   abort_message (GetEigenvalue slepc i w) =
     Some "Error in SLEPc. See stacktrace above.") /\
  (rejects slepc (trace w) (E_EPSGetEigenvalue e i true) ->
   abort_message (GetEigenvalue_rc slepc i w) =
     Some "Error in SLEPc. See stacktrace above.") /\
  (rejects slepc (trace w) (E_EPSGetConverged e) ->
   abort_message (GetNumConverged slepc w) =
     Some "Error in SLEPc. See stacktrace above.") /\
  (forall qs w1,
     Forall (fun c => is_value_query c = true) qs ->
     calls slepc qs w = Returned tt w1 ->
     self w1 = self w /\ heap w1 = heap w /\ memory w1 = memory w /\
     engine_state (trace w1) = s /\
     (forall x w2, GetEigenvalue slepc i w = Returned x w2 ->
        exists w3, GetEigenvalue slepc i w1 = Returned x w3) /\
     (forall x w2, GetEigenvalue_rc slepc i w = Returned x w2 ->
        exists w3, GetEigenvalue_rc slepc i w1 = Returned x w3) /\
     (forall x w2, GetNumConverged slepc w = Returned x w2 ->
        exists w3, GetNumConverged slepc w1 = Returned x w3)).
Proof.
  intros s e. subst s e. repeat apply conj.
  - intros H. unfold accepts in H. repeat (progress unfold_M). cbn. rewrite H. cbn.
    eexists. reflexivity.
  - intros H. unfold accepts in H. repeat (progress unfold_M). cbn. rewrite H. cbn.
    eexists. reflexivity.
  - intros H. unfold accepts in H. repeat (progress unfold_M). cbn. rewrite H. cbn.
    eexists. reflexivity.
  - intros H. apply rejects_eqb in H. repeat (progress unfold_M). cbn. rewrite H.
    reflexivity.
  - intros H. apply rejects_eqb in H. repeat (progress unfold_M). cbn. rewrite H.
    reflexivity.
  - intros H. apply rejects_eqb in H. repeat (progress unfold_M). cbn. rewrite H.
    reflexivity.
  - intros qs w1 F Hq.
    destruct (value_queries_frame slepc qs w w1 F Hq) as (Hs & Hh & Hm & He).
    split; [exact Hs|]. split; [exact Hh|]. split; [exact Hm|]. split; [exact He|].
    split; [|split]; intros x w2; repeat (progress unfold_M); cbn;
      rewrite Hs, He;
      (destruct (answer slepc _ _ =? 0); cbn; [|discriminate]);
      intros [= <- _]; eexists; reflexivity.
Qed.

Lemma value_queries_read_only_witness :
  (exists w', GetEigenvalue strict_slepc 1 solved_world =
                Returned (double_of_int 2) w') /\
  (exists w', GetNumConverged strict_slepc solved_world = Returned 3 w') /\
  (exists w1,
     calls strict_slepc [CallGetNumConverged; CallGetEigenvalue_rc 0;
                         CallGetEigenvalue 2] solved_world = Returned tt w1 /\
     exists w3, GetEigenvalue strict_slepc 1 w1 = Returned (double_of_int 2) w3).
Proof.
  pose proof (value_queries_read_only strict_slepc 1 solved_world)
    as (Hv & _ & Hn & _ & _ & _ & Hq).
  destruct Hv as (w' & Hv); [vm_compute; reflexivity|].
  split; [exists w'; exact Hv|].
  split; [destruct Hn as (w2 & Hn); [vm_compute; reflexivity|]; exists w2; exact Hn|].
  eexists. split; [vm_compute; reflexivity|].
  match goal with
  | |- exists w3, GetEigenvalue _ _ ?w1 = _ =>
      destruct (Hq [CallGetNumConverged; CallGetEigenvalue_rc 0; CallGetEigenvalue 2]
                  w1 ltac:(repeat constructor) ltac:(vm_compute; reflexivity))
        as (_ & _ & _ & _ & Hsame & _)
  end.
  destruct (Hsame _ _ Hv) as (w3 & H3). exists w3. exact H3.
Defined.

(** ** The cached views: creation and deletion *)

Ltac count_trace :=
  repeat (rewrite ?count_events_app, ?count_events_one; cbn).

(** What the tests of a pointer found. *)
Ltac use_null :=
  unfold with_VR, with_VC, with_operatorset, with_clcustom, with_eps, with_tol,
    with_max_its, with_wrap in *; cbn in *;
  repeat match goal with
  | H : is_null _ = _ |- _ => rewrite H in *
  | H : is_null ?p || is_null ?q = _ |- _ =>
      let E := fresh in let F := fresh in
      destruct (is_null p) eqn:E; destruct (is_null q) eqn:F; try discriminate H;
      clear H
  end; cbn.

(** Two reads of a pointer found the same address. *)
Ltac same_reads :=
  repeat match goal with
  | H : Some _ = Some _ |- _ => injection H as H; subst
  | H1 : ?x = Some ?a, H2 : ?x = Some ?b |- _ => rewrite H1 in H2
  end.

(** X10. The views are created lazily and kept: a GetEigenvector that returns
    has asked the engine for its operator and created a view exactly when the
    view pointer was null, and has left the other pointer alone; with the view
    already there it issues PlaceArray, EPSGetEigenvector and ResetArray and
    nothing else.  The overload with an imaginary part creates one view for
    each null pointer and asks for the operator once if either is null.
    Neither deletes a view. *)
Theorem views_created_on_demand (slepc : Slepc) (i : N) (w : World) :
  (forall vr w',
     GetEigenvector slepc i vr w = Returned tt w' ->
     count_events is_new_PetscParVector (trace w') =
       (count_events is_new_PetscParVector (trace w) +
        (if is_null (VR (self w)) then 1 else 0))%nat /\
     count_events is_EPSGetOperators (trace w') =
       (count_events is_EPSGetOperators (trace w) +
        (if is_null (VR (self w)) then 1 else 0))%nat /\
     count_events is_delete_PetscParVector (trace w') =
       count_events is_delete_PetscParVector (trace w) /\
     VC (self w') = VC (self w) /\
     (forall v, VR (self w) = Some v ->
        VR (self w') = Some v /\
        trace w' = (trace w ++ [E_PlaceArray v (GetData vr);
                                E_EPSGetEigenvector (eps (self w)) i v None;
                                E_ResetArray v])%list)) /\
  (forall vr vc w',
     GetEigenvector_rc slepc i vr vc w = Returned tt w' ->
     count_events is_new_PetscParVector (trace w') =
       (count_events is_new_PetscParVector (trace w) +
        (if is_null (VR (self w)) then 1 else 0) +
        (if is_null (VC (self w)) then 1 else 0))%nat /\
     count_events is_EPSGetOperators (trace w') =
       (count_events is_EPSGetOperators (trace w) +
        (if is_null (VR (self w)) || is_null (VC (self w)) then 1 else 0))%nat /\
     count_events is_delete_PetscParVector (trace w') =
       count_events is_delete_PetscParVector (trace w) /\
     (forall v u, VR (self w) = Some v -> VC (self w) = Some u ->
        VR (self w') = Some v /\ VC (self w') = Some u /\
        trace w' = (trace w ++ [E_PlaceArray v (GetData vr);
                                E_PlaceArray u (GetData vc);
                                E_EPSGetEigenvector (eps (self w)) i v (Some u);
                                E_ResetArray v; E_ResetArray u])%list)).
Proof.
  split.
  - intros vr w'. run_M; simpl_negb; try congruence; intros [= <-]; cbn in *;
      use_store_view; cbn; count_trace; use_null;
      (split; [lia|]); (split; [lia|]); (split; [lia|]); (split; [reflexivity|]);
      intros v' Hv'; rewrite Hv' in *; cbn in *; try discriminate; same_reads;
      rewrite <- ?app_assoc; cbn; split; congruence.
  - intros vr vc w'. run_M; simpl_negb; try congruence; intros [= <-]; cbn in *;
      use_store_view; cbn; count_trace; use_null;
      (split; [lia|]); (split; [lia|]); (split; [lia|]);
      intros v' u' Hv' Hu'; rewrite Hv', Hu' in *; cbn in *; try discriminate;
      same_reads; rewrite <- ?app_assoc; cbn; repeat split; congruence.
Qed.

Lemma views_created_on_demand_witness :
  exists w1 w2,
    GetEigenvector strict_slepc 0 (buffer 100%positive) solved_world = Returned tt w1 /\
    GetEigenvector strict_slepc 1 (buffer 101%positive) w1 = Returned tt w2 /\
    count_events is_new_PetscParVector (trace w1) = 1%nat /\
    count_events is_new_PetscParVector (trace w2) = 1%nat /\
    count_events is_EPSGetOperators (trace w2) = 1%nat.
Proof.
  eexists _, _. split; [vm_compute; reflexivity|]. split; [vm_compute; reflexivity|].
  match goal with
  | |- count_events _ (trace ?w1) = _ /\ count_events _ (trace ?w2) = _ /\ _ =>
      destruct (proj1 (views_created_on_demand strict_slepc 0 solved_world)
                  (buffer 100%positive) w1 ltac:(vm_compute; reflexivity))
        as (N1 & G1 & _);
      destruct (proj1 (views_created_on_demand strict_slepc 1 w1)
                  (buffer 101%positive) w2 ltac:(vm_compute; reflexivity))
        as (N2 & G2 & _)
  end.
  split; [rewrite N1; vm_compute; reflexivity|].
  split; [rewrite N2; vm_compute; reflexivity|].
  rewrite G2. vm_compute. reflexivity.
Defined.

Lemma count_vectors_adapted (P : Event -> bool) (op : Operator) (w : World) :
  (forall e, is_new_PetscParMatrix e = true -> P e = false) ->
  count_events P (trace (adapted op w)) = count_events P (trace w).
Proof.
  intros HP. rewrite trace_adapted, count_events_app, count_construction by exact HP.
  lia.
Qed.

(** Case analysis on the pointers whose tests are left. *)
Ltac settle_null :=
  unfold with_VR, with_VC, with_operatorset, with_clcustom, with_eps, with_tol,
    with_max_its, with_wrap in *; cbn in *;
  repeat match goal with
  | H : context [is_null ?p] |- _ =>
      let E := fresh "E" in destruct p eqn:E; rewrite ?E in *; cbn in *;
      try discriminate
  | |- context [is_null ?p] =>
      let E := fresh "E" in destruct p eqn:E; rewrite ?E in *; cbn in *;
      try discriminate
  end.

(** One call: every view created is deleted or pointed to. *)
Lemma call_view_balance (slepc : Slepc) (c : Call) (w w' : World) :
  call slepc c w = Returned tt w' ->
  (count_events is_new_PetscParVector (trace w') +
   count_events is_delete_PetscParVector (trace w) + live_views w =
   count_events is_new_PetscParVector (trace w) +
   count_events is_delete_PetscParVector (trace w') + live_views w')%nat.
Proof.
  unfold live_views.
  destruct c; unfold call;
    [unfold SetOperator, bind at 1; rewrite AdaptOperator_spec; cbn;
     rewrite <- (self_adapted op w),
       <- (count_vectors_adapted is_new_PetscParVector op w),
       <- (count_vectors_adapted is_delete_PetscParVector op w)
       by (intros [] ?; try discriminate; reflexivity);
     generalize (adapted op w); intros a
    |unfold SetOperators, bind at 1; rewrite AdaptOperator_spec; cbn;
     unfold bind at 1; rewrite AdaptOperator_spec; cbn;
     rewrite <- (self_adapted op w), <- (self_adapted opB (adapted op w)),
       <- (count_vectors_adapted is_new_PetscParVector op w),
       <- (count_vectors_adapted is_delete_PetscParVector op w),
       <- (count_vectors_adapted is_new_PetscParVector opB (adapted op w)),
       <- (count_vectors_adapted is_delete_PetscParVector opB (adapted op w))
       by (intros [] ?; try discriminate; reflexivity);
     generalize (adapted opB (adapted op w)); intros a
    |..];
    run_M; simpl_negb; try congruence; intros [= <-]; cbn in *;
    use_store_view; cbn; count_trace; settle_null; lia.
Qed.

Lemma calls_view_balance (slepc : Slepc) (cs : list Call) (w w' : World) :
  calls slepc cs w = Returned tt w' ->
  (count_events is_new_PetscParVector (trace w') +
   count_events is_delete_PetscParVector (trace w) + live_views w =
   count_events is_new_PetscParVector (trace w) +
   count_events is_delete_PetscParVector (trace w') + live_views w')%nat.
Proof.
  revert w. induction cs as [|c cs IH]; intros w; cbn.
  - intros [= <-]. lia.
  - unfold bind.
    destruct (call slepc c w) as [[] w1|msg w1|] eqn:Hc; [|discriminate|discriminate].
    intros H. pose proof (call_view_balance slepc c w w1 Hc).
    pose proof (IH w1 H). lia.
Qed.

(** The constructor logs two calls to the engine and leaves no view. *)
Lemma ctor_trace (slepc : Slepc) (comm : MPI_Comm) (prefix : string) (wrap : bool)
    (w w' : World) :
  SlepcEigenSolver_ctor slepc comm prefix wrap w = Returned tt w' ->
  trace w' = (trace w ++ [E_EPSCreate comm (fresh (dom (heap w)));
                          E_EPSSetOptionsPrefix (Some (fresh (dom (heap w)))) prefix])%list /\
  VR (self w') = None /\ VC (self w') = None /\ _wrap (self w') = wrap.
Proof.
  run_M; simpl_negb; try congruence; intros [= <-]; cbn; rewrite <- app_assoc;
    repeat split.
Qed.

Lemma ctor_counts (slepc : Slepc) (comm : MPI_Comm) (prefix : string) (wrap : bool)
    (P : Event -> bool) (w w' : World) :
  (forall c h, P (E_EPSCreate c h) = false) ->
  (forall e p, P (E_EPSSetOptionsPrefix e p) = false) ->
  SlepcEigenSolver_ctor slepc comm prefix wrap w = Returned tt w' ->
  count_events P (trace w') = count_events P (trace w).
Proof.
  intros H1 H2 H. destruct (ctor_trace slepc comm prefix wrap w w' H) as (-> & _).
  rewrite count_events_app. unfold count_events at 2. cbn. rewrite H1, H2. cbn. lia.
Qed.

(** X11. While a solver lives no view is lost: in every state reached from the
    constructor by calls that returned, the views created since construction
    are the views deleted since then and the views the solver still points
    to. *)
Theorem views_accounted_for (slepc : Slepc) (comm : MPI_Comm) (prefix : string)
    (wrap : bool) (cs : list Call) (w0 w : World) :
  (SlepcEigenSolver_ctor slepc comm prefix wrap;; calls slepc cs) w0 = Returned tt w ->
  (count_events is_new_PetscParVector (trace w) +
   count_events is_delete_PetscParVector (trace w0) =
   count_events is_new_PetscParVector (trace w0) +
   count_events is_delete_PetscParVector (trace w) + live_views w)%nat.
Proof.
  unfold bind at 1.
  destruct (SlepcEigenSolver_ctor slepc comm prefix wrap w0) as [[] w1|msg w1|] eqn:Hc;
    [|discriminate|discriminate].
  intros H. pose proof (calls_view_balance slepc cs w1 w H) as Hb.
  destruct (ctor_trace slepc comm prefix wrap w0 w1 Hc) as (_ & HVR & HVC & _).
  unfold live_views in Hb at 1. rewrite HVR, HVC in Hb. cbn in Hb.
  rewrite (ctor_counts slepc comm prefix wrap is_new_PetscParVector w0 w1) in Hb
    by (reflexivity || exact Hc).
  rewrite (ctor_counts slepc comm prefix wrap is_delete_PetscParVector w0 w1) in Hb
    by (reflexivity || exact Hc).
  lia.
Qed.

Lemma views_accounted_for_witness :
  exists w,
    constructed strict_slepc
      [CallSetOperator hypre_A; CallSolve;
       CallGetEigenvector_rc 0 (buffer 100%positive) (buffer 102%positive);
       CallSetOperators hypre_B petsc_A; CallSolve;
       CallGetEigenvector 1 (buffer 101%positive)] = Returned tt w /\
    count_events is_new_PetscParVector (trace w) = 3%nat /\
    count_events is_delete_PetscParVector (trace w) = 2%nat /\
    live_views w = 1%nat.
Proof.
  eexists. split; [vm_compute; reflexivity|].
  split; [vm_compute; reflexivity|]. split; [vm_compute; reflexivity|].
  match goal with
  | |- live_views ?w1 = _ =>
      pose proof (views_accounted_for strict_slepc 7 "eig_" false
                    [CallSetOperator hypre_A; CallSolve;
                     CallGetEigenvector_rc 0 (buffer 100%positive) (buffer 102%positive);
                     CallSetOperators hypre_B petsc_A; CallSolve;
                     CallGetEigenvector 1 (buffer 101%positive)] blank_world w1
                    ltac:(vm_compute; reflexivity)) as H
  end.
  assert (forall n : nat, (3 + 0 = 0 + 2 + n)%nat -> n = 1%nat) as L by (intros; lia).
  apply L. exact H.
Defined.

(** ** The matrices constructed for the engine *)

Lemma count_new_adapted (op : Operator) (w : World) :
  count_events is_new_PetscParMatrix (trace (adapted op w)) =
  (count_events is_new_PetscParMatrix (trace w) +
   (if is_canonical op then 0 else 1))%nat.
Proof. rewrite trace_adapted, count_events_app, count_new_construction. reflexivity. Qed.

Lemma count_other_type_adapted (op : Operator) (w : World) :
  count_events (is_new_PetscParMatrix_not (matrix_type w)) (trace (adapted op w)) =
  count_events (is_new_PetscParMatrix_not (matrix_type w)) (trace w).
Proof.
  rewrite trace_adapted, count_events_app.
  unfold construction_of, matrix_type, count_events at 2.
  destruct (op_class op), (_wrap (self w)); cbn; lia.
Qed.

Lemma matrix_type_adapted (op : Operator) (w : World) :
  matrix_type (adapted op w) = matrix_type w.
Proof. unfold matrix_type. rewrite self_adapted. reflexivity. Qed.

Lemma SetOperator_matrices (slepc : Slepc) (op : Operator) (w w' : World) :
  SetOperator slepc op w = Returned tt w' ->
  count_events is_new_PetscParMatrix (trace w') =
    (count_events is_new_PetscParMatrix (trace w) +
     (if is_canonical op then 0 else 1))%nat /\
  count_events is_delete_PetscParMatrix (trace w') =
    count_events is_delete_PetscParMatrix (trace w) /\
  count_events (is_new_PetscParMatrix_not (matrix_type w)) (trace w') =
    count_events (is_new_PetscParMatrix_not (matrix_type w)) (trace w).
Proof.
  unfold SetOperator, bind at 1. rewrite AdaptOperator_spec. cbn.
  pose proof (count_new_adapted op w) as F1.
  pose proof (count_vectors_adapted is_delete_PetscParMatrix op w
                ltac:(intros [] ?; try discriminate; reflexivity)) as F2.
  pose proof (count_other_type_adapted op w) as F3.
  revert F1 F2 F3. generalize (matrix_type w). intros ty.
  generalize (adapted op w). intros a F1 F2 F3.
  rewrite <- F1, <- F2, <- F3. clear F1 F2 F3.
  run_M; simpl_negb; try congruence; intros [= <-]; cbn in *; count_trace;
    repeat split; lia.
Qed.

Lemma SetOperators_matrices (slepc : Slepc) (op opB : Operator) (w w' : World) :
  SetOperators slepc op opB w = Returned tt w' ->
  count_events is_new_PetscParMatrix (trace w') =
    (count_events is_new_PetscParMatrix (trace w) +
     ((if is_canonical op then 0 else 1) + (if is_canonical opB then 0 else 1)))%nat /\
  count_events is_delete_PetscParMatrix (trace w') =
    count_events is_delete_PetscParMatrix (trace w) /\
  count_events (is_new_PetscParMatrix_not (matrix_type w)) (trace w') =
    count_events (is_new_PetscParMatrix_not (matrix_type w)) (trace w).
Proof.
  unfold SetOperators, bind at 1. rewrite AdaptOperator_spec. cbn.
  unfold bind at 1. rewrite AdaptOperator_spec. cbn.
  assert (F1 : count_events is_new_PetscParMatrix (trace (adapted opB (adapted op w))) =
               (count_events is_new_PetscParMatrix (trace w) +
                ((if is_canonical op then 0 else 1) +
                 (if is_canonical opB then 0 else 1)))%nat)
    by (rewrite !count_new_adapted; lia).
  assert (F2 : count_events is_delete_PetscParMatrix
                 (trace (adapted opB (adapted op w))) =
               count_events is_delete_PetscParMatrix (trace w))
    by (rewrite !count_vectors_adapted
          by (intros [] ?; try discriminate; reflexivity); reflexivity).
  assert (F3 : count_events (is_new_PetscParMatrix_not (matrix_type w))
                 (trace (adapted opB (adapted op w))) =
               count_events (is_new_PetscParMatrix_not (matrix_type w)) (trace w)).
  { rewrite <- (matrix_type_adapted op w) at 1.
    rewrite count_other_type_adapted, matrix_type_adapted.
    apply count_other_type_adapted. }
  revert F1 F2 F3. generalize (matrix_type w). intros ty.
  generalize (adapted opB (adapted op w)). intros a F1 F2 F3.
  rewrite <- F1, <- F2, <- F3. clear F1 F2 F3.
  run_M; simpl_negb; try congruence; intros [= <-]; cbn in *; count_trace;
    repeat split; lia.
Qed.

(** One call: a matrix for each argument that is not canonical, of the type
    the wrap flag selects, and none deleted. *)
Lemma call_matrices (slepc : Slepc) (c : Call) (w w' : World) :
  call slepc c w = Returned tt w' ->
  count_events is_new_PetscParMatrix (trace w') =
    (count_events is_new_PetscParMatrix (trace w) + synthesized c)%nat /\
  count_events is_delete_PetscParMatrix (trace w') =
    count_events is_delete_PetscParMatrix (trace w) /\
  count_events (is_new_PetscParMatrix_not (matrix_type w)) (trace w') =
    count_events (is_new_PetscParMatrix_not (matrix_type w)) (trace w).
Proof.
  destruct c; unfold call; cbn [synthesized];
    [apply SetOperator_matrices | apply SetOperators_matrices
    | generalize (matrix_type w); intros ty ..];
    run_M; simpl_negb; try congruence; intros [= <-]; cbn in *;
    use_store_view; cbn; count_trace; repeat split; lia.
Qed.

(** X12. A solver constructs a canonical matrix for each operator argument
    that is not one, of the type its wrap flag selects (PETSC_MATSHELL when
    set, PETSC_MATAIJ otherwise), and never deletes one: in every state
    reached from the constructor by calls that returned, the matrices
    constructed since then are as many as such arguments, none has another
    type and none was deleted. *)
Theorem matrices_accumulate (slepc : Slepc) (comm : MPI_Comm) (prefix : string)
    (wrap : bool) (cs : list Call) (w0 w : World) :
  (SlepcEigenSolver_ctor slepc comm prefix wrap;; calls slepc cs) w0 = Returned tt w ->
  let other := is_new_PetscParMatrix_not (if wrap then PETSC_MATSHELL else PETSC_MATAIJ) in
  count_events is_new_PetscParMatrix (trace w) =
    (count_events is_new_PetscParMatrix (trace w0) +
     list_sum (map synthesized cs))%nat /\
  count_events is_delete_PetscParMatrix (trace w) =
    count_events is_delete_PetscParMatrix (trace w0) /\
  count_events other (trace w) = count_events other (trace w0).
Proof.
  unfold bind at 1.
  destruct (SlepcEigenSolver_ctor slepc comm prefix wrap w0) as [[] w1|msg w1|] eqn:Hc;
    [|discriminate|discriminate].
  intros H. cbv zeta.
  destruct (ctor_trace slepc comm prefix wrap w0 w1 Hc) as (_ & _ & _ & Hw).
  rewrite <- (ctor_counts slepc comm prefix wrap is_new_PetscParMatrix w0 w1)
    by (reflexivity || exact Hc).
  rewrite <- (ctor_counts slepc comm prefix wrap is_delete_PetscParMatrix w0 w1)
    by (reflexivity || exact Hc).
  rewrite <- (ctor_counts slepc comm prefix wrap
                (is_new_PetscParMatrix_not (if wrap then PETSC_MATSHELL else PETSC_MATAIJ))
                w0 w1) by (reflexivity || exact Hc).
  rewrite <- Hw. fold (matrix_type w1).
  clear Hc Hw. revert w1 H.
  induction cs as [|c cs IH]; intros w1; cbn [calls].
  - intros [= <-]. cbn. repeat split; lia.
  - change (list_sum (map synthesized (c :: cs)))
      with (synthesized c + list_sum (map synthesized cs))%nat.
    unfold bind.
    destruct (call slepc c w1) as [[] w2|msg w2|] eqn:Hc; [|discriminate|discriminate].
    intros H. destruct (call_matrices slepc c w1 w2 Hc) as (C1 & C2 & C3).
    assert (Hty : matrix_type w2 = matrix_type w1).
    { unfold matrix_type.
      destruct (call_keeps slepc c w1 w2) as (_ & -> & _); [rewrite Hc|]; reflexivity. }
    destruct (IH w2 H) as (I1 & I2 & I3). rewrite Hty in I3.
    repeat split; lia.
Qed.

Lemma matrices_accumulate_witness :
  exists w,
    constructed strict_slepc
      [CallSetOperator hypre_A; CallSolve; CallSetOperators petsc_A generic_A;
       CallSetOperator petsc_B; CallSetOperators hypre_A hypre_B] = Returned tt w /\
    count_events is_new_PetscParMatrix (trace w) = 4%nat /\
    count_events is_delete_PetscParMatrix (trace w) = 0%nat /\
    count_events (is_new_PetscParMatrix_not PETSC_MATAIJ) (trace w) = 0%nat.
Proof.
  eexists. split; [vm_compute; reflexivity|].
  match goal with
  | |- count_events _ (trace ?w1) = _ /\ _ =>
      destruct (matrices_accumulate strict_slepc 7 "eig_" false
                  [CallSetOperator hypre_A; CallSolve;
                   CallSetOperators petsc_A generic_A;
                   CallSetOperator petsc_B; CallSetOperators hypre_A hypre_B]
                  blank_world w1 ltac:(vm_compute; reflexivity)) as (N & D & T)
  end.
  rewrite N, D, T. repeat split.
Defined.

(** ** What a registration leaves *)

Lemma discarded_unset (w : World) : operatorset (self w) = false -> discarded w = w.
Proof. unfold discarded. intros ->. reflexivity. Qed.

Lemma VR_discarded (w : World) :
  operatorset (self w) = true \/ VR (self w) = None -> VR (self (discarded w)) = None.
Proof.
  unfold discarded. destruct (operatorset (self w)); cbn; [reflexivity|].
  intros [H|H]; [discriminate|exact H].
Qed.

Lemma registered_other (e : option handle) (t : list Event) (ev : Event) :
  match ev with
  | E_EPSSetOperators _ _ _ => False
  | _ => True
  end ->
  registered e (t ++ [ev]) = registered e t.
Proof.
  intros H. rewrite registered_app. destruct ev; try contradiction; reflexivity.
Qed.

(** A call that touches neither views nor operators leaves the registered
    operator as it was. *)
Lemma call_registered (slepc : Slepc) (c : Call) (e : option handle) (w w' : World) :
  touches_views c = false ->
  call slepc c w = Returned tt w' ->
  registered e (trace w') = registered e (trace w).
Proof.
  destruct c; try discriminate; intros _; unfold call; run_M; simpl_negb;
    try congruence; intros [= <-]; cbn; rewrite ?registered_other by exact I;
    reflexivity.
Qed.

Lemma calls_registered (slepc : Slepc) (cs : list Call) (e : option handle)
    (w w' : World) :
  Forall (fun c => touches_views c = false) cs ->
  calls slepc cs w = Returned tt w' ->
  registered e (trace w') = registered e (trace w).
Proof.
  revert w. induction cs as [|c cs IH]; intros w F; cbn.
  - intros [= <-]. reflexivity.
  - apply Forall_cons in F as [Fc F]. unfold bind.
    destruct (call slepc c w) as [[] w1|msg w1|] eqn:Hc; [|discriminate|discriminate].
    intros H. rewrite (IH w1 F H). exact (call_registered slepc c e w w1 Fc Hc).
Qed.

(** What a registration that returned has left. *)
Lemma SetOperator_returned (slepc : Slepc) (op : Operator) (w w1 : World) :
  views_ready w ->
  SetOperator slepc op w = Returned tt w1 ->
  eps (self w1) = eps (self w) /\ memory w1 = memory w /\
  registered (eps (self w)) (trace w1) = Some (canonical_of op w) /\
  (operatorset (self w) = true \/ VR (self w) = None -> VR (self w1) = None).
Proof.
  intros Hv. rewrite (SetOperator_run slepc op w Hv). cbv zeta.
  destruct (answer slepc _ _ =? 0); [|discriminate]. intros [= <-]. cbn.
  unfold before_registration.
  destruct (discarded_fields (adapted op w)) as (He & Hm & _).
  rewrite self_adapted in He. rewrite He, Hm, memory_adapted.
  split; [reflexivity|]. split; [reflexivity|]. split.
  - apply registered_snoc.
  - intros Hs. apply VR_discarded. rewrite self_adapted. exact Hs.
Qed.

Lemma SetOperators_returned (slepc : Slepc) (op opB : Operator) (w w1 : World) :
  views_ready w ->
  SetOperators slepc op opB w = Returned tt w1 ->
  eps (self w1) = eps (self w) /\ memory w1 = memory w /\
  registered (eps (self w)) (trace w1) = Some (canonical_of op w) /\
  (operatorset (self w) = true \/ VR (self w) = None -> VR (self w1) = None).
Proof.
  intros Hv. rewrite (SetOperators_run slepc op opB w Hv). cbv zeta.
  destruct (answer slepc _ _ =? 0); [|discriminate]. intros [= <-]. cbn.
  destruct (discarded_fields (adapted opB (adapted op w))) as (He & Hm & _).
  rewrite !self_adapted in He. rewrite He, Hm, !memory_adapted.
  split; [reflexivity|]. split; [reflexivity|]. split.
  - apply registered_snoc.
  - intros Hs. apply VR_discarded. rewrite !self_adapted. exact Hs.
Qed.

(** The first retrieval after a registration, with calls in between that
    touch neither views nor operators, creates its view from the operator
    registered. *)
Lemma first_retrieval (slepc : Slepc) (A : Operator) (cs : list Call) (i : N)
    (vr : Vector) (old : list double) (w1 w2 : World) :
  views_ready w1 ->
  VR (self w1) = None ->
  registered (eps (self w1)) (trace w1) = Some A ->
  Forall (fun c => touches_views c = false) cs ->
  calls slepc cs w1 = Returned tt w2 ->
  memory w1 !! GetData vr = Some old -> (Height A <= length old)%nat ->
  accepts slepc (trace w2) (E_EPSGetOperators (eps (self w1))) ->
  (forall v, accepts slepc (trace w2) (E_EPSGetEigenvector (eps (self w1)) i v None)) ->
  exists w3 v,
    GetEigenvector slepc i vr w2 = Returned tt w3 /\
    VR (self w3) = Some v /\
    heap w2 !! v = None /\
    heap w3 !! v = Some (PetscParVectorObj (Height A) None) /\
    In (E_new_PetscParVector v A) (trace w3).
Proof.
  intros Hv1 HVR Hreg F Hcs Hm Hlen Hops Hvec.
  destruct (calls_quiet slepc cs w1 w2 F Hcs) as (He & Hh & Hmem & HVR2 & _).
  pose proof (calls_registered slepc cs (eps (self w1)) w1 w2 F Hcs) as Hreg2.
  rewrite Hreg in Hreg2. rewrite HVR in HVR2.
  destruct (GetEigenvector_spec slepc i vr w2 (Height A) old)
    as (w3 & v & Hrun & HVR3 & Hheap3 & Hnew & _).
  { rewrite HVR2. exact I. }
  { unfold local_size. rewrite HVR2, He, Hreg2. reflexivity. }
  { rewrite Hmem. exact Hm. }
  { exact Hlen. }
  { rewrite He. exact Hops. }
  { rewrite He. exact Hvec. }
  destruct Hnew as [Hold|(_ & Hfresh & A' & HA & _ & Hin)]; [congruence|].
  rewrite He, Hreg2 in HA. injection HA as <-.
  exists w3, v. repeat split; try assumption.
  rewrite Hheap3. apply lookup_insert_eq.
Qed.

(** X13. A registration the engine accepts leaves [operatorset] true and the
    canonical form of the first operator as the one the engine hands back; on
    a solver with no operator registered it deletes nothing and leaves the
    view pointers alone.  After a SetOperators(op, opB) that returned, and
    any calls that touch neither operators nor eigenvectors (a Solve among
    them), the next GetEigenvector that the engine accepts creates its view
    with the rows of [op], not of [opB]; after a SetOperator(op) likewise. *)
Theorem registration_takes_effect (slepc : Slepc) (w : World) :
  views_ready w ->
  (forall op,
     accepts slepc (trace w ++ construction_of op w) (registration op w) ->
     exists w',
       SetOperator slepc op w = Returned tt w' /\
       operatorset (self w') = true /\
       registered (eps (self w')) (trace w') = Some (canonical_of op w) /\
       (operatorset (self w) = false ->
        VR (self w') = VR (self w) /\ VC (self w') = VC (self w) /\
        heap w' = heap (adapted op w) /\
        trace w' = (trace w ++ construction_of op w ++ [registration op w])%list)) /\
  (forall op opB,
     accepts slepc (trace w ++ construction2 op opB w) (registration2 op opB w) ->
     exists w',
       SetOperators slepc op opB w = Returned tt w' /\
       operatorset (self w') = true /\
       registered (eps (self w')) (trace w') = Some (canonical_of op w) /\
       (operatorset (self w) = false ->
        VR (self w') = VR (self w) /\ VC (self w') = VC (self w) /\
        heap w' = heap (adapted opB (adapted op w)) /\
        trace w' = (trace w ++ construction2 op opB w ++
                    [registration2 op opB w])%list)) /\
  (forall op opB cs i vr old w1 w2,
     operatorset (self w) = true \/ VR (self w) = None ->
     SetOperators slepc op opB w = Returned tt w1 ->
     Forall (fun c => touches_views c = false) cs ->
     calls slepc cs w1 = Returned tt w2 ->
     memory w !! GetData vr = Some old ->
     (Height op <= length old)%nat ->
     accepts slepc (trace w2) (E_EPSGetOperators (eps (self w))) ->
     (forall v, accepts slepc (trace w2)
                  (E_EPSGetEigenvector (eps (self w)) i v None)) ->
     exists w3 v,
       GetEigenvector slepc i vr w2 = Returned tt w3 /\
       VR (self w3) = Some v /\
       heap w2 !! v = None /\
       heap w3 !! v = Some (PetscParVectorObj (Height op) None) /\
       In (E_new_PetscParVector v (canonical_of op w)) (trace w3)) /\
  (forall op cs i vr old w1 w2,
     operatorset (self w) = true \/ VR (self w) = None ->
     SetOperator slepc op w = Returned tt w1 ->
     Forall (fun c => touches_views c = false) cs ->
     calls slepc cs w1 = Returned tt w2 ->
     memory w !! GetData vr = Some old ->
     (Height op <= length old)%nat ->
     accepts slepc (trace w2) (E_EPSGetOperators (eps (self w))) ->
     (forall v, accepts slepc (trace w2)
                  (E_EPSGetEigenvector (eps (self w)) i v None)) ->
     exists w3 v,
       GetEigenvector slepc i vr w2 = Returned tt w3 /\
       VR (self w3) = Some v /\
       heap w2 !! v = None /\
       heap w3 !! v = Some (PetscParVectorObj (Height op) None) /\
       In (E_new_PetscParVector v (canonical_of op w)) (trace w3)).
Proof.
  intros Hv. split; [|split; [|split]].
  - intros op Ha. rewrite (SetOperator_spec slepc op w Hv Ha).
    eexists. split; [reflexivity|]. cbn. split; [reflexivity|].
    destruct (discarded_fields (adapted op w)) as (He & _).
    rewrite self_adapted in He. unfold before_registration. rewrite He. split.
    + apply registered_snoc.
    + intros Hs. rewrite discarded_unset by (rewrite self_adapted; exact Hs).
      rewrite self_adapted, trace_adapted, <- app_assoc. repeat split.
  - intros op opB Ha. rewrite (SetOperators_spec slepc op opB w Hv Ha).
    eexists. split; [reflexivity|]. cbn. split; [reflexivity|].
    destruct (discarded_fields (adapted opB (adapted op w))) as (He & _).
    rewrite !self_adapted in He. rewrite He. split.
    + apply registered_snoc.
    + intros Hs. rewrite discarded_unset by (rewrite !self_adapted; exact Hs).
      rewrite !self_adapted, !trace_adapted. unfold construction2.
      rewrite <- !app_assoc. repeat split.
  - intros op opB cs i vr old w1 w2 Hs Hrun F Hcs Hm Hlen Hops Hvec.
    destruct (SetOperators_returned slepc op opB w w1 Hv Hrun)
      as (He & Hmem & Hreg & HVR).
    pose proof (SetOperators_ready slepc op opB w w1 Hv Hrun) as Hv1.
    rewrite <- (Height_canonical_of op w) in Hlen |- *.
    apply (first_retrieval slepc (canonical_of op w) cs i vr old w1 w2); auto;
      rewrite ?He, ?Hmem; auto.
  - intros op cs i vr old w1 w2 Hs Hrun F Hcs Hm Hlen Hops Hvec.
    destruct (SetOperator_returned slepc op w w1 Hv Hrun)
      as (He & Hmem & Hreg & HVR).
    pose proof (SetOperator_ready slepc op w w1 Hv Hrun) as Hv1.
    rewrite <- (Height_canonical_of op w) in Hlen |- *.
    apply (first_retrieval slepc (canonical_of op w) cs i vr old w1 w2); auto;
      rewrite ?He, ?Hmem; auto.
Qed.

Lemma registration_takes_effect_witness :
  exists w1 w2 w3 v,
    SetOperators staged_slepc
      {| op_this := 60%positive; op_class := HypreParMatrixClass; Height := 1 |}
      hypre_B retrieved_world = Returned tt w1 /\
    abort_message (GetEigenvector staged_slepc 0 (buffer 100%positive) w1) =
      Some "Error in SLEPc. See stacktrace above." /\
    calls staged_slepc [CallSetTol 0.5%float; CallSolve] w1 = Returned tt w2 /\
    GetEigenvector staged_slepc 0 (buffer 100%positive) w2 = Returned tt w3 /\
    VR (self w3) = Some v /\
    heap w3 !! v = Some (PetscParVectorObj 1 None).
Proof.
  eexists _, _.
  match goal with
  | |- exists w3 v, ?R1 /\ ?A /\ ?R2 /\ _ =>
      assert (H1 : R1) by (vm_compute; reflexivity);
      assert (HA : A) by (vm_compute; reflexivity);
      assert (H2 : R2) by (vm_compute; reflexivity)
  end.
  destruct (proj1 (proj2 (proj2 (registration_takes_effect staged_slepc retrieved_world
                                   views_ready_retrieved)))
              {| op_this := 60%positive; op_class := HypreParMatrixClass; Height := 1 |}
              hypre_B [CallSetTol 0.5%float; CallSolve] 0%N (buffer 100%positive)
              [double_of_int 1; double_of_int 2] _ _
              ltac:(left; vm_compute; reflexivity) H1
              ltac:(repeat constructor) H2
              ltac:(vm_compute; reflexivity) ltac:(cbn; lia)
              ltac:(vm_compute; reflexivity)
              ltac:(intros v; vm_compute; reflexivity))
    as (w3 & v & H3 & HV & _ & Hh & _).
  exists w3, v. repeat split; assumption.
Defined.

(** ** The engine context in every reachable state *)

(** A usable view pointer points to a view. *)
Lemma view_ready_not (p : handle) (o : HeapObject) (q : option handle) (w : World) :
  view_ready q w -> heap w !! p = Some o -> not_a_view o -> q <> Some p.
Proof.
  intros Hq Hp Ho ->. destruct Hq as [n Hn]. rewrite Hn in Hp.
  injection Hp as <-. exact Ho.
Qed.

Lemma insert_keeps (h : gmap handle HeapObject) (v p : handle) (o x : HeapObject)
    (q : option handle) (w : World) :
  heap w = h -> view_ready q w ->
  q = Some v \/ h !! v = None ->
  h !! p = Some o -> not_a_view o ->
  <[v := x]> h !! p = Some o.
Proof.
  intros <- Hq Hv Hp Ho. rewrite lookup_insert_ne; [exact Hp|].
  intros ->. destruct Hv as [Hv|Hv]; [|congruence].
  exact (view_ready_not p o q w Hq Hp Ho Hv).
Qed.

Lemma GetEigenvector_rc_returned_where (slepc : Slepc) (i : N) (vr vc : Vector)
    (w w' : World) :
  views_ready w ->
  GetEigenvector_rc slepc i vr vc w = Returned tt w' ->
  exists v u nr nc,
    v <> u /\
    heap w' = <[u := PetscParVectorObj nc None]>
                (<[v := PetscParVectorObj nr None]> (heap w)) /\
    (VR (self w) = Some v \/ heap w !! v = None) /\
    (VC (self w) = Some u \/ heap w !! u = None).
Proof.
  intros (Hr & Hc & Hne). unfold view_ready in Hr, Hc.
  destruct (VR (self w)) as [v|] eqn:EVR; destruct (VC (self w)) as [u|] eqn:EVC.
  - destruct Hr as [n1 Hv]. destruct Hc as [n2 Hu].
    assert (Hvu : v <> u) by (intros ->; apply (Hne u); reflexivity).
    assert (Huv : u <> v) by congruence.
    repeat (progress unfold_M). unfold store_view. simp_M.
    case_answer. case_store. case_store. intros [= <-]. cbn.
    exists v, u, n1, n2. repeat split; auto. heap_eq.
  - destruct Hr as [n1 Hv].
    pose proof (fresh_ne_live _ _ _ Hv) as Huv.
    assert (Hvu : v <> fresh (dom (heap w))) by congruence.
    repeat (progress unfold_M). unfold store_view. simp_M.
    case_answer.
    destruct (registered _ _) as [A|]; simp_M; [|intros [=]].
    case_answer. case_store. case_store. intros [= <-]. cbn.
    exists v, (fresh (dom (heap w))), n1, (Height A).
    split; [exact Hvu|]. split; [heap_eq|]. split; [left; reflexivity|].
    right. apply fresh_heap_None.
  - destruct Hc as [n2 Hu].
    pose proof (fresh_ne_live _ _ _ Hu) as Hvu.
    assert (Huv : u <> fresh (dom (heap w))) by congruence.
    repeat (progress unfold_M). unfold store_view. simp_M.
    case_answer.
    destruct (registered _ _) as [A|]; simp_M; [|intros [=]].
    case_answer. case_store. case_store. intros [= <-]. cbn.
    exists (fresh (dom (heap w))), u, (Height A), n2.
    split; [exact Hvu|]. split; [heap_eq|]. split; [|left; reflexivity].
    right. apply fresh_heap_None.
  - repeat (progress unfold_M). unfold store_view. simp_M.
    case_answer.
    destruct (registered _ _) as [A|]; simp_M; [|intros [=]].
    set (v := fresh (dom (heap w))).
    set (o := PetscParVectorObj (Height A) None).
    pose proof (fresh_insert_ne (heap w) v o) as Huv.
    assert (Hvu : v <> fresh (dom (<[v := o]> (heap w)))) by congruence.
    simp_M.
    case_answer. case_store. case_store. intros [= <-]. cbn.
    exists v, (fresh (dom (<[v := o]> (heap w)))), (Height A), (Height A).
    split; [exact Hvu|]. split; [subst o; heap_eq|].
    split; [right; apply fresh_heap_None|]. right.
    pose proof (fresh_heap_None (<[v := o]> (heap w))) as Hf.
    rewrite lookup_insert_ne in Hf by exact Hvu. exact Hf.
Qed.

Lemma discarded_keeps_object (w : World) (p : handle) (o : HeapObject) :
  views_ready w -> heap w !! p = Some o -> not_a_view o ->
  heap (discarded w) !! p = Some o.
Proof.
  intros (Hr & Hc & _) Hp Ho. unfold discarded.
  destruct (operatorset (self w)); [|exact Hp]. cbn.
  pose proof (view_ready_not p o _ w Hr Hp Ho) as Nr.
  pose proof (view_ready_not p o _ w Hc Hp Ho) as Nc.
  unfold release.
  destruct (VC (self w)) as [vc|], (VR (self w)) as [vr|]; cbn;
    rewrite ?lookup_delete_ne by congruence; exact Hp.
Qed.

(** A call that returns deletes nothing but views and overwrites nothing but
    views. *)
Lemma call_keeps_object (slepc : Slepc) (c : Call) (w w' : World) (p : handle)
    (o : HeapObject) :
  views_ready w ->
  call slepc c w = Returned tt w' ->
  heap w !! p = Some o -> not_a_view o -> heap w' !! p = Some o.
Proof.
  intros Hv Hrun Hp Ho. destruct (touches_views c) eqn:Ht.
  - destruct c; try discriminate; cbn in Hrun.
    + rewrite (SetOperator_run slepc op w Hv) in Hrun. cbv zeta in Hrun.
      destruct (answer slepc _ _ =? 0); [|discriminate]. injection Hrun as <-. cbn.
      apply discarded_keeps_object;
        [apply views_ready_adapted, Hv|apply heap_adapted_keeps, Hp|exact Ho].
    + rewrite (SetOperators_run slepc op opB w Hv) in Hrun. cbv zeta in Hrun.
      destruct (answer slepc _ _ =? 0); [|discriminate]. injection Hrun as <-. cbn.
      apply discarded_keeps_object;
        [do 2 apply views_ready_adapted; exact Hv
        |do 2 apply heap_adapted_keeps; exact Hp|exact Ho].
    + destruct (GetEigenvector_returned slepc i vr w w' Hv Hrun)
        as (v & n & _ & _ & -> & Hold).
      destruct Hv as (Hr & _).
      apply (insert_keeps _ _ _ _ _ (VR (self w)) w); auto. tauto.
    + destruct (GetEigenvector_rc_returned_where slepc i vr vc w w' Hv Hrun)
        as (v & u & nr & nc & Hvu & -> & Hv' & Hu').
      destruct Hv as (Hr & Hc & _).
      rewrite lookup_insert_ne.
      * apply (insert_keeps _ _ _ _ _ (VR (self w)) w); auto.
      * intros ->. destruct Hu' as [Hu'|Hu']; [|congruence].
        exact (view_ready_not p o _ w Hc Hp Ho Hu').
  - destruct (call_views_frame slepc c w w' Ht Hrun) as (_ & _ & ->). exact Hp.
Qed.

Lemma calls_keep_object (slepc : Slepc) (cs : list Call) (w w' : World) (p : handle)
    (o : HeapObject) :
  views_ready w ->
  calls slepc cs w = Returned tt w' ->
  heap w !! p = Some o -> not_a_view o -> heap w' !! p = Some o.
Proof.
  revert w. induction cs as [|c cs IH]; intros w Hv; cbn.
  - intros [= <-]. auto.
  - unfold bind. destruct (call slepc c w) as [[] w1|msg w1|] eqn:Hc;
      [|discriminate|discriminate].
    intros H Hp Ho. apply (IH w1); auto.
    + exact (call_ready slepc c w w1 Hv Hc).
    + exact (call_keeps_object slepc c w w1 p o Hv Hc Hp Ho).
Qed.

(** X14. The engine context outlives every call: in every state reached from
    the constructor by calls that returned, [eps] is the address the
    constructor obtained, new at that time, and the context created there is
    still on the free store; so is every object that was there before the
    constructor and is not a view. *)
Theorem context_stays_live (slepc : Slepc) (comm : MPI_Comm) (prefix : string)
    (wrap : bool) (cs : list Call) (w0 w : World) :
  (SlepcEigenSolver_ctor slepc comm prefix wrap;; calls slepc cs) w0 = Returned tt w ->
  let h := fresh (dom (heap w0)) in
  eps (self w) = Some h /\ heap w0 !! h = None /\
  heap w !! h = Some (EPSObj comm) /\
  (forall p o, heap w0 !! p = Some o -> not_a_view o -> heap w !! p = Some o).
Proof.
  unfold bind at 1.
  destruct (SlepcEigenSolver_ctor slepc comm prefix wrap w0) as [[] w1|msg w1|] eqn:Hc;
    [|discriminate|discriminate].
  intros H. cbv zeta.
  destruct (ctor_returned slepc comm prefix wrap w0 w1 Hc) as (Heps & Hheap & _).
  pose proof (ctor_ready slepc comm prefix wrap w0 w1 Hc) as Hv.
  pose proof (calls_keep_eps slepc cs w1 w H) as He.
  split; [congruence|]. split; [apply fresh_heap_None|]. split.
  - apply (calls_keep_object slepc cs w1 w _ _ Hv H); [|exact I].
    rewrite Hheap. apply lookup_insert_eq.
  - intros p o Hp Ho. apply (calls_keep_object slepc cs w1 w _ _ Hv H); [|exact Ho].
    rewrite Hheap, lookup_insert_ne; [exact Hp|].
    intros <-. rewrite fresh_heap_None in Hp. discriminate.
Qed.

Lemma context_stays_live_witness :
  exists w,
    constructed strict_slepc
      [CallSetOperator hypre_A; CallSolve;
       CallGetEigenvector_rc 0 (buffer 100%positive) (buffer 102%positive);
       CallSetOperators hypre_B petsc_A] = Returned tt w /\
    eps (self w) = Some 1%positive /\ heap w !! 1%positive = Some (EPSObj 7).
Proof.
  eexists. split; [vm_compute; reflexivity|].
  match goal with
  | |- eps (self ?w1) = _ /\ _ =>
      destruct (context_stays_live strict_slepc 7 "eig_" false
                  [CallSetOperator hypre_A; CallSolve;
                   CallGetEigenvector_rc 0 (buffer 100%positive) (buffer 102%positive);
                   CallSetOperators hypre_B petsc_A] blank_world w1
                  ltac:(vm_compute; reflexivity)) as (He & _ & Hh & _)
  end.
  split; [exact He|exact Hh].
Defined.

(** The destructor leaves the view pointers alone and logs two calls. *)
Lemma dtor_frame (slepc : Slepc) (P : Event -> bool) (w w' : World) :
  (forall e, P (E_PetscObjectGetComm e) = false) ->
  (forall e, P (E_EPSDestroy e) = false) ->
  SlepcEigenSolver_dtor slepc w = Returned tt w' ->
  VR (self w') = VR (self w) /\ VC (self w') = VC (self w) /\
  count_events P (trace w') = count_events P (trace w).
Proof.
  intros H1 H2.
  run_M; simpl_negb; try congruence; intros [= <-]; cbn; count_trace;
    rewrite H1, H2; repeat split; lia.
Qed.

(** X15. What a whole life leaves behind: when construction, any calls and
    destruction have returned, the engine context is gone and [eps] is null,
    but the views the solver pointed to at destruction are still on the free
    store, with the pointers still set: the views created during the life
    are the views deleted during it and those. *)
Theorem life_ends_with_its_views (slepc : Slepc) (comm : MPI_Comm) (prefix : string)
    (wrap : bool) (cs : list Call) (w0 w' : World) :
  lifetime slepc comm prefix wrap cs w0 = Returned tt w' ->
  eps (self w') = None /\ heap w' !! fresh (dom (heap w0)) = None /\
  views_ready w' /\
  (count_events is_new_PetscParVector (trace w') +
   count_events is_delete_PetscParVector (trace w0) =
   count_events is_new_PetscParVector (trace w0) +
   count_events is_delete_PetscParVector (trace w') + live_views w')%nat.
Proof.
  unfold lifetime, bind at 1.
  destruct (SlepcEigenSolver_ctor slepc comm prefix wrap w0) as [[] w1|msg w1|] eqn:Hc;
    [|discriminate|discriminate].
  unfold bind at 1.
  destruct (calls slepc cs w1) as [[] w2|msg w2|] eqn:Hcs; [|discriminate|discriminate].
  intros Hd.
  destruct (ctor_returned slepc comm prefix wrap w0 w1 Hc) as (Heps & Hheap & _).
  destruct (ctor_trace slepc comm prefix wrap w0 w1 Hc) as (_ & HVR1 & HVC1 & _).
  pose proof (ctor_ready slepc comm prefix wrap w0 w1 Hc) as Hv1.
  pose proof (calls_ready slepc cs w1 w2 Hv1 Hcs) as Hv2.
  pose proof (calls_keep_eps slepc cs w1 w2 Hcs) as He. rewrite Heps in He.
  assert (Hlive : heap w2 !! fresh (dom (heap w0)) = Some (EPSObj comm)).
  { apply (calls_keep_object slepc cs w1 w2 _ _ Hv1 Hcs); [|exact I].
    rewrite Hheap. apply lookup_insert_eq. }
  destruct (dtor_returned slepc w2 w' Hd) as (He' & Hh' & _).
  destruct (dtor_frame slepc is_new_PetscParVector w2 w' ltac:(reflexivity)
              ltac:(reflexivity) Hd) as (HVR & HVC & Hn).
  destruct (dtor_frame slepc is_delete_PetscParVector w2 w' ltac:(reflexivity)
              ltac:(reflexivity) Hd) as (_ & _ & Hdel).
  rewrite He in Hh'. cbn in Hh'.
  split; [exact He'|]. split; [rewrite Hh'; apply lookup_delete_eq|]. split.
  - destruct Hv2 as (Hr & Hcv & Hne). unfold views_ready, view_ready.
    rewrite HVR, HVC, Hh'. split; [|split; [|exact Hne]].
    + destruct (VR (self w2)) as [v|]; [|exact I]. destruct Hr as [n Hn'].
      exists n. rewrite lookup_delete_ne by congruence. exact Hn'.
    + destruct (VC (self w2)) as [u|]; [|exact I]. destruct Hcv as [n Hn'].
      exists n. rewrite lookup_delete_ne by congruence. exact Hn'.
  - pose proof (calls_view_balance slepc cs w1 w2 Hcs) as Hb.
    unfold live_views in Hb at 1. rewrite HVR1, HVC1 in Hb. cbn in Hb.
    rewrite (ctor_counts slepc comm prefix wrap is_new_PetscParVector w0 w1) in Hb
      by (reflexivity || exact Hc).
    rewrite (ctor_counts slepc comm prefix wrap is_delete_PetscParVector w0 w1) in Hb
      by (reflexivity || exact Hc).
    unfold live_views. rewrite HVR, HVC, Hn, Hdel. unfold live_views in Hb. lia.
Qed.

Lemma life_ends_with_its_views_witness :
  exists w',
    lifetime strict_slepc 7 "eig_" false
      [CallSetOperator hypre_A; CallSolve;
       CallGetEigenvector_rc 0 (buffer 100%positive) (buffer 102%positive)]
      blank_world = Returned tt w' /\
    heap w' !! 1%positive = None /\ live_views w' = 2%nat /\
    count_events is_delete_PetscParVector (trace w') = 0%nat /\
    views_ready w'.
Proof.
  eexists. split; [vm_compute; reflexivity|].
  split; [vm_compute; reflexivity|]. split; [vm_compute; reflexivity|].
  split; [vm_compute; reflexivity|].
  match goal with
  | |- views_ready ?w1 =>
      apply (life_ends_with_its_views strict_slepc 7 "eig_" false
               [CallSetOperator hypre_A; CallSolve;
                CallGetEigenvector_rc 0 (buffer 100%positive) (buffer 102%positive)]
               blank_world w1)
  end.
  vm_compute. reflexivity.
Defined.

(** ** Defined outcomes *)

(** With usable views, a call that is not a retrieval returns or aborts. *)
Lemma call_defined (slepc : Slepc) (c : Call) (w : World) :
  views_ready w -> writes_arrays c = false ->
  exists w', final (call slepc c w) = Some w'.
Proof.
  intros Hv Hc. destruct c; try discriminate; unfold call;
    [rewrite (SetOperator_run slepc op w Hv); cbv zeta;
     destruct (answer slepc _ _ =? 0); eexists; reflexivity
    |rewrite (SetOperators_run slepc op opB w Hv); cbv zeta;
     destruct (answer slepc _ _ =? 0); eexists; reflexivity
    |..];
    run_M; eexists; reflexivity.
Qed.

Lemma calls_defined (slepc : Slepc) (cs : list Call) (w : World) :
  views_ready w -> Forall (fun c => writes_arrays c = false) cs ->
  exists w', final (calls slepc cs w) = Some w'.
Proof.
  revert w. induction cs as [|c cs IH]; intros w Hv F; cbn.
  - eexists. reflexivity.
  - apply Forall_cons in F as [Fc F]. unfold bind.
    destruct (call_defined slepc c w Hv Fc) as (w1 & H1).
    destruct (call slepc c w) as [[] w1'|msg w1'|] eqn:Hc; [| |discriminate].
    + apply IH; [|exact F]. exact (call_ready slepc c w w1' Hv Hc).
    + eexists. reflexivity.
Qed.

(** A retrieval into an array that holds the local rows returns or aborts. *)
Lemma GetEigenvector_defined (slepc : Slepc) (i : N) (vr : Vector) (w : World)
    (n : nat) (old : list double) :
  views_ready w ->
  local_size (VR (self w)) w = Some n ->
  memory w !! GetData vr = Some old -> (n <= length old)%nat ->
  exists w', final (GetEigenvector slepc i vr w) = Some w'.
Proof.
  intros (Hr & _ & _) Hn Hm Hlen. unfold view_ready in Hr. unfold local_size in Hn.
  destruct (VR (self w)) as [v|] eqn:EVR.
  - destruct Hr as [n' Hv]. rewrite Hv in Hn. injection Hn as ->.
    repeat (progress unfold_M). unfold store_view. simp_M.
    case_answer; [|eexists; reflexivity].
    rewrite (store_spec _ _ _ _ old Hm Hlen). simp_M. eexists. reflexivity.
  - destruct (registered (eps (self w)) (trace w)) as [A|] eqn:EA; [|discriminate].
    cbn in Hn. injection Hn as <-.
    repeat (progress unfold_M). unfold store_view. simp_M.
    case_answer; [|eexists; reflexivity].
    case_answer; [|eexists; reflexivity].
    rewrite (store_spec _ _ _ _ old Hm Hlen). simp_M. eexists. reflexivity.
Qed.

Lemma GetEigenvector_rc_defined (slepc : Slepc) (i : N) (vr vc : Vector) (w : World)
    (nr nc : nat) (oldr oldc : list double) :
  views_ready w ->
  local_size (VR (self w)) w = Some nr ->
  local_size (VC (self w)) w = Some nc ->
  GetData vr <> GetData vc ->
  memory w !! GetData vr = Some oldr -> (nr <= length oldr)%nat ->
  memory w !! GetData vc = Some oldc -> (nc <= length oldc)%nat ->
  exists w', final (GetEigenvector_rc slepc i vr vc w) = Some w'.
Proof.
  intros (Hr & Hc & Hne) Hnr Hnc Hrc Hmr Hlr Hmc Hlc.
  assert (Hmc' : forall x, <[GetData vr := x]> (memory w) !! GetData vc = Some oldc)
    by (intros x; rewrite lookup_insert_ne by exact Hrc; exact Hmc).
  unfold view_ready in Hr, Hc. unfold local_size in Hnr, Hnc.
  destruct (VR (self w)) as [v|] eqn:EVR; destruct (VC (self w)) as [u|] eqn:EVC.
  - destruct Hr as [n1 Hv]. destruct Hc as [n2 Hu].
    rewrite Hv in Hnr. rewrite Hu in Hnc. injection Hnr as ->. injection Hnc as ->.
    assert (Hvu : v <> u) by (intros ->; apply (Hne u); reflexivity).
    assert (Huv : u <> v) by congruence.
    repeat (progress unfold_M). unfold store_view. simp_M.
    case_answer; [|eexists; reflexivity].
    rewrite (store_spec _ _ _ _ oldr Hmr Hlr). simp_M.
    rewrite (store_spec _ _ _ _ oldc (Hmc' _) Hlc). simp_M. eexists. reflexivity.
  - destruct Hr as [n1 Hv]. rewrite Hv in Hnr. injection Hnr as ->.
    destruct (registered (eps (self w)) (trace w)) as [A|] eqn:EA; [|discriminate].
    cbn in Hnc. injection Hnc as <-.
    pose proof (fresh_ne_live _ _ _ Hv) as Huv.
    assert (Hvu : v <> fresh (dom (heap w))) by congruence.
    repeat (progress unfold_M). unfold store_view. simp_M.
    case_answer; [|eexists; reflexivity].
    case_answer; [|eexists; reflexivity].
    rewrite (store_spec _ _ _ _ oldr Hmr Hlr). simp_M.
    rewrite (store_spec _ _ _ _ oldc (Hmc' _) Hlc). simp_M. eexists. reflexivity.
  - destruct Hc as [n2 Hu]. rewrite Hu in Hnc. injection Hnc as ->.
    destruct (registered (eps (self w)) (trace w)) as [A|] eqn:EA; [|discriminate].
    cbn in Hnr. injection Hnr as <-.
    pose proof (fresh_ne_live _ _ _ Hu) as Hvu.
    assert (Huv : u <> fresh (dom (heap w))) by congruence.
    repeat (progress unfold_M). unfold store_view. simp_M.
    case_answer; [|eexists; reflexivity].
    case_answer; [|eexists; reflexivity].
    rewrite (store_spec _ _ _ _ oldr Hmr Hlr). simp_M.
    rewrite (store_spec _ _ _ _ oldc (Hmc' _) Hlc). simp_M. eexists. reflexivity.
  - destruct (registered (eps (self w)) (trace w)) as [A|] eqn:EA; [|discriminate].
    cbn in Hnr, Hnc. injection Hnr as <-. injection Hnc as <-.
    repeat (progress unfold_M). unfold store_view. simp_M.
    case_answer; [|eexists; reflexivity].
    set (v := fresh (dom (heap w))).
    set (o := PetscParVectorObj (Height A) None).
    pose proof (fresh_insert_ne (heap w) v o) as Huv.
    assert (Hvu : v <> fresh (dom (<[v := o]> (heap w)))) by congruence.
    simp_M.
    case_answer; [|eexists; reflexivity].
    rewrite (store_spec _ _ _ _ oldr Hmr Hlr). simp_M.
    rewrite (store_spec _ _ _ _ oldc (Hmc' _) Hlc). simp_M. eexists. reflexivity.
Qed.

(** The destructor returns or aborts. *)
Lemma dtor_defined (slepc : Slepc) (w : World) :
  exists w', final (SlepcEigenSolver_dtor slepc w) = Some w'.
Proof. run_M; eexists; reflexivity. Qed.

(** The views [discard_views] deletes are two objects, each on the free
    store before and gone after. *)
Lemma view_deletions_NoDup (w : World) : views_ready w -> NoDup (view_deletions w).
Proof.
  intros (_ & _ & Hne). unfold view_deletions, deletion_of.
  destruct (operatorset (self w)); [|constructor].
  destruct (VR (self w)) as [vr|] eqn:EVR; destruct (VC (self w)) as [vc|]; cbn;
    repeat constructor; try apply not_elem_of_nil.
  intros H. apply list_elem_of_singleton in H. injection H as ->.
  exact (Hne _ eq_refl eq_refl).
Qed.

Lemma deleted_views (w : World) (v : handle) :
  views_ready w ->
  In (E_delete_PetscParVector v) (view_deletions w) ->
  (exists n, heap w !! v = Some (PetscParVectorObj n None)) /\
  heap (discarded w) !! v = None.
Proof.
  intros (Hr & Hc & Hne). unfold view_deletions, discarded, deletion_of, release.
  destruct (operatorset (self w)); [|intros []].
  destruct (VR (self w)) as [vr|] eqn:EVR; destruct (VC (self w)) as [vc|] eqn:EVC; cbn;
    intros H; repeat (destruct H as [H|H]; [injection H as <-|]); try contradiction;
    (split; [assumption|]).
  - assert (vr <> vc) by (intros ->; exact (Hne vc eq_refl eq_refl)).
    rewrite lookup_delete_ne by congruence. apply lookup_delete_eq.
  - apply lookup_delete_eq.
  - apply lookup_delete_eq.
  - apply lookup_delete_eq.
Qed.

Lemma deleted_views_adapted (op : Operator) (w : World) (v : handle) :
  views_ready w ->
  In (E_delete_PetscParVector v) (view_deletions w) ->
  heap (discarded (adapted op w)) !! v = None.
Proof.
  intros Hv Hin.
  apply (deleted_views (adapted op w) v (views_ready_adapted op w Hv)).
  rewrite view_deletions_adapted. exact Hin.
Qed.

(** SetOperator and SetOperators on usable views: the views they delete are
    those the solver points to, and these are gone afterwards. *)
Lemma SetOperator_deletes (slepc : Slepc) (op : Operator) (w : World) :
  views_ready w ->
  exists w',
    final (SetOperator slepc op w) = Some w' /\
    trace w' = (trace w ++ construction_of op w ++ view_deletions w ++
                [registration op w])%list /\
    (forall v, In (E_delete_PetscParVector v) (view_deletions w) ->
               heap w' !! v = None).
Proof.
  intros Hv. rewrite (SetOperator_run slepc op w Hv). cbv zeta.
  destruct (answer slepc _ _ =? 0); eexists; (split; [reflexivity|]); cbn;
    rewrite trace_before_registration, <- !app_assoc; (split; [reflexivity|]);
    intros v Hin; exact (deleted_views_adapted op w v Hv Hin).
Qed.

Lemma SetOperators_deletes (slepc : Slepc) (op opB : Operator) (w : World) :
  views_ready w ->
  exists w',
    final (SetOperators slepc op opB w) = Some w' /\
    trace w' = (trace w ++ construction2 op opB w ++ view_deletions w ++
                [registration2 op opB w])%list /\
    (forall v, In (E_delete_PetscParVector v) (view_deletions w) ->
               heap w' !! v = None).
Proof.
  intros Hv. rewrite (SetOperators_run slepc op opB w Hv). cbv zeta.
  destruct (answer slepc _ _ =? 0); eexists; (split; [reflexivity|]); cbn;
    change (trace (discarded (adapted opB (adapted op w))))
      with (trace (before_registration2 op opB w));
    rewrite trace_before_registration2, <- !app_assoc; (split; [reflexivity|]);
    intros v Hin;
    apply (deleted_views_adapted opB (adapted op w) v (views_ready_adapted op w Hv));
    rewrite view_deletions_adapted; exact Hin.
Qed.

(** A sequence of calls that goes wrong does so at a retrieval, reached by
    calls that returned. *)
Lemma calls_undefined (slepc : Slepc) (cs : list Call) (w : World) :
  views_ready w -> calls slepc cs w = Undefined ->
  exists pre c post w1,
    cs = (pre ++ c :: post)%list /\ writes_arrays c = true /\
    calls slepc pre w = Returned tt w1 /\ views_ready w1 /\
    call slepc c w1 = Undefined.
Proof.
  revert w. induction cs as [|c cs IH]; intros w Hv; cbn; [discriminate|].
  unfold bind at 1.
  destruct (call slepc c w) as [[] w1|msg w1|] eqn:Hc; [|discriminate|].
  - intros H.
    destruct (IH w1 (call_ready slepc c w w1 Hv Hc) H)
      as (pre & c' & post & w2 & -> & Hw & Hpre & Hv2 & Hun).
    exists (c :: pre), c', post, w2. cbn. unfold bind at 1. rewrite Hc.
    split; [reflexivity|]. split; [exact Hw|]. split; [exact Hpre|].
    split; [exact Hv2|exact Hun].
  - intros _. exists [], c, cs, w. cbn.
    destruct (writes_arrays c) eqn:Hw.
    + split; [reflexivity|]. split; [reflexivity|]. split; [reflexivity|].
      split; [exact Hv|exact Hc].
    + destruct (call_defined slepc c w Hv Hw) as (w' & H').
      rewrite Hc in H'. discriminate.
Qed.

(** X16. No call deletes a view twice, deletes one that is gone, or follows a
    null pointer, except possibly a retrieval.  In every state reached from
    the constructor by calls that returned, retrievals among them, every call
    that is not a retrieval returns or aborts, and so does the destructor;
    the views SetOperator and SetOperators delete there are those the solver
    points to, no view twice, each on the free store before the call and gone
    after it.  A run from the constructor that goes wrong does so at a
    retrieval, in a state with usable views reached by calls that returned.
    A retrieval returns or aborts too when the solver's views are usable, each
    view it needs exists or an operator is registered to size it, and the
    caller's arrays hold at least the local rows (and are two arrays, in the
    overload with an imaginary part).  In particular, after the constructor
    every sequence of calls without a retrieval returns or aborts. *)
Theorem only_retrieval_can_go_wrong (slepc : Slepc) :
  (forall comm prefix wrap cs w0,
     Forall (fun c => writes_arrays c = false) cs ->
     exists w,
       final ((SlepcEigenSolver_ctor slepc comm prefix wrap;; calls slepc cs) w0) =
       Some w) /\
  (forall i vr w n old,
     views_ready w ->
     local_size (VR (self w)) w = Some n ->
     memory w !! GetData vr = Some old -> (n <= length old)%nat ->
     exists w', final (GetEigenvector slepc i vr w) = Some w') /\
  (forall i vr vc w nr nc oldr oldc,
     views_ready w ->
     local_size (VR (self w)) w = Some nr ->
     local_size (VC (self w)) w = Some nc ->
     GetData vr <> GetData vc ->
     memory w !! GetData vr = Some oldr -> (nr <= length oldr)%nat ->
     memory w !! GetData vc = Some oldc -> (nc <= length oldc)%nat ->
     exists w', final (GetEigenvector_rc slepc i vr vc w) = Some w') /\
  (forall comm prefix wrap cs w0 w,
     (SlepcEigenSolver_ctor slepc comm prefix wrap;; calls slepc cs) w0 = Returned tt w ->
     (forall c, writes_arrays c = false ->
                exists w', final (call slepc c w) = Some w') /\
     (exists w', final (SlepcEigenSolver_dtor slepc w) = Some w') /\
     NoDup (view_deletions w) /\
     (forall v, In (E_delete_PetscParVector v) (view_deletions w) ->
                exists n, heap w !! v = Some (PetscParVectorObj n None)) /\
     (forall op, exists w',
        final (SetOperator slepc op w) = Some w' /\
        trace w' = (trace w ++ construction_of op w ++ view_deletions w ++
                    [registration op w])%list /\
        (forall v, In (E_delete_PetscParVector v) (view_deletions w) ->
                   heap w' !! v = None)) /\
     (forall op opB, exists w',
        final (SetOperators slepc op opB w) = Some w' /\
        trace w' = (trace w ++ construction2 op opB w ++ view_deletions w ++
                    [registration2 op opB w])%list /\
        (forall v, In (E_delete_PetscParVector v) (view_deletions w) ->
                   heap w' !! v = None))) /\
  (forall comm prefix wrap cs w0,
     (SlepcEigenSolver_ctor slepc comm prefix wrap;; calls slepc cs) w0 = Undefined ->
     exists pre c post w1,
       cs = (pre ++ c :: post)%list /\ writes_arrays c = true /\
       (SlepcEigenSolver_ctor slepc comm prefix wrap;; calls slepc pre) w0 =
         Returned tt w1 /\
       views_ready w1 /\
       call slepc c w1 = Undefined).
Proof.
  split; [|split; [|split; [|split]]].
  - intros comm prefix wrap cs w0 F. unfold bind at 1.
    destruct (ctor_latch slepc comm prefix wrap w0) as (w1 & H1 & _).
    destruct (SlepcEigenSolver_ctor slepc comm prefix wrap w0) as [[] w1'|msg w1'|] eqn:Hc;
      [| |discriminate].
    + apply calls_defined; [|exact F]. exact (ctor_ready slepc comm prefix wrap w0 w1' Hc).
    + eexists. reflexivity.
  - intros i vr w n old. apply GetEigenvector_defined.
  - intros i vr vc w nr nc oldr oldc. apply GetEigenvector_rc_defined.
  - intros comm prefix wrap cs w0 w. unfold bind at 1.
    destruct (SlepcEigenSolver_ctor slepc comm prefix wrap w0) as [[] w1|msg w1|] eqn:Hc;
      [|discriminate|discriminate].
    intros Hcs.
    pose proof (calls_ready slepc cs w1 w
                  (ctor_ready slepc comm prefix wrap w0 w1 Hc) Hcs) as Hv.
    split; [|split; [|split; [|split; [|split]]]].
    + intros c Hw. exact (call_defined slepc c w Hv Hw).
    + apply dtor_defined.
    + exact (view_deletions_NoDup w Hv).
    + intros v Hin. exact (proj1 (deleted_views w v Hv Hin)).
    + intros op. exact (SetOperator_deletes slepc op w Hv).
    + intros op opB. exact (SetOperators_deletes slepc op opB w Hv).
  - intros comm prefix wrap cs w0. unfold bind at 1.
    destruct (ctor_latch slepc comm prefix wrap w0) as (w1' & H1 & _).
    destruct (SlepcEigenSolver_ctor slepc comm prefix wrap w0) as [[] w1|msg w1|] eqn:Hc;
      [|discriminate|discriminate].
    intros Hun.
    destruct (calls_undefined slepc cs w1
                (ctor_ready slepc comm prefix wrap w0 w1 Hc) Hun)
      as (pre & c & post & w2 & -> & Hw & Hpre & Hv2 & Hc2).
    exists pre, c, post, w2. unfold bind at 1. rewrite Hc.
    split; [reflexivity|]. split; [exact Hw|]. split; [exact Hpre|].
    split; [exact Hv2|exact Hc2].
Qed.

Lemma only_retrieval_can_go_wrong_witness :
  (exists w,
     final (constructed strict_slepc
              [CallSetOperator hypre_A; CallSetOperator hypre_B;
               CallSetOperators petsc_A hypre_A; CallSolve]) = Some w) /\
  (exists w', final (GetEigenvector strict_slepc 5 (buffer 101%positive)
                       retrieved_world) = Some w') /\
  (exists w w',
     (SlepcEigenSolver_ctor strict_slepc 7 "eig_" false;;
      calls strict_slepc
        [CallSetOperator hypre_A; CallSolve;
         CallGetEigenvector_rc 0 (buffer 100%positive) (buffer 102%positive)])
       blank_world = Returned tt w /\
     view_deletions w = [E_delete_PetscParVector 3%positive;
                         E_delete_PetscParVector 4%positive] /\
     heap w !! 3%positive = Some (PetscParVectorObj 2 None) /\
     heap w !! 4%positive = Some (PetscParVectorObj 2 None) /\
     final (SetOperator strict_slepc hypre_B w) = Some w' /\
     heap w' !! 3%positive = None /\ heap w' !! 4%positive = None) /\
  (exists pre c post w1,
     [CallSetTol 0.5%float; CallGetEigenvector 0 (buffer 100%positive); CallSolve] =
       (pre ++ c :: post)%list /\
     writes_arrays c = true /\
     constructed strict_slepc pre = Returned tt w1 /\
     call strict_slepc c w1 = Undefined).
Proof.
  pose proof (only_retrieval_can_go_wrong strict_slepc) as (Hc & Hg & _ & Hr & Hu).
  split; [|split; [|split]].
  - apply (Hc 7 "eig_" false
             [CallSetOperator hypre_A; CallSetOperator hypre_B;
              CallSetOperators petsc_A hypre_A; CallSolve] blank_world).
    repeat constructor.
  - apply (Hg 5%N (buffer 101%positive) retrieved_world 2%nat
             [double_of_int 9; double_of_int 9]).
    + exact views_ready_retrieved.
    + vm_compute. reflexivity.
    + vm_compute. reflexivity.
    + cbn. lia.
  - eexists.
    match goal with
    | |- exists w', ?R /\ ?D /\ _ =>
        assert (H1 : R) by (vm_compute; reflexivity);
        assert (HD : D) by (vm_compute; reflexivity)
    end.
    destruct (Hr 7 "eig_" false _ blank_world _ H1) as (_ & _ & _ & _ & Hset & _).
    destruct (Hset hypre_B) as (w' & Hf & _ & Hgone).
    exists w'. split; [exact H1|]. split; [exact HD|].
    split; [vm_compute; reflexivity|]. split; [vm_compute; reflexivity|].
    split; [exact Hf|].
    split; apply Hgone; rewrite HD; [left|right; left]; reflexivity.
  - destruct (Hu 7 "eig_" false
                [CallSetTol 0.5%float; CallGetEigenvector 0 (buffer 100%positive);
                 CallSolve] blank_world)
      as (pre & c & post & w1 & Hsplit & Hw & Hpre & _ & Hun).
    + vm_compute. reflexivity.
    + exists pre, c, post, w1. repeat split; assumption.
Defined.

(** ** The caller's arrays *)

Lemma store_frame (a b : handle) (n : nat) (f : nat -> double)
    (m m' : gmap handle (list double)) :
  store a n f m = Some m' -> b <> a -> m' !! b = m !! b.
Proof.
  unfold store. destruct (m !! a) as [old|]; [|discriminate].
  destruct (n <=? length old)%nat; [|discriminate].
  intros [= <-] Hb. apply lookup_insert_ne. congruence.
Qed.

Ltac case_store_frame :=
  match goal with
  | |- context [store ?a ?n ?f ?m] =>
      let E := fresh "Es" in
      destruct (store a n f m) eqn:E; simp_M; [|try (intros [=])]
  end.

(** X17. A retrieval writes into the arrays it was given and into no other:
    when GetEigenvector(i, vr) returns on a solver with usable views, every
    array of the caller other than that of [vr] is as it was, and likewise
    for the arrays of [vr] and [vc] in the overload with an imaginary part. *)
Theorem retrieval_writes_its_arrays_only (slepc : Slepc) (i : N) (w : World) :
  views_ready w ->
  (forall vr w' a,
     GetEigenvector slepc i vr w = Returned tt w' ->
     a <> GetData vr -> memory w' !! a = memory w !! a) /\
  (forall vr vc w' a,
     GetEigenvector_rc slepc i vr vc w = Returned tt w' ->
     a <> GetData vr -> a <> GetData vc -> memory w' !! a = memory w !! a).
Proof.
  intros (Hr & Hc & Hne). unfold view_ready in Hr, Hc. split.
  - intros vr w' a.
    destruct (VR (self w)) as [v|] eqn:EVR.
    + destruct Hr as [n Hv].
      repeat (progress unfold_M). unfold store_view. simp_M.
      case_answer. case_store_frame. intros [= <-] Ha. cbn.
      exact (store_frame _ _ _ _ _ _ Es Ha).
    + repeat (progress unfold_M). unfold store_view. simp_M.
      case_answer.
      destruct (registered _ _) as [A|]; simp_M; [|intros [=]].
      case_answer. case_store_frame. intros [= <-] Ha. cbn.
      exact (store_frame _ _ _ _ _ _ Es Ha).
  - intros vr vc w' a.
    destruct (VR (self w)) as [v|] eqn:EVR; destruct (VC (self w)) as [u|] eqn:EVC.
    + destruct Hr as [n1 Hv]. destruct Hc as [n2 Hu].
      assert (Hvu : v <> u) by (intros ->; apply (Hne u); reflexivity).
      assert (Huv : u <> v) by congruence.
      repeat (progress unfold_M). unfold store_view. simp_M.
      case_answer. case_store_frame. case_store_frame. intros [= <-] Ha Hb. cbn.
      rewrite (store_frame _ _ _ _ _ _ Es0 Hb). exact (store_frame _ _ _ _ _ _ Es Ha).
    + destruct Hr as [n1 Hv].
      pose proof (fresh_ne_live _ _ _ Hv) as Huv.
      assert (Hvu : v <> fresh (dom (heap w))) by congruence.
      repeat (progress unfold_M). unfold store_view. simp_M.
      case_answer.
      destruct (registered _ _) as [A|]; simp_M; [|intros [=]].
      case_answer. case_store_frame. case_store_frame. intros [= <-] Ha Hb. cbn.
      rewrite (store_frame _ _ _ _ _ _ Es0 Hb). exact (store_frame _ _ _ _ _ _ Es Ha).
    + destruct Hc as [n2 Hu].
      pose proof (fresh_ne_live _ _ _ Hu) as Hvu.
      assert (Huv : u <> fresh (dom (heap w))) by congruence.
      repeat (progress unfold_M). unfold store_view. simp_M.
      case_answer.
      destruct (registered _ _) as [A|]; simp_M; [|intros [=]].
      case_answer. case_store_frame. case_store_frame. intros [= <-] Ha Hb. cbn.
      rewrite (store_frame _ _ _ _ _ _ Es0 Hb). exact (store_frame _ _ _ _ _ _ Es Ha).
    + repeat (progress unfold_M). unfold store_view. simp_M.
      case_answer.
      destruct (registered _ _) as [A|]; simp_M; [|intros [=]].
      set (v := fresh (dom (heap w))).
      set (o := PetscParVectorObj (Height A) None).
      pose proof (fresh_insert_ne (heap w) v o) as Huv.
      assert (Hvu : v <> fresh (dom (<[v := o]> (heap w)))) by congruence.
      simp_M.
      case_answer. case_store_frame. case_store_frame. intros [= <-] Ha Hb. cbn.
      rewrite (store_frame _ _ _ _ _ _ Es0 Hb). exact (store_frame _ _ _ _ _ _ Es Ha).
Qed.

Lemma retrieval_writes_its_arrays_only_witness :
  exists w',
    GetEigenvector_rc strict_slepc 2 (buffer 100%positive) (buffer 102%positive)
      retrieved_world = Returned tt w' /\
    memory w' !! 101%positive = Some [double_of_int 9; double_of_int 9] /\
    memory w' !! 103%positive = Some [double_of_int 9; double_of_int 9].
Proof.
  eexists. split; [vm_compute; reflexivity|].
  match goal with
  | |- memory ?w1 !! _ = _ /\ _ =>
      pose proof (proj2 (retrieval_writes_its_arrays_only strict_slepc 2 retrieved_world
                           views_ready_retrieved)
                    (buffer 100%positive) (buffer 102%positive) w1) as H
  end.
  split.
  - etransitivity;
      [apply (H 101%positive); [vm_compute; reflexivity|discriminate|discriminate]|].
    vm_compute. reflexivity.
  - etransitivity;
      [apply (H 103%positive); [vm_compute; reflexivity|discriminate|discriminate]|].
    vm_compute. reflexivity.
Defined.

(** ** Start-up and shut-down *)

(** X18. MFEMInitializeSlepc aborts with its own message exactly when
    SlepcInitialize is refused, and otherwise returns with [ierr] null and
    nothing else changed; the overloads with fewer arguments pass null
    pointers for the rest.  MFEMFinalizeSlepc does the same with
    SlepcFinalize.  So a start followed by a stop returns when the library
    accepts both, and the stop is not attempted when the start was refused. *)
Theorem startup_aborts_when_refused (lib : SlepcStartup) (h : list StartupCall)
    (w : World) :
  (forall argc argv rc_file help,
     let init := C_SlepcInitialize argc argv rc_file help in
     MFEMInitializeSlepc_rc lib argc argv rc_file help h w =
       if startup_answer lib h init =? 0
       then Returned (h ++ [init])%list (set_ierr 0 w)
       else Aborted "Unable to initialize SLEPc"
              (set_ierr (startup_answer lib h init) w)) /\
  (forall argc argv,
     MFEMInitializeSlepc_args lib argc argv h w =
       MFEMInitializeSlepc_rc lib argc argv None None h w) /\
  MFEMInitializeSlepc lib h w = MFEMInitializeSlepc_rc lib None None None None h w /\
  MFEMFinalizeSlepc lib h w =
    (if startup_answer lib h C_SlepcFinalize =? 0
     then Returned (h ++ [C_SlepcFinalize])%list (set_ierr 0 w)
     else Aborted "Unable to finalize SLEPc"
            (set_ierr (startup_answer lib h C_SlepcFinalize) w)) /\
  (let init := C_SlepcInitialize None None None None in
   (startup_answer lib h init = 0 ->
    startup_answer lib (h ++ [init]) C_SlepcFinalize = 0 ->
    (h1 ← MFEMInitializeSlepc lib h; MFEMFinalizeSlepc lib h1) w =
      Returned (h ++ [init; C_SlepcFinalize])%list (set_ierr 0 w)) /\
   (startup_answer lib h init <> 0 ->
    (h1 ← MFEMInitializeSlepc lib h; MFEMFinalizeSlepc lib h1) w =
      Aborted "Unable to initialize SLEPc" (set_ierr (startup_answer lib h init) w))).
Proof.
  assert (Hinit : forall argc argv rc_file help,
            MFEMInitializeSlepc_rc lib argc argv rc_file help h w =
            if startup_answer lib h (C_SlepcInitialize argc argv rc_file help) =? 0
            then Returned (h ++ [C_SlepcInitialize argc argv rc_file help])%list
                   (set_ierr 0 w)
            else Aborted "Unable to initialize SLEPc"
                   (set_ierr (startup_answer lib h
                                (C_SlepcInitialize argc argv rc_file help)) w)).
  { intros argc argv rc_file help.
    unfold MFEMInitializeSlepc_rc, SlepcInitialize, MFEM_VERIFY, MFEM_ABORT, ierr_is,
      modify, gets, bind, ret. cbn.
    destruct (Z.eqb_spec (startup_answer lib h
                            (C_SlepcInitialize argc argv rc_file help)) 0) as [->|];
      reflexivity. }
  split; [exact Hinit|]. split; [reflexivity|]. split; [reflexivity|]. split.
  - unfold MFEMFinalizeSlepc, SlepcFinalize, MFEM_VERIFY, MFEM_ABORT, ierr_is,
      modify, gets, bind, ret. cbn.
    destruct (Z.eqb_spec (startup_answer lib h C_SlepcFinalize) 0) as [->|];
      reflexivity.
  - cbv zeta. split.
    + intros H1 H2. unfold bind at 1, MFEMInitializeSlepc. rewrite Hinit, H1. cbn.
      unfold MFEMFinalizeSlepc, SlepcFinalize, MFEM_VERIFY, MFEM_ABORT, ierr_is,
        modify, gets, bind, ret. cbn. rewrite H2. cbn. rewrite <- app_assoc.
      reflexivity.
    + intros H1. unfold bind at 1, MFEMInitializeSlepc. rewrite Hinit.
      apply Z.eqb_neq in H1. rewrite H1. reflexivity.
Qed.

Lemma startup_aborts_when_refused_witness :
  (h1 ← MFEMInitializeSlepc plain_startup []; MFEMFinalizeSlepc plain_startup h1)
    blank_world =
    Returned [C_SlepcInitialize None None None None; C_SlepcFinalize] blank_world /\
  MFEMFinalizeSlepc plain_startup [] blank_world =
    Aborted "Unable to finalize SLEPc" (set_ierr 1 blank_world).
Proof.
  destruct (startup_aborts_when_refused plain_startup [] blank_world)
    as (_ & _ & _ & Hfin & Hboth & _).
  split.
  - rewrite Hboth; reflexivity.
  - rewrite Hfin. reflexivity.
Defined.
